(** * Appfile compiler (package appfile): a shallow embedding

    The Go source keeps parsed Appfiles behind pointers ([*File],
    [*Project]), mutates them in place, shares them through the import
    cache, and talks to the outside world (network, file system, user
    callbacks).  The embedding keeps all of that explicit:

    - a heap of [File] structs and a heap of [Project] structs, a pointer
      being an index into the heap;
    - an abstract external [World] that only the collaborators
      (go-getter, the Appfile parser, the os package, ...) can read or
      change;
    - a chronological [trace] of the calls the compiler makes to those
      collaborators: callbacks, fetches, parses, loader calls, calls on
      ID files, merges, and what is done to the files of the output
      directory (calls that only compute or look something up, such as
      [Detect], [Stat], the [Dir] of a storage, [Validate] or the JSON
      encoder, leave no entry);
    - a monad [M] whose outcomes are a normal return, a Go run-time panic,
      or an exhausted recursion budget. *)

From stdpp Require Import gmap strings list pretty.

Local Set Warnings "-register-all".

(** ** Errors *)

(** [Errorf] is an error built by this package with [fmt.Errorf];
    [External] is an error value handed back by a collaborator, carrying
    its [Error()] text; [MultiError] is a [*multierror.Error]. *)
Inductive error :=
| Errorf (msg : string)
| External (msg : string)
| MultiError (errs : list error).

(** What a collaborator returns: a value, or an error with its text. *)
Inductive result (A : Type) :=
| Ok (a : A)
| Fail (msg : string).
Arguments Ok {A} a.
Arguments Fail {A} msg.

(** A Go [(value, error)] pair as returned by the functions of the package. *)
Inductive goresult (A : Type) :=
| Return (a : A)
| ReturnErr (e : error).
Arguments Return {A} a.
Arguments ReturnErr {A} e.

Definition multierror_Append (err : option error) (e : error) : error :=
  let new := match e with MultiError es => es | _ => [e] end in
  match err with
  | None => MultiError new
  | Some (MultiError es) => MultiError (es ++ new)
  | Some other => MultiError (other :: new)
  end.

Definition error_text1 (e : error) : string :=
  match e with
  | Errorf m => m
  | External m => m
  | MultiError _ => "multiple errors"
  end.

Definition multierror_Prefix (e : error) (prefix : string) : error :=
  match e with
  | MultiError es =>
      MultiError (map (λ x, Errorf (prefix +:+ " " +:+ error_text1 x)) es)
  | _ => Errorf (prefix +:+ " " +:+ error_text1 e)
  end.

Definition nl : string := String (Ascii.ascii_of_nat 10) EmptyString.

(** [strings.Join]. *)
Fixpoint strings_Join (l : list string) (sep : string) : string :=
  match l with
  | [] => ""
  | [x] => x
  | x :: r => x +:+ sep +:+ strings_Join r sep
  end.

(** [filepath.Join] on two elements, up to path cleaning. *)
Definition filepath_Join (dir name : string) : string := dir +:+ "/" +:+ name.

(** ** Constants *)

Definition CompileVersion : Z := 1.
Definition CompileFilename : string := "Appfile.compiled".
Definition CompileDepsFolder : string := "deps".
Definition CompileImportsFolder : string := "deps".
Definition CompileVersionFilename : string := "version".

(** ** The graph library (terraform/dag), as far as the package uses it *)

Module dag.
Section graph.
Context {V : Type} `{EqDecision V}.

Record AcyclicGraph := mkGraph {
vertices : list V;
edges : list (V * V)
}.

Definition empty : AcyclicGraph := mkGraph [] [].

(** Vertices and edges are sets: adding twice changes nothing. *)
Definition Add (v : V) (g : AcyclicGraph) : AcyclicGraph :=
if decide (v ∈ vertices g) then g
else mkGraph (vertices g ++ [v]) (edges g).

Definition BasicEdge (s t : V) : V * V := (s, t).

Definition Connect (e : V * V) (g : AcyclicGraph) : AcyclicGraph :=
if decide (e ∈ edges g) then g
else mkGraph (vertices g) (edges g ++ [e]).

Definition succs (g : AcyclicGraph) (v : V) : list V :=
map snd (filter (λ e, e.1 = v) (edges g)).

Definition add_new (seen : list V) (ws : list V) : list V :=
foldl (λ acc w, if decide (w ∈ acc) then acc else acc ++ [w]) seen ws.

(** Everything reachable from [seen] in at most [n] further steps. *)
Fixpoint closure (n : nat) (g : AcyclicGraph) (seen : list V) : list V :=
match n with
| 0 => seen
| S n' => closure n' g (add_new seen (concat (map (succs g) seen)))
end.

(** The vertices reachable from [v] by a path of at least one edge. *)
Definition reach (g : AcyclicGraph) (v : V) : list V :=
closure (length (vertices g)) g (add_new [] (succs g v)).

(** The strongly connected component of [v]. *)
Definition component (g : AcyclicGraph) (v : V) : list V :=
v :: filter (λ w, w ≠ v ∧ w ∈ reach g v ∧ v ∈ reach g w) (vertices g).

Fixpoint components (g : AcyclicGraph) (vs : list V) (covered : list V)
: list (list V) :=
match vs with
| [] => []
| v :: r =>
    if decide (v ∈ covered) then components g r covered
    else let c := component g v in c :: components g r (covered ++ c)
end.

Definition StronglyConnected (g : AcyclicGraph) : list (list V) :=
components g (vertices g) [].

(** [Cycles]: the strongly connected components of more than one vertex. *)
Definition Cycles (g : AcyclicGraph) : list (list V) :=
filter (λ c, 1 < length c) (StronglyConnected g).

(** [Root]: the single vertex without incoming edge. *)
Definition Root (g : AcyclicGraph) : result V :=
match filter (λ v, v ∉ map snd (edges g)) (vertices g) with
| [] => Fail "no roots found"
| [r] => Ok r
| _ => Fail "multiple roots"
end.
End graph.
Arguments AcyclicGraph V : clear implicits.
End dag.

(** ** Data model *)

(** A [*File] or [*Project]: an index into the corresponding heap. *)
Abbreviation ptr := nat.

Module Dependency.
Record t := mk { Source : string }.
End Dependency.

(** The [Import] struct ([Import] is a reserved word here). *)
Module Import_.
Record t := mk { Source : string }.
End Import_.

Module Application.
Record t := mk { Name : string; Dependencies : list Dependency.t }.
End Application.

Module Project.
Record t := mk { Name : string; Infrastructure : string }.
Definition set_Infrastructure (i : string) (p : t) : t := mk (Name p) i.
End Project.

(** The [File] struct is declared outside the files at hand; its fields
    are the ones the compiler reads and writes.  [Project] is a pointer
    (the compiler tests it against [nil] and allocates it with [new]). *)
Module File.
Record t := mk {
  Path : string;
  ID : string;
  Source : string;
  Application : Application.t;
  Imports : list Import_.t;
  Infrastructure : list string;
  Project : option ptr
}.
Definition set_Path (x : string) (f : t) : t :=
  mk x (ID f) (Source f) (Application f) (Imports f) (Infrastructure f) (Project f).
Definition set_ID (x : string) (f : t) : t :=
  mk (Path f) x (Source f) (Application f) (Imports f) (Infrastructure f) (Project f).
Definition set_Source (x : string) (f : t) : t :=
  mk (Path f) (ID f) x (Application f) (Imports f) (Infrastructure f) (Project f).
Definition set_Infrastructure (x : list string) (f : t) : t :=
  mk (Path f) (ID f) (Source f) (Application f) (Imports f) x (Project f).
Definition set_Project (x : option ptr) (f : t) : t :=
  mk (Path f) (ID f) (Source f) (Application f) (Imports f) (Infrastructure f) x.
End File.

Global Instance Dependency_eq_dec : EqDecision Dependency.t.
Proof. solve_decision. Defined.
Global Instance Import_eq_dec : EqDecision Import_.t.
Proof. solve_decision. Defined.
Global Instance Application_eq_dec : EqDecision Application.t.
Proof. solve_decision. Defined.
Global Instance Project_eq_dec : EqDecision Project.t.
Proof. solve_decision. Defined.
Global Instance File_eq_dec : EqDecision File.t.
Proof. solve_decision. Defined.

(** A file as a collaborator hands it over or receives it: the struct
    together with the [Project] it points to, by value. *)
Record FileData := mkFileData {
  fd_file : File.t;
  fd_project : option Project.t
}.

Module CompiledGraphVertex.
Record t := mk { File : ptr; Dir : string; NameValue : string }.
Definition Name (v : t) : string := NameValue v.
End CompiledGraphVertex.

Global Instance vertex_eq_dec : EqDecision CompiledGraphVertex.t.
Proof. solve_decision. Defined.

Module Compiled.
Record t := mk {
  File : ptr;
  Graph : dag.AcyclicGraph CompiledGraphVertex.t
}.
End Compiled.

Inductive CompileEvent :=
| CompileEventDep (Source : string)
| CompileEventImport (Source : string).

Inductive StatResult :=
| StatOk
| StatNotExist
| StatError (msg : string).

(** ** The calls the compiler makes, in the order it makes them *)

Inductive Event :=
| EvCallback (ev : CompileEvent)
| EvDepGet (key : string)
| EvImportGet (key : string)
| EvParseFile (path : string)
| EvLoader (dir : string)
| EvDepHasID (key : string) (has : bool)
| EvMerge (host : ptr) (source : string) (other : File.t)
| EvCreate (path : string)
| EvWrite (path : string) (data : string)
| EvRead (path : string)
| EvOpen (path : string)
| EvDecode (path : string)
| EvHasID (path : string)
| EvInitID (path : string)
| EvLoadID (path : string).

Global Instance CompileEvent_eq_dec : EqDecision CompileEvent.
Proof. solve_decision. Defined.

Global Instance Event_eq_dec : EqDecision Event.
Proof. solve_decision. Defined.

(** ** Fixed messages *)

Definition msg_version_too_new : string :=
  "The Appfile for this enviroment was compiled with a newer version" +:+ nl +:+
  "of Otto. Otto can't load this environment. You can recompile this" +:+ nl +:+
  "environment to this version of Otto with `otto compile`.".

Definition msg_no_otto_id (key : string) : string :=
  "Dependency '" +:+ key +:+ "' doesn't have an Otto ID yet!" +:+ nl +:+ nl +:+
  "An Otto ID is generated on the first compilation of the Appfile." +:+ nl +:+
  "It is a globally unique ID that is used to track the application" +:+ nl +:+
  "across multiple deploys. It is required for the application to be" +:+ nl +:+
  "used as a dependency. To fix this, check out that application and" +:+ nl +:+
  "compile the Appfile with `otto compile` once. Make sure you commit" +:+ nl +:+
  "the .ottoid file into version control, and then try this command" +:+ nl +:+
  "again.".

(** A started goroutine [go downloadSingle(source, &wg, &mergeLock, merge, idx)]:
    its source key and its index into the merge slice. *)
Abbreviation Task := (string * nat)%type.

Section Compiler.
(** [World] is everything outside the process (network, disk, terminal);
    [Decoded] is what the JSON decoder produces for a [Compiled]. *)
Context {World Decoded : Type}.

(** The [getter.Storage] interface.  [storage_Dir] drops the middle
    result of [Dir], which the compiler ignores. *)
Record Storage := mkStorage {
  storage_Get : string → string → bool → World → option string * World;
  storage_Dir : string → World → result string
}.

Record CompileOpts := mkCompileOpts {
  Dir : string;
  Loader : option (option FileData → string → World →
                   result (option FileData) * World);
  Callback : option (CompileEvent → World → World)
}.

(** The [Compiler] struct; its [importCache] map is mutable and lives
    in the state, its mutex has no counterpart here. *)
Record Compiler := mkCompiler {
  opts : CompileOpts;
  depStorage : Storage;
  importStorage : Storage
}.

(** The collaborators that are not fields of the compiler: go-getter's
    [Detect], the Appfile parser and the methods of [File] declared
    elsewhere in the package, and the pieces of the standard library that
    touch the disk.  A failing call returns the text of its error.

    [File_Merge] is [f.Merge(other)].  It works on pointers: given the
    struct of the host, the struct of the other file and the heap of
    [Project] structs, it hands back its error, the struct of the host
    and the heap of [Project] structs as it leaves them.  So it may
    write to the [Project] of either file and may let the host point to
    the [Project] of the other.  What it does to the struct of the other
    file is not kept: that struct is the copy made for this one call
    (line 613), and nothing reads it afterwards. *)
Record Externals := mkExternals {
  getter_Detect : string → string → result string;
  filepath_Dir : string → string;
  ParseFile : string → World → result FileData;
  os_Stat : string → World → StatResult;
  File_hasID : File.t → World → result bool;
  File_initID : File.t → World → option string * World;
  File_loadID : File.t → World → result string;
  File_Merge : File.t → File.t → list Project.t →
               option string * File.t * list Project.t;
  File_Validate : FileData → option string;
  oneline_Read : string → World → result string;
  strconv_ParseInt : string → Z → Z → result Z;
  os_Open : string → World → option string;
  json_Decode : string → World → result Decoded;
  os_Create : string → World → option string * World;
  file_Write : string → string → World → option string * World;
  json_MarshalIndent : Compiled.t → list File.t → list Project.t → result string
}.

Context (E : Externals).

(** ** Machine state *)

Record State := mkState {
  files : list File.t;            (* heap of File structs *)
  projects : list Project.t;      (* heap of Project structs *)
  world : World;
  trace : list Event;
  sched : list nat;               (* choices of the goroutine scheduler *)
  importCache : gmap string ptr;  (* Compiler.importCache *)
  graph : dag.AcyclicGraph string;(* compileImports: graph *)
  resultErr : option error        (* compileImports: resultErr *)
}.

Definition set_files x st :=
  mkState x (projects st) (world st) (trace st) (sched st) (importCache st) (graph st) (resultErr st).
Definition set_projects x st :=
  mkState (files st) x (world st) (trace st) (sched st) (importCache st) (graph st) (resultErr st).
Definition set_world x st :=
  mkState (files st) (projects st) x (trace st) (sched st) (importCache st) (graph st) (resultErr st).
Definition set_trace x st :=
  mkState (files st) (projects st) (world st) x (sched st) (importCache st) (graph st) (resultErr st).
Definition set_sched x st :=
  mkState (files st) (projects st) (world st) (trace st) x (importCache st) (graph st) (resultErr st).
Definition set_importCache x st :=
  mkState (files st) (projects st) (world st) (trace st) (sched st) x (graph st) (resultErr st).
Definition set_graph x st :=
  mkState (files st) (projects st) (world st) (trace st) (sched st) (importCache st) x (resultErr st).
Definition set_resultErr x st :=
  mkState (files st) (projects st) (world st) (trace st) (sched st) (importCache st) (graph st) x.

(** ** The monad *)

Inductive outcome (A : Type) :=
| Done (a : A) (st : State)   (* the call returned *)
| Panic (st : State)          (* run-time panic: nil pointer dereference *)
| Timeout.                    (* recursion budget exhausted *)
Arguments Done {A} a st.
Arguments Panic {A} st.
Arguments Timeout {A}.

Definition M (A : Type) : Type := State → outcome A.

Global Instance M_ret : MRet M := λ A a st, Done a st.
Global Instance M_bind : MBind M := λ A B k m st,
  match m st with
  | Done a st' => k a st'
  | Panic st' => Panic st'
  | Timeout => Timeout
  end.

Definition panic {A} : M A := λ st, Panic st.
Definition timeout {A} : M A := λ _, Timeout.

Definition emit (e : Event) : M unit :=
  λ st, Done tt (set_trace (trace st ++ [e]) st).

(** A collaborator that only looks at the world, and one that changes it. *)
Definition ask {A} (f : World → A) : M A := λ st, Done (f (world st)) st.
Definition call {A} (f : World → A * World) : M A :=
  λ st, let '(a, w) := f (world st) in Done a (set_world w st).

(** [*p] for a [*File]; a pointer outside the heap cannot be followed. *)
Definition get_file (p : ptr) : M File.t :=
  λ st, match files st !! p with Some f => Done f st | None => Panic st end.
Definition update_file (p : ptr) (g : File.t → File.t) : M unit :=
  λ st, match files st !! p with
        | Some f => Done tt (set_files (<[p := g f]> (files st)) st)
        | None => Panic st
        end.
Definition alloc_file (f : File.t) : M ptr :=
  λ st, Done (length (files st)) (set_files (files st ++ [f]) st).

Definition get_project (p : ptr) : M Project.t :=
  λ st, match projects st !! p with Some x => Done x st | None => Panic st end.
Definition update_project (p : ptr) (g : Project.t → Project.t) : M unit :=
  λ st, match projects st !! p with
        | Some x => Done tt (set_projects (<[p := g x]> (projects st)) st)
        | None => Panic st
        end.
Definition alloc_project (x : Project.t) : M ptr :=
  λ st, Done (length (projects st)) (set_projects (projects st ++ [x]) st).

(** Following a possibly nil [*File]. *)
Definition deref (f : option ptr) : M ptr :=
  match f with Some p => mret p | None => panic end.

(** A file handed over by value is laid out in the heap: its project
    first, then the struct pointing to it. *)
Definition alloc_data (d : FileData) : M ptr :=
  match fd_project d with
  | Some x =>
      p ← alloc_project x;
      alloc_file (File.set_Project (Some p) (fd_file d))
  | None => alloc_file (File.set_Project None (fd_file d))
  end.

(** The reverse: the struct behind a pointer with the project it points to. *)
Definition read_data (p : ptr) : M FileData :=
  f ← get_file p;
  match File.Project f with
  | Some q => x ← get_project q; mret (mkFileData f (Some x))
  | None => mret (mkFileData f None)
  end.

(** ** LoadCompiled *)

Definition LoadCompiled (dir : string) : M (goresult Decoded) :=
  (* Check the version *)
  emit (EvRead (filepath_Join dir CompileVersionFilename));;
  vsnStr ← ask (oneline_Read E (filepath_Join dir CompileVersionFilename));
  match vsnStr with
  | Fail err => mret (ReturnErr (External err))
  | Ok vsnStr =>
  match strconv_ParseInt E vsnStr 0 0 with
  | Fail err => mret (ReturnErr (External err))
  | Ok vsn =>
  (* If the version is too new, then we can't handle it *)
  if decide (vsn > CompileVersion)%Z then
    mret (ReturnErr (Errorf msg_version_too_new))
  else
    emit (EvOpen (filepath_Join dir CompileFilename));;
    f ← ask (os_Open E (filepath_Join dir CompileFilename));
    match f with
    | Some err => mret (ReturnErr (External err))
    | None =>
        emit (EvDecode (filepath_Join dir CompileFilename));;
        c ← ask (json_Decode E (filepath_Join dir CompileFilename));
        match c with
        | Fail err => mret (ReturnErr (External err))
        | Ok c => mret (Return c)
        end
    end
  end
  end.

(** ** compileImports *)

Context (c : Compiler).

(** [if c.opts.Callback != nil { c.opts.Callback(ev) }] *)
Definition callback (ev : CompileEvent) : M unit :=
  match Callback (opts c) with
  | Some cb => emit (EvCallback ev);; call (λ w, (tt, cb ev w))
  | None => mret tt
  end.

(** [resultErr = multierror.Append(resultErr, e)] *)
Definition append_err (e : error) : M unit :=
  λ st, Done tt (set_resultErr (Some (multierror_Append (resultErr st) e)) st).

Definition cache_get (source : string) : M (option ptr) :=
  λ st, Done (importCache st !! source) st.
Definition cache_put (source : string) (f : ptr) : M unit :=
  λ st, Done tt (set_importCache (<[source := f]> (importCache st)) st).

(** [graph.Add(source); graph.Connect(dag.BasicEdge(parent, source));
    cycles := graph.Cycles()], done under [graphLock]. *)
Definition graph_add_check (parent source : string) : M (list (list string)) :=
  λ st,
    let g := dag.Connect (dag.BasicEdge parent source) (dag.Add source (graph st)) in
    Done (dag.Cycles g) (set_graph g st).


(** The scheduler picks which of [n] runnable goroutines goes next. *)
Definition pick (n : nat) : M nat :=
  λ st, match sched st with
        | [] => Done 0 st
        | x :: r => Done (x mod n) (set_sched r st)
        end.

(** The goroutines started for one file run one after the other, each to
    its end, in the order the scheduler picks; [merge] is the slice they
    share.  This is the point where [wg.Wait()] returns. *)
Fixpoint run_goroutines (body : Task → list (option ptr) → M (list (option ptr)))
    (n : nat) (pending : list Task) (merge : list (option ptr))
  : M (list (option ptr)) :=
  match n with
  | 0 => mret merge
  | S n' =>
      i ← pick (length pending);
      match pending !! i with
      | None => mret merge
      | Some t =>
          merge' ← body t merge;
          run_goroutines body n' (delete i pending) merge'
      end
  end.

(** importSingle, first loop: go through the imports and kick off the
    downloads.  Returns [false] where the source returns [false], with
    the goroutines started so far. *)
Fixpoint start_downloads (parent pwd : string) (idx : nat)
    (imports : list Import_.t) : M (bool * list Task) :=
  match imports with
  | [] => mret (true, [])
  | i :: rest =>
      match getter_Detect E (Import_.Source i) pwd with
      | Fail err =>
          append_err (Errorf ("Error loading import source: " +:+ err));;
          mret (false, [])
      | Ok source =>
          (* Add this to the graph and check now if there are cycles *)
          cycles ← graph_add_check parent source;
          match cycles with
          | cycle :: _ =>
              (* the loop over [cycles] returns in its first round *)
              append_err (Errorf ("Cycle found: " +:+ strings_Join cycle ", "));;
              mret (false, [])
          | [] =>
              '(ok, tasks) ← start_downloads parent pwd (S idx) rest;
              mret (ok, (source, idx) :: tasks)
          end
      end
  end.

(** importSingle, second loop: look for nil entries. *)
Fixpoint any_nil (merge : list (option ptr)) : bool :=
  match merge with
  | [] => false
  | None :: _ => true
  | Some _ :: rest => any_nil rest
  end.

(** [f.Merge(importF)]: the call, with what it writes through its two
    pointers. *)
Definition merge_call (f : ptr) (host other : File.t) : M (option string) :=
  λ st, let '(err, merged, ps) := File_Merge E host other (projects st) in
        Done err (set_projects ps (set_files (<[f := merged]> (files st)) st)).

(** importSingle, third loop: copy each imported file and merge it. *)
Fixpoint merge_imports (f : ptr) (merge : list (option ptr)) : M bool :=
  match merge with
  | [] => mret true
  | importF :: rest =>
      (* importFCopy := *importF; importF = &importFCopy *)
      importF ← deref importF;
      v ← get_file importF;
      importF ← alloc_file v;
      let source := File.ID v in
      update_file importF (File.set_ID "");;
      update_file importF (File.set_Path "");;
      (* Merge it into our file! *)
      host ← get_file f;
      other ← get_file importF;
      emit (EvMerge f source other);;
      err ← merge_call f host other;
      match err with
      | Some err =>
          append_err (Errorf ("Error merging import " +:+ source +:+ ": " +:+ err));;
          mret false
      | None => merge_imports f rest
      end
  end.

(** importSingle after [wg.Wait()]. *)
Definition after_wait (f : ptr) (merge : list (option ptr)) : M bool :=
  if any_nil merge then mret false else merge_imports f merge.

(** importSingle up to and including [wg.Wait()].  When the first loop
    ends in [return false] (lines 565-571 and 586-591), the source does
    not reach [wg.Wait()]: the goroutines started so far go on while the
    caller returns.  Here they run to their end before the caller goes
    on: for a run that reported an error the model gives the state in
    which these goroutines have come to rest, not the state at the
    moment of the return.  A run without error has passed [wg.Wait()]
    at every level, and there the two agree. *)
Definition start_and_wait
    (downloadSingle : Task → list (option ptr) → M (list (option ptr)))
    (parent : string) (f : ptr) : M (bool * list (option ptr)) :=
  fv ← get_file f;
  let merge := replicate (length (File.Imports fv)) None in
  '(ok, tasks) ← start_downloads parent (filepath_Dir E (File.Path fv)) 0
                   (File.Imports fv);
  merge ← run_goroutines downloadSingle (length tasks) tasks merge;
  mret (ok, merge).

Definition importSingle_body
    (downloadSingle : Task → list (option ptr) → M (list (option ptr)))
    (parent : string) (f : ptr) : M bool :=
  '(ok, merge) ← start_and_wait downloadSingle parent f;
  if ok : bool then after_wait f merge else mret false.

(** downloadSingle downloads a single import and parses its Appfile;
    [importSingle] is the function it recurses into. *)
Definition downloadSingle (importSingle : string → ptr → M bool)
    (t : Task) (result : list (option ptr)) : M (list (option ptr)) :=
  let '(source, idx) := t in
  (* Read from the cache if we have it *)
  cached ← cache_get source;
  match cached with
  | Some cached => mret (<[idx := Some cached]> result)
  | None =>
  (* Call the callback if we have one *)
  callback (CompileEventImport source);;
  (* Download the dependency *)
  emit (EvImportGet source);;
  r ← call (storage_Get (importStorage c) source source true);
  match r with
  | Some err =>
      append_err (Errorf ("Error loading import source: " +:+ err));;
      mret result
  | None =>
  d ← ask (storage_Dir (importStorage c) source);
  match d with
  | Fail err =>
      append_err (Errorf ("Error loading import source: " +:+ err));;
      mret result
  | Ok dir =>
  (* Parse the Appfile *)
  emit (EvParseFile (filepath_Join dir "Appfile"));;
  parsed ← ask (ParseFile E (filepath_Join dir "Appfile"));
  match parsed with
  | Fail err =>
      append_err (Errorf ("Error parsing Appfile in " +:+ source +:+ ": " +:+ err));;
      mret result
  | Ok parsed =>
  importF ← alloc_data parsed;
  (* We use the ID to store the source, but we clear it when we
     actually merge. *)
  update_file importF (File.set_ID source);;
  (* Import the imports in this *)
  ok ← importSingle source importF;
  if ok : bool then
    (* Once we're done, write it, and write it into the cache. *)
    cache_put source importF;;
    mret (<[idx := Some importF]> result)
  else mret result
  end end end end.

(** The two closures are mutually recursive; [fuel] bounds the depth of
    the import tree that is followed. *)
Fixpoint importSingle (fuel : nat) (parent : string) (f : ptr) : M bool :=
  match fuel with
  | 0 => timeout
  | S n => importSingle_body (downloadSingle (importSingle n)) parent f
  end.

(** [graph := new(dag.AcyclicGraph); graph.Add("root"); var resultErr error] *)
Definition init_locals : M unit :=
  λ st, Done tt (set_resultErr None (set_graph (dag.Add "root" dag.empty) st)).

Definition get_resultErr : M (option error) := λ st, Done (resultErr st) st.

Definition compileImports (fuel : nat) (root : ptr) : M (option error) :=
  rootv ← get_file root;
  (* If we have no imports, short-circuit the whole thing *)
  if decide (length (File.Imports rootv) = 0) then mret None
  else
    init_locals;;
    importSingle fuel "root" root;;
    get_resultErr.

(** ** compileDependencies *)

(** The locals of the work loop: [vertexMap], [queue], and the graph
    the caller passed in, which the loop extends in place. *)
Record DepState := mkDepState {
  vertexMap : gmap string CompiledGraphVertex.t;
  queue : list CompiledGraphVertex.t;
  depGraph : dag.AcyclicGraph CompiledGraphVertex.t
}.

(** Lines 430-449: parse the Appfile if it exists.  The result is the
    [f *File] of the source, nil when there is no Appfile. *)
Definition parse_if_exists (fuel : nat) (key dir : string)
  : M (goresult (option ptr)) :=
  let appfilePath := filepath_Join dir "Appfile" in
  s ← ask (os_Stat E appfilePath);
  match s with
  | StatError err =>
      mret (ReturnErr (Errorf ("Error parsing Appfile in " +:+ key +:+ ": " +:+ err)))
  | StatNotExist => mret (Return None)
  | StatOk =>
      emit (EvParseFile appfilePath);;
      parsed ← ask (ParseFile E appfilePath);
      match parsed with
      | Fail err =>
          mret (ReturnErr (Errorf ("Error parsing Appfile in " +:+ key +:+ ": " +:+ err)))
      | Ok parsed =>
          f ← alloc_data parsed;
          (* Realize all the imports for this file *)
          err ← compileImports fuel f;
          match err with
          | Some err => mret (ReturnErr err)
          | None => mret (Return (Some f))
          end
      end
  end.

(** Lines 451-458: do any additional loading if we have a loader.  The
    loader sees the parsed file by value and hands back a file of its
    own, or nil. *)
Definition run_loader (key dir : string) (f : option ptr)
  : M (goresult (option ptr)) :=
  match Loader (opts c) with
  | None => mret (Return f)
  | Some loader =>
      emit (EvLoader dir);;
      arg ← match f with
            | Some p => d ← read_data p; mret (Some d)
            | None => mret None
            end;
      r ← call (loader arg dir);
      match r with
      | Fail err =>
          mret (ReturnErr (Errorf ("Error loading Appfile in " +:+ key +:+ ": " +:+ err)))
      | Ok None => mret (Return None)
      | Ok (Some d) => f ← alloc_data d; mret (Return (Some f))
      end
  end.

(** Lines 483-491: merge the root infrastructure choice to the dependency. *)
Definition propagate_root (root : CompiledGraphVertex.t) (f : ptr) : M unit :=
  rootv ← get_file (CompiledGraphVertex.File root);
  update_file f (File.set_Infrastructure (File.Infrastructure rootv));;
  rootv ← get_file (CompiledGraphVertex.File root);
  match File.Project rootv with
  | None => mret tt
  | Some rootProject =>
      fv ← get_file f;
      p ← match File.Project fv with
          | Some p => mret p
          | None =>
              (* f.Project = new(Project) *)
              p ← alloc_project (Project.mk "" "");
              update_file f (File.set_Project (Some p));;
              mret p
          end;
      rp ← get_project rootProject;
      update_project p (Project.set_Infrastructure (Project.Infrastructure rp))
  end.

(** Lines 412-498: the body of [if vertex == nil], up to the new vertex. *)
Definition load_dependency (fuel : nat) (root : CompiledGraphVertex.t)
    (key : string) : M (goresult CompiledGraphVertex.t) :=
  (* Call the callback if we have one *)
  callback (CompileEventDep key);;
  (* Download the dependency *)
  emit (EvDepGet key);;
  r ← call (storage_Get (depStorage c) key key true);
  match r with
  | Some err => mret (ReturnErr (External err))
  | None =>
  d ← ask (storage_Dir (depStorage c) key);
  match d with
  | Fail err => mret (ReturnErr (External err))
  | Ok dir =>
  (* Parse the Appfile if it exists *)
  f ← parse_if_exists fuel key dir;
  match f with
  | ReturnErr err => mret (ReturnErr err)
  | Return f =>
  (* Do any additional loading if we have a loader *)
  f ← run_loader key dir f;
  match f with
  | ReturnErr err => mret (ReturnErr err)
  | Return f =>
  (* Set the source: f.Source = key *)
  f ← deref f;
  update_file f (File.set_Source key);;
  (* If it doesn't have an otto ID then we can't do anything *)
  fv ← get_file f;
  hasID ← ask (File_hasID E fv);
  match hasID with
  | Fail err =>
      mret (ReturnErr (Errorf ("Error checking for ID file for Appfile in "
                                 +:+ key +:+ ": " +:+ err)))
  | Ok hasID =>
  emit (EvDepHasID key hasID);;
  if negb hasID then mret (ReturnErr (Errorf (msg_no_otto_id key)))
  else
    (* We merge the root infrastructure choice upwards to all dependencies. *)
    propagate_root root f;;
    (* Build the vertex for this *)
    fv ← get_file f;
    mret (Return (CompiledGraphVertex.mk f dir
                    (Application.Name (File.Application fv))))
  end end end end end.

(** The [for _, dep := range current.File.Application.Dependencies] loop. *)
Fixpoint each_dependency (fuel : nat) (root current : CompiledGraphVertex.t)
    (deps : list Dependency.t) (s : DepState) : M (option error * DepState) :=
  match deps with
  | [] => mret (None, s)
  | dep :: rest =>
      cur ← get_file (CompiledGraphVertex.File current);
      match getter_Detect E (Dependency.Source dep) (filepath_Dir E (File.Path cur)) with
      | Fail err => mret (Some (Errorf ("Error loading source: " +:+ err)), s)
      | Ok key =>
          r ← match vertexMap s !! key with
              | Some vertex => mret (Return (vertex, s))
              | None =>
                  v ← load_dependency fuel root key;
                  match v with
                  | ReturnErr err => mret (ReturnErr err)
                  | Return vertex =>
                      (* Add the vertex since it is new, store the mapping,
                         and queue it to be loaded later. *)
                      mret (Return (vertex,
                        mkDepState (<[key := vertex]> (vertexMap s))
                                   (queue s ++ [vertex])
                                   (dag.Add vertex (depGraph s))))
                  end
              end;
          match r with
          | ReturnErr err => mret (Some err, s)
          | Return (vertex, s) =>
              (* Connect the dependencies *)
              each_dependency fuel root current rest
                (mkDepState (vertexMap s) (queue s)
                   (dag.Connect (dag.BasicEdge current vertex) (depGraph s)))
          end
      end
  end.

(** The [for len(queue) > 0] loop; [n] bounds the number of vertices
    taken from the queue, [fuel] the depth of their import trees. *)
Fixpoint work_loop (fuel n : nat) (root : CompiledGraphVertex.t) (s : DepState)
  : M (option error * dag.AcyclicGraph CompiledGraphVertex.t) :=
  match last (queue s) with
  | None => mret (None, depGraph s)
  | Some current =>
      match n with
      | 0 => timeout
      | S n' =>
          (* current, queue = queue[len(queue)-1], queue[:len(queue)-1] *)
          let s := mkDepState (vertexMap s)
                     (take (length (queue s) - 1) (queue s)) (depGraph s) in
          cur ← get_file (CompiledGraphVertex.File current);
          '(err, s) ← each_dependency fuel root current
                        (Application.Dependencies (File.Application cur)) s;
          match err with
          | Some err => mret (Some err, depGraph s)
          | None => work_loop fuel n' root s
          end
      end
  end.

(** Returns the error of the source together with the graph as the
    call left it. *)
Definition compileDependencies (fuel : nat) (root : CompiledGraphVertex.t)
    (graph : dag.AcyclicGraph CompiledGraphVertex.t)
  : M (option error * dag.AcyclicGraph CompiledGraphVertex.t) :=
  (* Store ourselves in the map *)
  rootv ← get_file (CompiledGraphVertex.File root);
  match getter_Detect E "." (filepath_Dir E (File.Path rootv)) with
  | Fail err => mret (Some (External err), graph)
  | Ok key =>
      work_loop fuel fuel root (mkDepState {[key := root]} [root] graph)
  end.

(** ** MinCompile, Validate, and the two writers *)

Definition MinCompile (fuel : nat) (f : ptr) : M (goresult Compiled.t) :=
  (* Load the imports for this single Appfile *)
  err ← compileImports fuel f;
  match err with
  | Some err => mret (ReturnErr err)
  | None =>
      (* Add our root vertex for this Appfile *)
      fv ← get_file f;
      let vertex := CompiledGraphVertex.mk f ""
                      (Application.Name (File.Application fv)) in
      mret (Return (Compiled.mk f (dag.Add vertex dag.empty)))
  end.

(** The walk of [Validate]: every vertex is visited; the order is the
    scheduler's, here the order of insertion. *)
Fixpoint validate_files (vs : list CompiledGraphVertex.t) (result : option error)
  : M (option error) :=
  match vs with
  | [] => mret result
  | v :: rest =>
      d ← read_data (CompiledGraphVertex.File v);
      match File_Validate E d with
      | None => validate_files rest result
      | Some err =>
          let s := File.Source (fd_file d) in
          let err := if decide (s ≠ "")
                     then multierror_Prefix (External err) ("Dependency " +:+ s +:+ ":")
                     else External err in
          validate_files rest (Some (multierror_Append result err))
      end
  end.

Definition Validate (compiled : Compiled.t) : M (option error) :=
  (* First validate that there are no cycles in the dependency graph *)
  let result :=
    foldl (λ result cycle,
             Some (multierror_Append result
                     (Errorf ("Dependency cycle: " +:+
                        strings_Join (map CompiledGraphVertex.Name cycle) ", "))))
          None (dag.Cycles (Compiled.Graph compiled)) in
  (* Validate all the files *)
  validate_files (dag.vertices (Compiled.Graph compiled)) result.

Definition compileVersion (dir : string) : M (option string) :=
  let path := filepath_Join dir CompileVersionFilename in
  emit (EvCreate path);;
  r ← call (os_Create E path);
  match r with
  | Some err => mret (Some err)
  | None =>
      emit (EvWrite path (pretty CompileVersion));;
      call (file_Write E path (pretty CompileVersion))
  end.

Definition compileWrite (dir : string) (compiled : Compiled.t) : M (option string) :=
  (* Pretty-print the JSON data so that it can be more easily inspected *)
  data ← (λ st, Done (json_MarshalIndent E compiled (files st) (projects st)) st);
  match data with
  | Fail err => mret (Some err)
  | Ok data =>
      (* Write it out *)
      let path := filepath_Join dir CompileFilename in
      emit (EvCreate path);;
      r ← call (os_Create E path);
      match r with
      | Some err => mret (Some err)
      | None =>
          emit (EvWrite path data);;
          call (file_Write E path data)
      end
  end.

(** ** Compile *)

(** Lines 289-309: make sure the root has an ID file and load it. *)
Definition ensure_id (f : ptr) : M (option error) :=
  fv ← get_file f;
  if decide (File.Path fv = "") then mret None
  else
    emit (EvHasID (File.Path fv));;
    hasID ← ask (File_hasID E fv);
    match hasID with
    | Fail err => mret (Some (Errorf ("Error checking for Appfile UUID: " +:+ err)))
    | Ok hasID =>
        r ← (if hasID : bool then mret None
             else emit (EvInitID (File.Path fv));; call (File_initID E fv));
        match r with
        | Some err =>
            mret (Some (Errorf ("Error writing UUID for this Appfile: " +:+ err)))
        | None =>
            emit (EvLoadID (File.Path fv));;
            id ← ask (File_loadID E fv);
            match id with
            | Fail err => mret (Some (Errorf ("Error loading Appfile UUID: " +:+ err)))
            | Ok id => update_file f (File.set_ID id);; mret None
            end
        end
    end.

(** Everything [Compile] does before it writes the compiled Appfile. *)
Definition resolve_and_validate (fuel : nat) (f : ptr) : M (goresult Compiled.t) :=
  (* Write the version of the compilation that we'll be completing. *)
  err ← compileVersion (Dir (opts c));
  match err with
  | Some err =>
      mret (ReturnErr (Errorf ("Error writing compiled Appfile version: " +:+ err)))
  | None =>
  (* Check if we have an ID for this or not. *)
  err ← ensure_id f;
  match err with
  | Some err => mret (ReturnErr err)
  | None =>
  (* Do a minimum compile to start *)
  compiled ← MinCompile fuel f;
  match compiled with
  | ReturnErr err => mret (ReturnErr err)
  | Return compiled =>
  (* Validate the root early *)
  d ← read_data (Compiled.File compiled);
  match File_Validate E d with
  | Some err => mret (ReturnErr (External err))
  | None =>
  (* Get our root vertex *)
  match dag.Root (Compiled.Graph compiled) with
  | Fail err => mret (ReturnErr (External err))
  | Ok vertex =>
  (* Download all our dependencies *)
  '(err, graph) ← compileDependencies fuel vertex (Compiled.Graph compiled);
  let compiled := Compiled.mk (Compiled.File compiled) graph in
  match err with
  | Some err => mret (ReturnErr err)
  | None =>
  (* Validate the compiled file tree. *)
  err ← Validate compiled;
  match err with
  | Some err => mret (ReturnErr err)
  | None => mret (Return compiled)
  end end end end end end end.

Definition Compile (fuel : nat) (f : ptr) : M (goresult Compiled.t) :=
  compiled ← resolve_and_validate fuel f;
  match compiled with
  | ReturnErr err => mret (ReturnErr err)
  | Return compiled =>
      (* Write the compiled Appfile data *)
      err ← compileWrite (Dir (opts c)) compiled;
      match err with
      | Some err => mret (ReturnErr (External err))
      | None => mret (Return compiled)
      end
  end.

End Compiler.

Arguments Done {World A} a st.
Arguments Panic {World A} st.
Arguments Timeout {World A}.

(** ** A small executable world

    Remote Appfiles are a table from path to parsed file; the disk is a
    list of written files, newest first.  Source keys are taken as they
    are, and the storage keeps key [k] under [/deps/k].  Which Appfiles
    have an ID file is a list of paths; a new ID file is written next to
    its Appfile. *)

Module TestWorld.

Definition Disk := list (string * string).

Fixpoint lookup {A} (k : string) (l : list (string * A)) : option A :=
  match l with
  | [] => None
  | (k', v) :: r => if decide (k = k') then Some v else lookup k r
  end.

Definition digit (a : Ascii.ascii) : option Z :=
  let n := Ascii.nat_of_ascii a in
  if decide (48 ≤ n ∧ n ≤ 57) then Some (Z.of_nat (n - 48)) else None.

Fixpoint digits (s : string) (acc : Z) : option Z :=
  match s with
  | EmptyString => Some acc
  | String a r =>
      match digit a with
      | Some d => digits r (10 * acc + d)%Z
      | None => None
      end
  end.

(** Decimal numerals only. *)
Definition ParseInt (s : string) (base bitSize : Z) : result Z :=
  match s with
  | EmptyString => Fail "invalid syntax"
  | _ => match digits s 0 with Some z => Ok z | None => Fail "invalid syntax" end
  end.

Definition storage : @Storage Disk :=
  {| storage_Get := λ key _ _ w, (None, (("/deps/" +:+ key), "") :: w);
     storage_Dir := λ key _, Ok ("/deps/" +:+ key) |}.

(** A merge in the manner of a struct-wise overlay: identity fields are
    taken over when the other file has them, the infrastructure lists are
    concatenated, and a file without project takes over the pointer of
    the other.  It never fails and writes to no [Project] struct. *)
Definition Merge (f other : File.t) (ps : list Project.t)
  : option string * File.t * list Project.t :=
  (None,
   File.mk
     (if decide (File.Path other = "") then File.Path f else File.Path other)
     (if decide (File.ID other = "") then File.ID f else File.ID other)
     (File.Source f)
     (File.Application f)
     (File.Imports f)
     (File.Infrastructure f ++ File.Infrastructure other)
     (match File.Project f with
      | Some p => Some p
      | None => File.Project other
      end),
   ps).

Definition externals (repo : list (string * FileData)) (with_id : list string)
  : @Externals Disk string :=
  {| getter_Detect := λ src _, Ok src;
     filepath_Dir := λ p, p;
     ParseFile := λ path _,
       match lookup path repo with
       | Some d => Ok (mkFileData (File.set_Path path (fd_file d)) (fd_project d))
       | None => Fail "cannot parse"
       end;
     os_Stat := λ path _,
       match lookup path repo with Some _ => StatOk | None => StatNotExist end;
     File_hasID := λ f _, Ok (bool_decide (File.Path f ∈ with_id));
     File_initID := λ f w,
       (None, (File.Path f +:+ ".ottoid", "id-of-" +:+ File.Path f) :: w);
     File_loadID := λ f _, Ok ("id-of-" +:+ File.Path f);
     File_Merge := Merge;
     File_Validate := λ _, None;
     oneline_Read := λ path w,
       match lookup path w with Some s => Ok s | None => Fail "no such file" end;
     strconv_ParseInt := ParseInt;
     os_Open := λ path w,
       match lookup path w with Some _ => None | None => Some "no such file" end;
     json_Decode := λ path w,
       match lookup path w with Some s => Ok s | None => Fail "no such file" end;
     os_Create := λ path w, (None, (path, "") :: w);
     file_Write := λ path data w, (None, (path, data) :: w);
     json_MarshalIndent := λ _ _ _, Ok "{}" |}.

Definition compiler (dir : string) : @Compiler Disk :=
  {| opts := {| Dir := dir; Loader := None; Callback := None |};
     depStorage := storage;
     importStorage := storage |}.

Definition init (fs : list File.t) (ps : list Project.t) (order : list nat)
  : @State Disk :=
  mkState fs ps [] [] order ∅ dag.empty None.

(** An Appfile named [name] at [/deps/<name>/Appfile] with the given imports. *)
Definition appfile (name : string) (imports deps : list string)
  : string * FileData :=
  ("/deps/" +:+ name +:+ "/Appfile",
   mkFileData
     (File.mk "" "" "" (Application.mk name (map Dependency.mk deps))
        (map Import_.mk imports) [] None)
     None).

End TestWorld.


(** ** Concrete runs *)

Module Scenario.
Import TestWorld.

(** The state a run ended in, and what it returned. *)
Definition final {A} (o : @outcome Disk A) (default : @State Disk) : @State Disk :=
  match o with Done _ st => st | _ => default end.
Definition returned {A} (o : @outcome Disk A) : option A :=
  match o with Done a _ => Some a | _ => None end.

Definition no_state : @State Disk := init [] [] [].

Definition file (path name : string) (imports deps : list string)
    (project : option ptr) : File.t :=
  File.mk path "" "" (Application.mk name (map Dependency.mk deps))
    (map Import_.mk imports) [] project.

(** *** Two import cycles: A and B import each other, so do C and D;
    the root imports A, C and D. *)
Definition cycles_repo : list (string * FileData) :=
  [appfile "A" ["B"] []; appfile "B" ["A"] [];
   appfile "C" ["D"] []; appfile "D" ["C"] []].
Definition cycles_root : File.t := file "/app/Appfile" "root" ["A"; "C"; "D"] [] None.
Definition cycles_run : @outcome Disk (option error) :=
  compileImports (externals cycles_repo []) (compiler "/out") 10 0
    (init [cycles_root] [] []).

(** *** A diamond whose tip cannot be parsed: X and Y both import Z,
    and there is no Appfile for Z. *)
Definition diamond_repo : list (string * FileData) :=
  [appfile "X" ["Z"] []; appfile "Y" ["Z"] []].
Definition diamond_root : File.t := file "/app/Appfile" "root" ["X"; "Y"] [] None.
Definition diamond_run : @outcome Disk (option error) :=
  compileImports (externals diamond_repo []) (compiler "/out") 10 0
    (init [diamond_root] [] []).

(** Its imports up to the point where all downloads have ended. *)
Definition diamond_wait : @outcome Disk (bool * list (option ptr)) :=
  let E := externals diamond_repo [] in
  let c := compiler "/out" in
  start_and_wait E (downloadSingle E c (importSingle E c 9)) "root" 0
    (set_resultErr None (set_graph (dag.Add "root" dag.empty)
       (init [diamond_root] [] []))).

(** The same diamond with an Appfile for Z, under two schedules. *)
Definition diamond_ok_repo : list (string * FileData) :=
  diamond_repo ++ [appfile "Z" [] []].
Definition diamond_ok_run (order : list nat) : @outcome Disk bool :=
  importSingle (externals diamond_ok_repo []) (compiler "/out") 10 "root" 0
    (set_sched order (init [diamond_root] [] [])).

(** *** A shared project: X has a project on "aws".  A first file
    imports X; later a root with a project on "gcp" is compiled whose
    dependency D imports X and has no project of its own. *)
Definition shared_repo : list (string * FileData) :=
  [("/deps/X/Appfile",
    mkFileData (file "" "X" [] [] None) (Some (Project.mk "px" "aws")));
   appfile "D" ["X"] []].
Definition shared_E := externals shared_repo ["/deps/D/Appfile"].
Definition shared_first : File.t := file "" "first" ["X"] [] None.
Definition shared_root : File.t := file "/app/Appfile" "root" [] ["D"] (Some 0).
Definition shared_init : @State Disk :=
  init [shared_first; shared_root] [Project.mk "proot" "gcp"] [].
Definition shared_run1 : @outcome Disk (goresult Compiled.t) :=
  MinCompile shared_E (compiler "/out") 10 0 shared_init.
Definition shared_st1 : @State Disk := final shared_run1 no_state.
Definition shared_run2 : @outcome Disk (goresult Compiled.t) :=
  Compile shared_E (compiler "/out") 10 1 shared_st1.
Definition shared_st2 : @State Disk := final shared_run2 no_state.
(** The imports of the first file once more, now with X in the cache. *)
Definition shared_again : @outcome Disk (option error) :=
  compileImports shared_E (compiler "/out") 10 0 shared_st1.

(** *** A dependency without .ottoid: the root depends on D, and D has
    an Appfile but no ID file. *)
Definition noid_repo : list (string * FileData) := [appfile "D" [] []].
Definition noid_root : File.t := file "/app/Appfile" "root" [] ["D"] None.
Definition noid_init : @State Disk := init [noid_root] [] [].


(** *** The dependency compilation of the shared-project root *)
Definition deps_root : CompiledGraphVertex.t := CompiledGraphVertex.mk 1 "" "root".
Definition deps_graph : dag.AcyclicGraph CompiledGraphVertex.t :=
  dag.Add deps_root dag.empty.
Definition deps_run
  : @outcome Disk (option error * dag.AcyclicGraph CompiledGraphVertex.t) :=
  compileDependencies shared_E (compiler "/out") 10 deps_root deps_graph shared_init.

End Scenario.

(** ** NewCompiler *)

Section NewCompiler.
Context {World : Type}.

(** [os.MkdirAll], and the storage that [getter.FolderStorage] is for a
    given [StorageDir]. *)
Context (os_MkdirAll : string → World → option string * World).
Context (FolderStorage : string → @Storage World).

(** [c.importCache = make(map[string]*File)] *)
Definition new_importCache : @M World unit :=
  λ st, Done tt (set_importCache ∅ st).

(** The compiler is returned; its fresh [importCache] is the one of the
    state from here on. *)
Definition NewCompiler (opts : @CompileOpts World)
  : @M World (goresult (@Compiler World)) :=
  (* Create the directory if it doesn't already exist *)
  r ← call (os_MkdirAll (Dir opts));
  match r with
  | Some err => mret (ReturnErr (External err))
  | None =>
      new_importCache;;
      mret (Return
        {| opts := opts;
           importStorage :=
             FolderStorage (filepath_Join (Dir opts) CompileImportsFolder);
           depStorage :=
             FolderStorage (filepath_Join (Dir opts) CompileDepsFolder) |})
  end.
End NewCompiler.

(** * The Go application type (package goapp): customizations *)

Module goapp.

(** A value behind [interface{}]: what a field of the schema holds, and
    what an entry of the template context holds. *)
Inductive value :=
| VNil
| VString (s : string)
| VInt (n : Z)
| VBool (b : bool).

(** The type assertion [v.(string)]; [None] is the run-time panic. *)
Definition assert_string (v : value) : option string :=
  match v with VString s => Some s | _ => None end.

Section process.
(** [Ui] is the terminal behind [c.Opts.Ctx.Ui]. *)
Context {Ui : Type}.

(** What [process] touches of [c.Opts]: the template context of
    [Bindata], and the terminal of [Ctx]. *)
Record Opts := mkOpts {
  Context_ : gmap string value;
  ui : Ui
}.
Definition set_Context (x : gmap string value) (o : Opts) : Opts := mkOpts x (ui o).
Definition set_ui (x : Ui) (o : Opts) : Opts := mkOpts (Context_ o) x.

(** The collaborators: [Bindata.RenderString], which renders a
    template against the context, [Ui.Header], and
    [DetectImportPath], which may write to the terminal. *)
Context (RenderString : gmap string value → string → result string).
Context (Ui_Header : string → Ui → Ui).
Context (DetectImportPath : Ui → result string * Ui).

Inductive outcome :=
| Returns (err : option error) (o : Opts)
| Panics.

Definition process (d : string → value) (o : Opts) : outcome :=
  match assert_string (d "run_command") with
  | None => Panics
  | Some tpl =>
  match RenderString (Context_ o) tpl with
  | Fail err =>
      Returns (Some (Errorf ("Error processing 'run_command': " +:+ err))) o
  | Ok cmd =>
  let o := set_Context (<["dep_run_command" := VString cmd]> (Context_ o)) o in
  let o := set_Context (<["dev_go_version" := d "go_version"]> (Context_ o)) o in
  (* We attempt to detect the GOPATH automatically. *)
  match assert_string (d "go_import_path") with
  | None => Panics
  | Some gopathPath =>
  let '(detected, o) :=
    if decide (gopathPath = "") then
      let o := set_ui (Ui_Header "Detecting application import path for GOPATH..."
                         (ui o)) o in
      let '(r, u) := DetectImportPath (ui o) in
      (r, set_ui u o)
    else (Ok gopathPath, o) in
  match detected with
  | Fail err => Returns (Some (External err)) o
  | Ok gopathPath =>
  let folderPath :=
    if decide (gopathPath ≠ "") then "/opt/gopath/src/" +:+ gopathPath
    else "/vagrant" in
  let o := set_Context (<["import_path" := VString gopathPath]> (Context_ o)) o in
  let o := set_Context (<["shared_folder_path" := VString folderPath]> (Context_ o)) o in
  Returns None o
  end end end end.
End process.

End goapp.

(** ** Further concrete runs *)

Module MoreScenario.
Import TestWorld Scenario.

(** The imports of the diamond root, with an Appfile for Z. *)
Definition diamond_ok_imports : @outcome Disk (option error) :=
  compileImports (externals diamond_ok_repo []) (compiler "/out") 10 0
    (init [diamond_root] [] []).

(** The graph that dependency compilation of the shared-project root
    ends with, and what the first compile of that scenario returned. *)
Definition deps_graph' : dag.AcyclicGraph CompiledGraphVertex.t :=
  match returned deps_run with Some (_, g) => g | None => dag.empty end.
Definition first_compiled : Compiled.t :=
  match returned shared_run1 with
  | Some (Return compiled) => compiled
  | _ => Compiled.mk 0 dag.empty
  end.

(** The validation of the graph that holds the shared-project root alone. *)
Definition validate_run : @outcome Disk (option error) :=
  Validate shared_E (Compiled.mk 1 deps_graph) shared_init.

(** A disk on which nothing can be created. *)
Definition readonly_E : @Externals Disk string :=
  let E := externals noid_repo [] in
  {| getter_Detect := getter_Detect E;
     filepath_Dir := filepath_Dir E;
     ParseFile := ParseFile E;
     os_Stat := os_Stat E;
     File_hasID := File_hasID E;
     File_initID := File_initID E;
     File_loadID := File_loadID E;
     File_Merge := File_Merge E;
     File_Validate := File_Validate E;
     oneline_Read := oneline_Read E;
     strconv_ParseInt := strconv_ParseInt E;
     os_Open := os_Open E;
     json_Decode := json_Decode E;
     os_Create := λ _ w, (Some "read-only file system", w);
     file_Write := file_Write E;
     json_MarshalIndent := json_MarshalIndent E |}.

(** What the second compile of the shared-project scenario returned. *)
Definition shared_compiled : Compiled.t :=
  match returned shared_run2 with
  | Some (Return compiled) => compiled
  | _ => Compiled.mk 0 dag.empty
  end.


(** A compiler whose callback logs what it is told, and the compile of
    the shared-project root with it, from the empty cache. *)
Definition log (ev : CompileEvent) (w : Disk) : Disk :=
  match ev with
  | CompileEventDep k => ("/log/dep/" +:+ k, "") :: w
  | CompileEventImport k => ("/log/import/" +:+ k, "") :: w
  end.
Definition logging_compiler : @Compiler Disk :=
  {| opts := {| Dir := "/out"; Loader := None; Callback := Some log |};
     depStorage := storage;
     importStorage := storage |}.
Definition logged_run : @outcome Disk (goresult Compiled.t) :=
  Compile shared_E logging_compiler 10 1 shared_init.

(** An Appfile that imports nothing and depends on nothing, with a path
    and without ID file. *)
Definition leaf : File.t := file "/app/Appfile" "leaf" [] [] None.
Definition leaf_run : @outcome Disk (goresult Compiled.t) :=
  Compile (externals [] []) (compiler "/out") 10 0 (init [leaf] [] []).

(** *** Root configuration: the root has the infrastructure "cloud" and
    a project on "gcp"; its dependency D comes with the infrastructure
    "local" and a project on "aws", and imports X, which has the
    infrastructure "shared" and a project on "azure". *)
Definition rootcfg_repo : list (string * FileData) :=
  [("/deps/D/Appfile",
    mkFileData
      (File.mk "" "" "" (Application.mk "D" []) [Import_.mk "X"] ["local"] None)
      (Some (Project.mk "pd" "aws")));
   ("/deps/X/Appfile",
    mkFileData (File.mk "" "" "" (Application.mk "X" []) [] ["shared"] None)
      (Some (Project.mk "px" "azure")))].
Definition rootcfg_E : @Externals Disk string :=
  externals rootcfg_repo ["/deps/D/Appfile"].
Definition rootcfg_root : File.t :=
  File.mk "/app/Appfile" "" "" (Application.mk "root" [Dependency.mk "D"]) []
    ["cloud"] (Some 0).
Definition rootcfg_init : @State Disk :=
  init [rootcfg_root] [Project.mk "proot" "gcp"] [].
Definition rootcfg_vertex : CompiledGraphVertex.t :=
  CompiledGraphVertex.mk 0 "" "root".
Definition rootcfg_graph : dag.AcyclicGraph CompiledGraphVertex.t :=
  dag.Add rootcfg_vertex dag.empty.
Definition rootcfg_run
  : @outcome Disk (option error * dag.AcyclicGraph CompiledGraphVertex.t) :=
  compileDependencies rootcfg_E (compiler "/out") 10 rootcfg_vertex rootcfg_graph
    rootcfg_init.

(** The collaborators [E] with another [Merge]. *)
Definition with_Merge
    (m : File.t → File.t → list Project.t → option string * File.t * list Project.t)
    (E : @Externals Disk string) : @Externals Disk string :=
  {| getter_Detect := getter_Detect E;
     filepath_Dir := filepath_Dir E;
     ParseFile := ParseFile E;
     os_Stat := os_Stat E;
     File_hasID := File_hasID E;
     File_initID := File_initID E;
     File_loadID := File_loadID E;
     File_Merge := m;
     File_Validate := File_Validate E;
     oneline_Read := oneline_Read E;
     strconv_ParseInt := strconv_ParseInt E;
     os_Open := os_Open E;
     json_Decode := json_Decode E;
     os_Create := os_Create E;
     file_Write := file_Write E;
     json_MarshalIndent := json_MarshalIndent E |}.

(** A merge that works in place: the struct of the host is overlaid as
    by [Merge]; on top of that, when both files have a project, the
    [Project] struct of the host takes the fields that the project of
    the other file sets. *)
Definition Merge_in_place (f other : File.t) (ps : list Project.t)
  : option string * File.t * list Project.t :=
  (None, (Merge f other ps).1.2,
   match File.Project f, File.Project other with
   | Some p, Some q =>
       match ps !! p, ps !! q with
       | Some x, Some y =>
           <[p := Project.mk
                    (if decide (Project.Name y = "") then Project.Name x
                     else Project.Name y)
                    (if decide (Project.Infrastructure y = "")
                     then Project.Infrastructure x
                     else Project.Infrastructure y)]> ps
       | _, _ => ps
       end
   | _, _ => ps
   end).

(** *** A project that drifts: the root, with the infrastructure
    "cloud" and a project on "gcp", depends on D1 and D2.  D1 has the
    infrastructure "local" and no project, and imports X, whose project
    is on "aws".  D2 has a project of its own and imports W; W has no
    project and imports X and Z, and the project of Z is on "azure". *)
Definition drift_repo : list (string * FileData) :=
  [("/deps/X/Appfile",
    mkFileData (file "" "X" [] [] None) (Some (Project.mk "px" "aws")));
   ("/deps/Z/Appfile",
    mkFileData (file "" "Z" [] [] None) (Some (Project.mk "pz" "azure")));
   appfile "W" ["X"; "Z"] [];
   ("/deps/D1/Appfile",
    mkFileData
      (File.mk "" "" "" (Application.mk "D1" []) [Import_.mk "X"] ["local"] None)
      None);
   ("/deps/D2/Appfile",
    mkFileData (file "" "D2" ["W"] [] None) (Some (Project.mk "pd2" "")))].
Definition drift_E : @Externals Disk string :=
  with_Merge Merge_in_place
    (externals drift_repo ["/deps/D1/Appfile"; "/deps/D2/Appfile"]).
Definition drift_root : File.t :=
  File.mk "/app/Appfile" "" ""
    (Application.mk "root" [Dependency.mk "D1"; Dependency.mk "D2"]) [] ["cloud"]
    (Some 0).
Definition drift_init : @State Disk :=
  init [drift_root] [Project.mk "proot" "gcp"] [].
Definition drift_vertex : CompiledGraphVertex.t := CompiledGraphVertex.mk 0 "" "root".
Definition drift_graph : dag.AcyclicGraph CompiledGraphVertex.t :=
  dag.Add drift_vertex dag.empty.
Definition drift_run
  : @outcome Disk (option error * dag.AcyclicGraph CompiledGraphVertex.t) :=
  compileDependencies drift_E (compiler "/out") 10 drift_vertex drift_graph drift_init.

(** A new compiler on a disk where directories can be made. *)
Definition mkdir (dir : string) (w : Disk) : option string * Disk :=
  (None, (dir, "") :: w).
Definition new_run : @outcome Disk (goresult (@Compiler Disk)) :=
  NewCompiler mkdir (λ _, storage)
    {| Dir := "/out"; Loader := None; Callback := None |} no_state.

(** The customization of a Go application: templates render to
    themselves, the terminal is the list of its headers, and the import
    path is detected as given. *)
Definition render (_ : gmap string goapp.value) (tpl : string) : result string :=
  Ok tpl.
Definition header (msg : string) (u : list string) : list string := u ++ [msg].
Definition detect (r : result string) (u : list string)
  : result string * list string := (r, u).
Definition config (import_path : string) (key : string) : goapp.value :=
  if decide (key = "run_command") then goapp.VString "go run main.go"
  else if decide (key = "go_version") then goapp.VString "1.5"
  else if decide (key = "go_import_path") then goapp.VString import_path
  else goapp.VNil.
Definition no_opts : @goapp.Opts (list string) := goapp.mkOpts ∅ [].
Definition opts_of (o : @goapp.outcome (list string)) : @goapp.Opts (list string) :=
  match o with goapp.Returns _ o' => o' | goapp.Panics => no_opts end.
(** No import path is configured; detection finds one, or fails. *)
Definition process_detected : @goapp.outcome (list string) :=
  goapp.process render header (detect (Ok "github.com/a/b")) (config "") no_opts.
Definition process_undetected : @goapp.outcome (list string) :=
  goapp.process render header (detect (Fail "no GOPATH")) (config "") no_opts.

End MoreScenario.

(** ** Vocabulary of the statements *)

Section Specs.
Context {World Decoded : Type}.
Context (E : @Externals World Decoded).

(** Number of [File] structs allocated so far; pointers below it are valid. *)
Definition len (st : @State World) : nat := length (files st).

(** What import resolution for host [h] may add to the trace: callbacks
    for imports, downloads from the import storage, parses, and merges
    into [h] or into a file allocated at [base] or later. *)
Definition import_event (h : option ptr) (base : nat) (e : Event) : Prop :=
  match e with
  | EvCallback (CompileEventImport _) | EvImportGet _ | EvParseFile _ => True
  | EvMerge f _ _ => Some f = h ∨ base ≤ f
  | _ => False
  end.

(** A [Merge] that leaves the [Project] structs that exist as they
    are: what it has to say about projects it says in structs of its
    own. *)
Definition Merge_keeps_projects : Prop :=
  ∀ f other ps, ps `prefix_of` (File_Merge E f other ps).2.

(** How a piece of import resolution that may write to host [h] relates
    the state it starts in to the state it ends in. *)
Record imports_rel (h : option ptr) (st st' : @State World) : Prop := mk_imports_rel {
  rel_len : len st ≤ len st';
  rel_files : ∀ q, q < len st → Some q ≠ h → files st' !! q = files st !! q;
  rel_projects : Merge_keeps_projects → projects st `prefix_of` projects st';
  rel_cache : ∀ k p, importCache st !! k = Some p → importCache st' !! k = Some p;
  rel_cache_new : ∀ k p, importCache st' !! k = Some p →
      importCache st !! k = Some p ∨ (len st ≤ p ∧ p < len st');
  rel_trace : ∃ Δ, trace st' = trace st ++ Δ ∧ Forall (import_event h (len st)) Δ;
  rel_err : is_Some (resultErr st) → is_Some (resultErr st')
}.

(** The sources of the merges into [f] recorded in a stretch of trace. *)
Definition merged_into (f : ptr) (Δ : list Event) : list string :=
  omap (λ e, match e with
             | EvMerge h src _ => if decide (h = f) then Some src else None
             | _ => None
             end) Δ.

(** Cached files are allocated, and none of them is the host. *)
Definition cache_sep (h : option ptr) (st : @State World) : Prop :=
  ∀ k p, importCache st !! k = Some p → p < len st ∧ Some p ≠ h.

(** Every cached file carries its source key in [ID]. *)
Definition cache_ids (st : @State World) : Prop :=
  ∀ k p, importCache st !! k = Some p →
    ∃ v, files st !! p = Some v ∧ File.ID v = k.

(** "Imports do not propagate identity": a merge that succeeds, of a
    file whose [ID] was cleared, leaves the [ID] of the host as it was. *)
Definition Merge_keeps_ID : Prop :=
  ∀ f other ps merged ps',
    File_Merge E f other ps = (None, merged, ps') → File.ID other = "" →
    File.ID merged = File.ID f.

(** A merge into [f] of the file that the cache holds for its source
    key: what [Merge] is handed is the cached struct with [ID] and
    [Path] cleared, every other field as the cached struct has it. *)
Definition merge_of_cached (f : ptr) (st : @State World) (e : Event) : Prop :=
  ∃ k p v, importCache st !! k = Some p ∧ files st !! p = Some v ∧
           e = EvMerge f k (File.set_Path "" (File.set_ID "" v)).

(** The canonical keys of a list of imports, in declaration order. *)
Definition import_keys (pwd : string) (imports : list Import_.t) (keys : list string)
  : Prop :=
  Forall2 (λ i k, getter_Detect E (Import_.Source i) pwd = Ok k) imports keys.

(** Only the locals of [compileImports] (graph and error) may differ. *)
Definition only_locals (st st' : @State World) : Prop :=
  files st' = files st ∧ projects st' = projects st ∧ world st' = world st ∧
  trace st' = trace st ∧ sched st' = sched st ∧
  importCache st' = importCache st ∧
  (is_Some (resultErr st) → is_Some (resultErr st')).

(** With [track] the invariant is carried along, without it nothing is
    asked of the cache contents. *)
Definition ids_ok (track : Prop) (st : @State World) : Prop := track → cache_ids st.

(** Partial correctness: if the call returns, the postcondition holds. *)

Definition wp {A} (m : @M World A) (Q : A → @State World → Prop)
    (st : @State World) : Prop :=
  match m st with
  | Done a st' => Q a st'
  | Panic _ => True
  | Timeout => True
  end.

(** What one goroutine does to the merge slice: it leaves it alone and
    reports an error, or it stores at its own index the pointer that the
    cache now holds for its source. *)
Definition task_ok (track : Prop)
    (body : Task → list (option ptr) → @M World (list (option ptr))) : Prop :=
  ∀ source idx result st,
    cache_sep None st → ids_ok track st →
    wp (body (source, idx) result)
       (λ result' st',
          imports_rel None st st' ∧ ids_ok track st' ∧
          ((result' = result ∧ is_Some (resultErr st')) ∨
           (∃ p, result' = <[idx := Some p]> result ∧
                 importCache st' !! source = Some p))) st.

(** What resolving the imports of host [f] does. *)
Definition import_ok (track : Prop)
    (importSingle : string → ptr → @M World bool) : Prop :=
  ∀ parent f st,
    f < len st → cache_sep (Some f) st → ids_ok track st →
    wp (importSingle parent f)
       (λ ok st',
          imports_rel (Some f) st st' ∧ ids_ok track st' ∧
          (ok = false → is_Some (resultErr st')) ∧
          (track → ok = true → ∀ v v', files st !! f = Some v →
             files st' !! f = Some v' → File.ID v' = File.ID v)) st.

(** *** Copies and fetches *)

(** The file behind a pointer together with the project it points to. *)
Definition deep_view (st : @State World) (p : ptr) : option FileData :=
  match files st !! p with
  | Some v =>
      Some (mkFileData v match File.Project v with
                         | Some q => projects st !! q
                         | None => None
                         end)
  | None => None
  end.

(** A deep copy shares no project with its original. *)
Definition deep_copy_of (original copy : File.t) : Prop :=
  ∀ q, File.Project copy = Some q → File.Project original ≠ Some q.

(** How often the import storage was asked for a key. *)
Definition fetches (key : string) (tr : list Event) : nat :=
  length (filter (λ e, e = EvImportGet key) tr).

(** *** Dependency compilation *)

(** What dependency compilation adds to the trace while it goes on: any
    call of its own or of import resolution, except an ID check that
    came out negative. *)
Definition dep_event (e : Event) : Prop :=
  match e with
  | EvCallback _ | EvDepGet _ | EvImportGet _ | EvParseFile _ | EvLoader _
  | EvMerge _ _ _ => True
  | EvDepHasID _ has => has = true
  | _ => False
  end.

(** The root file is allocated, and if it has a project, the project is
    allocated and its infrastructure is [i]; merges leave the projects
    that exist alone. *)
Definition root_wf (i : string) (rootf : ptr) (st : @State World) : Prop :=
  Merge_keeps_projects ∧
  ∃ rootv, files st !! rootf = Some rootv ∧
    ∀ rp, File.Project rootv = Some rp →
      ∃ rx, projects st !! rp = Some rx ∧ Project.Infrastructure rx = i.

(** Projects are only ever added, or get [i] as their infrastructure. *)
Definition proj_rel (i : string) (l l' : list Project.t) : Prop :=
  ∀ p x, l !! p = Some x →
    ∃ x', l' !! p = Some x' ∧ (x' = x ∨ x' = Project.set_Infrastructure i x).

(** How a stretch of dependency compilation relates the state it
    starts in to the state it ends in: files that exist are left alone. *)
Record deps_rel (i : string) (rootf : ptr) (st st' : @State World) : Prop :=
  mk_deps_rel {
    dr_len : len st ≤ len st';
    dr_files : ∀ q, q < len st → files st' !! q = files st !! q;
    dr_projects : root_wf i rootf st → proj_rel i (projects st) (projects st');
    dr_cache : cache_sep None st → cache_sep None st';
    dr_trace : ∃ Δ, trace st' = trace st ++ Δ ∧ Forall dep_event Δ
  }.

(** A stretch of dependency compilation that returned [err]: either
    nothing special happened, or its last act was an ID check that came
    out negative, and [err] is the fixed message about it. *)
Definition dep_outcome (i : string) (rootf : ptr) (st st' : @State World)
    (err : option error) : Prop :=
  deps_rel i rootf st st' ∨
  ∃ s key, deps_rel i rootf st s ∧
           st' = set_trace (trace s ++ [EvDepHasID key false]) s ∧
           err = Some (Errorf (msg_no_otto_id key)).

(** The vertex has what the root has. *)
Definition good (i : string) (rootf : ptr) (st : @State World)
    (v : CompiledGraphVertex.t) : Prop :=
  CompiledGraphVertex.File v < len st ∧
  ∃ rootv fv,
    files st !! rootf = Some rootv ∧
    files st !! CompiledGraphVertex.File v = Some fv ∧
    File.Infrastructure fv = File.Infrastructure rootv ∧
    (File.Project rootv ≠ None →
     ∃ p x, File.Project fv = Some p ∧ projects st !! p = Some x ∧
            Project.Infrastructure x = i).

(** Every vertex of [g] was in [g0] already or is good. *)
Definition graph_good (i : string) (rootf : ptr)
    (g0 g : dag.AcyclicGraph CompiledGraphVertex.t) (st : @State World) : Prop :=
  ∀ v, v ∈ dag.vertices g → v ∈ dag.vertices g0 ∨ good i rootf st v.

(** *** Compile *)

(** The two calls that write the version file. *)
Definition version_events (dir : string) (Δ : list Event) : Prop :=
  let path := filepath_Join dir CompileVersionFilename in
  Δ = [EvCreate path] ∨ Δ = [EvCreate path; EvWrite path (pretty CompileVersion)].

(** A call that creates or fills the compiled Appfile. *)
Definition compiled_write (dir : string) (e : Event) : Prop :=
  let path := filepath_Join dir CompileFilename in
  e = EvCreate path ∨ ∃ data, e = EvWrite path data.


(** A call on the ID file of the Appfile that is compiled. *)
Definition id_call (e : Event) : Prop :=
  match e with EvHasID _ | EvInitID _ | EvLoadID _ => True | _ => False end.


End Specs.

(** ** Vocabulary of the further statements *)

Section MoreSpecs.
Context {World Decoded : Type}.
Context (E : @Externals World Decoded) (c : @Compiler World).

(** No cycle of the import graph went unreported: an error is on record,
    or the graph has no cycle. *)
Definition cycles_reported (st : @State World) : Prop :=
  is_Some (resultErr st) ∨ dag.Cycles (graph st) = [].

(** What stays as it is when nothing is fetched. *)
Definition offline (st st' : @State World) : Prop :=
  world st' = world st ∧ trace st' = trace st ∧ importCache st' = importCache st.

(** A merge into file [f]. *)
Definition merge_into (f : ptr) (e : Event) : Prop :=
  ∃ k o, e = EvMerge f k o.

(** The keys the dependency storage was asked for, in order. *)
Definition dep_gets (Δ : list Event) : list string :=
  omap (λ e, match e with EvDepGet k => Some k | _ => None end) Δ.

(** Files that exist are left alone. *)
Definition files_kept (st st' : @State World) : Prop :=
  len st ≤ len st' ∧ ∀ q, q < len st → files st' !! q = files st !! q.

(** Every dependency that the Appfile of vertex [v] declares has an edge
    from [v] to the vertex that the map holds for its canonical key. *)
Definition connected (st : @State World)
    (vm : gmap string CompiledGraphVertex.t)
    (g : dag.AcyclicGraph CompiledGraphVertex.t)
    (v : CompiledGraphVertex.t) : Prop :=
  ∃ fv, files st !! CompiledGraphVertex.File v = Some fv ∧
    ∀ dep, dep ∈ Application.Dependencies (File.Application fv) →
      ∃ k w, getter_Detect E (Dependency.Source dep)
               (filepath_Dir E (File.Path fv)) = Ok k ∧
             vm !! k = Some w ∧ (v, w) ∈ dag.edges g.

(** What the map of [compileDependencies] records for the key of a
    dependency: a vertex whose directory is the one the dependency
    storage gave for the key, named after the application of its file,
    whose file carries the key as its source. *)
Definition vertex_of_key (st0 st : @State World) (k : string)
    (v : CompiledGraphVertex.t) : Prop :=
  len st0 ≤ CompiledGraphVertex.File v ∧
  (∃ w, storage_Dir (depStorage c) k w = Ok (CompiledGraphVertex.Dir v)) ∧
  ∃ fv, files st !! CompiledGraphVertex.File v = Some fv ∧
        File.Source fv = k ∧
        CompiledGraphVertex.NameValue v = Application.Name (File.Application fv).

(** The loop invariant of [compileDependencies]: [Δ] is the trace since
    the call, [vm] the map from keys to vertices, [g] the graph. *)
Record dep_inv (rootkey : string) (root : CompiledGraphVertex.t)
    (g0 : dag.AcyclicGraph CompiledGraphVertex.t) (st0 st : @State World)
    (Δ : list Event) (vm : gmap string CompiledGraphVertex.t)
    (g : dag.AcyclicGraph CompiledGraphVertex.t) : Prop := mk_dep_inv {
  di_root : vm !! rootkey = Some root;
  di_nodup : NoDup (dep_gets Δ);
  di_gets : ∀ k, k ∈ dep_gets Δ → k ≠ rootkey ∧ is_Some (vm !! k);
  di_checked : ∀ k v, vm !! k = Some v → k ≠ rootkey →
                 k ∈ dep_gets Δ ∧ EvDepHasID k true ∈ Δ;
  di_fields : ∀ k v, vm !! k = Some v → k ≠ rootkey → vertex_of_key st0 st k v;
  di_old : ∀ v, v ∈ dag.vertices g0 → v ∈ dag.vertices g;
  di_mapped : ∀ k v, vm !! k = Some v → k ≠ rootkey → v ∈ dag.vertices g;
  di_new : ∀ v, v ∈ dag.vertices g →
             v ∈ dag.vertices g0 ∨ ∃ k, k ≠ rootkey ∧ vm !! k = Some v;
  di_edges : ∀ a b, (a, b) ∈ dag.edges g →
               (a, b) ∈ dag.edges g0 ∨
               ((∃ k, vm !! k = Some a) ∧ (∃ k, vm !! k = Some b));
  di_incoming : ∀ k v, vm !! k = Some v → k ≠ rootkey →
                  ∃ a, (a, v) ∈ dag.edges g;
  di_old_edges : ∀ e, e ∈ dag.edges g0 → e ∈ dag.edges g
}.



(** Any call but a fetch from the dependency storage. *)
Definition quiet_event (e : Event) : Prop :=
  match e with EvDepGet _ => False | _ => True end.

(** The trace grew by calls that fetch no dependency. *)
Definition quiet_ext (st st' : @State World) : Prop :=
  ∃ Δ, trace st' = trace st ++ Δ ∧ Forall quiet_event Δ.

(** The bookkeeping of the work queue: what is queued is in the map, and
    a vertex of the map is still queued, or is the one being worked on,
    or has all its edges. *)
Definition queue_inv (st : @State World)
    (vm : gmap string CompiledGraphVertex.t)
    (g : dag.AcyclicGraph CompiledGraphVertex.t)
    (q : list CompiledGraphVertex.t) (cur : option CompiledGraphVertex.t) : Prop :=
  (∀ v, v ∈ q → ∃ k, vm !! k = Some v) ∧
  ∀ k v, vm !! k = Some v → v ∈ q ∨ Some v = cur ∨ connected st vm g v.

(** What holds between two steps of the work loop. *)
Record loop_inv (rootkey : string) (root : CompiledGraphVertex.t)
    (g0 : dag.AcyclicGraph CompiledGraphVertex.t) (st0 st : @State World)
    (s : DepState) (cur : option CompiledGraphVertex.t) : Prop := mk_loop_inv {
  li_inv : ∃ Δ, trace st = trace st0 ++ Δ ∧
                dep_inv rootkey root g0 st0 st Δ (vertexMap s) (depGraph s);
  li_kept : files_kept st0 st;
  li_cache : cache_sep None st;
  li_queue : queue_inv st (vertexMap s) (depGraph s) (queue s) cur
}.

(** What holds when the work loop stops on an error: no key was fetched
    twice, and the key of the root was not fetched. *)
Definition fetched_once (rootkey : string) (st0 st : @State World) : Prop :=
  ∃ Δ, trace st = trace st0 ++ Δ ∧ NoDup (dep_gets Δ) ∧ rootkey ∉ dep_gets Δ.

(** The fetch an event stands for, and the event a callback was told. *)
Definition fetch_of (e : Event) : option CompileEvent :=
  match e with
  | EvDepGet k => Some (CompileEventDep k)
  | EvImportGet k => Some (CompileEventImport k)
  | _ => None
  end.
Definition call_of (e : Event) : option CompileEvent :=
  match e with EvCallback ev => Some ev | _ => None end.

(** The fetches of a stretch of trace, and what the callback was told
    during it, both in order. *)
Definition fetched (Δ : list Event) : list CompileEvent := omap fetch_of Δ.
Definition announced (Δ : list Event) : list CompileEvent := omap call_of Δ.

(** Neither a fetch nor a call of the callback. *)
Definition neutral (e : Event) : Prop := fetch_of e = None ∧ call_of e = None.

(** Since the trace was [T0], a configured callback was told of every
    fetch, and of nothing else; without callback nothing was told. *)
Definition announces (T0 : list Event) (st : @State World) : Prop :=
  ∃ Δ, trace st = T0 ++ Δ ∧
       announced Δ = match Callback (opts c) with
                     | Some _ => fetched Δ
                     | None => []
                     end.

(** A call that creates or fills one of the two files that [Compile]
    leaves in the output directory. *)
Definition output_write (dir : string) (e : Event) : Prop :=
  e = EvCreate (filepath_Join dir CompileVersionFilename) ∨
  e = EvWrite (filepath_Join dir CompileVersionFilename) (pretty CompileVersion) ∨
  compiled_write dir e.

(** A call on the ID file of the Appfile at [path]. *)
Definition id_file_call (path : string) (e : Event) : Prop :=
  e = EvHasID path ∨ e = EvInitID path ∨ e = EvLoadID path.

(** What [Compile] may call for an Appfile at [path] that has neither
    imports nor dependencies: the two files of the output directory and
    the ID file of the Appfile. *)
Definition leaf_call (dir path : string) (e : Event) : Prop :=
  output_write dir e ∨ id_file_call path e.

(** What holds when [compileDependencies] is through without error. *)
Definition deps_done (rootkey : string) (root : CompiledGraphVertex.t)
    (g0 : dag.AcyclicGraph CompiledGraphVertex.t) (st0 st' : @State World)
    (g' : dag.AcyclicGraph CompiledGraphVertex.t) : Prop :=
  ∃ Δ vm, trace st' = trace st0 ++ Δ ∧
          dep_inv rootkey root g0 st0 st' Δ vm g' ∧
          files_kept st0 st' ∧
          ∀ k v, vm !! k = Some v → connected st' vm g' v.

End MoreSpecs.
(** * Verification *)

Section Proofs.
Context {World Decoded : Type}.
Context (E : @Externals World Decoded) (c : @Compiler World).

Abbreviation State := (@State World).
Abbreviation M := (@M World).

(** The relations of the vocabulary, at the collaborators [E]. *)
Local Abbreviation imports_rel := (imports_rel E).
Local Abbreviation rel_len := (rel_len E).
Local Abbreviation rel_files := (rel_files E).
Local Abbreviation rel_projects := (rel_projects E).
Local Abbreviation rel_cache := (rel_cache E).
Local Abbreviation rel_cache_new := (rel_cache_new E).
Local Abbreviation rel_trace := (rel_trace E).
Local Abbreviation rel_err := (rel_err E).
Local Abbreviation task_ok := (task_ok E).
Local Abbreviation import_ok := (import_ok E).
Local Abbreviation root_wf := (root_wf E).
Local Abbreviation deps_rel := (deps_rel E).
Local Abbreviation dr_len := (dr_len E).
Local Abbreviation dr_files := (dr_files E).
Local Abbreviation dr_projects := (dr_projects E).
Local Abbreviation dr_cache := (dr_cache E).
Local Abbreviation dr_trace := (dr_trace E).
Local Abbreviation dep_outcome := (dep_outcome E).

(** ** Reasoning about runs *)

Lemma wp_ret {A} (a : A) (Q : A → State → Prop) (st : State) :
  Q a st → wp (mret a) Q st.
Proof. done. Qed.

Lemma wp_bind {A B} (m : M A) (k : A → M B) (Q : B → State → Prop) st :
  wp m (λ a, wp (k a) Q) st → wp (m ≫= k) Q st.
Proof.
  unfold wp, mbind, M_bind. by destruct (m st).
Qed.

Lemma wp_mono {A} (m : M A) (Q Q' : A → State → Prop) st :
  wp m Q st → (∀ a st', Q a st' → Q' a st') → wp m Q' st.
Proof.
  unfold wp. destruct (m st); auto.
Qed.

Lemma wp_done {A} (m : M A) (Q : A → State → Prop) st a st' :
  wp m Q st → m st = Done a st' → Q a st'.
Proof. unfold wp. intros H Hm. by rewrite Hm in H. Qed.


Lemma bind_done {A B} (m : M A) (k : A → M B) st b st' :
  (m ≫= k) st = Done b st' →
  ∃ a st1, m st = Done a st1 ∧ k a st1 = Done b st'.
Proof.
  unfold mbind, M_bind. destruct (m st); [eauto | done | done].
Qed.

Lemma wp_emit e (Q : unit → State → Prop) st :
  Q tt (set_trace (trace st ++ [e]) st) → wp (emit e) Q st.
Proof. done. Qed.

Lemma wp_ask {A} (f : World → A) (Q : A → State → Prop) st :
  Q (f (world st)) st → wp (ask f) Q st.
Proof. done. Qed.

Lemma wp_call {A} (f : World → A * World) (Q : A → State → Prop) st :
  (∀ a w, f (world st) = (a, w) → Q a (set_world w st)) → wp (call f) Q st.
Proof.
  intros H. unfold wp, call. destruct (f (world st)) as [a w] eqn:Hf. by apply H.
Qed.

Lemma wp_get_file p (Q : File.t → State → Prop) st :
  (∀ v, files st !! p = Some v → Q v st) → wp (get_file p) Q st.
Proof.
  intros H. unfold wp, get_file. destruct (files st !! p); auto.
Qed.

Lemma wp_update_file p g (Q : unit → State → Prop) st :
  (∀ v, files st !! p = Some v → Q tt (set_files (<[p := g v]> (files st)) st)) →
  wp (update_file p g) Q st.
Proof.
  intros H. unfold wp, update_file. destruct (files st !! p); auto.
Qed.

Lemma wp_alloc_file v (Q : ptr → State → Prop) st :
  Q (len st) (set_files (files st ++ [v]) st) → wp (alloc_file v) Q st.
Proof. done. Qed.

Lemma wp_get_project p (Q : Project.t → State → Prop) st :
  (∀ x, projects st !! p = Some x → Q x st) → wp (get_project p) Q st.
Proof.
  intros H. unfold wp, get_project. destruct (projects st !! p); auto.
Qed.

Lemma wp_update_project p g (Q : unit → State → Prop) st :
  (∀ x, projects st !! p = Some x →
     Q tt (set_projects (<[p := g x]> (projects st)) st)) →
  wp (update_project p g) Q st.
Proof.
  intros H. unfold wp, update_project. destruct (projects st !! p); auto.
Qed.

Lemma wp_alloc_project x (Q : ptr → State → Prop) st :
  Q (length (projects st)) (set_projects (projects st ++ [x]) st) →
  wp (alloc_project x) Q st.
Proof. done. Qed.

Lemma wp_deref f (Q : ptr → State → Prop) st :
  (∀ p, f = Some p → Q p st) → wp (deref f) Q st.
Proof. intros H. destruct f; [by apply H | done]. Qed.

Lemma wp_append_err e (Q : unit → State → Prop) st :
  Q tt (set_resultErr (Some (multierror_Append (resultErr st) e)) st) →
  wp (append_err e) Q st.
Proof. done. Qed.

Lemma wp_cache_get k (Q : option ptr → State → Prop) st :
  Q (importCache st !! k) st → wp (cache_get k) Q st.
Proof. done. Qed.

Lemma wp_cache_put k p (Q : unit → State → Prop) st :
  Q tt (set_importCache (<[k := p]> (importCache st)) st) → wp (cache_put k p) Q st.
Proof. done. Qed.

Lemma wp_pick n (Q : nat → State → Prop) st :
  (∀ i r, (0 < n → i < n) → Q i (set_sched r st)) → wp (pick n) Q st.
Proof.
  intros H. unfold wp, pick. destruct (sched st) eqn:Hs.
  - specialize (H 0 [] (λ x, x)). destruct st; simpl in *. by subst.
  - apply H. intros ?. apply Nat.mod_upper_bound. lia.
Qed.

Lemma wp_graph_add_check parent source (Q : list (list string) → State → Prop) st :
  (∀ cycles g, Q cycles (set_graph g st)) →
  wp (graph_add_check parent source) Q st.
Proof. intros H. apply H. Qed.

Lemma wp_callback ev (Q : unit → State → Prop) st :
  (∀ w Δ, Forall (λ e, e = EvCallback ev) Δ →
     Q tt (set_world w (set_trace (trace st ++ Δ) st))) →
  wp (callback c ev) Q st.
Proof.
  intros H. unfold callback. destruct (Callback (opts c)).
  - apply wp_bind, wp_emit, wp_call. intros [] ? _. apply H. by constructor.
  - apply wp_ret. specialize (H (world st) [] (Forall_nil_2 _)).
    destruct st; simpl in *. unfold set_world, set_trace in H; simpl in H.
    by rewrite app_nil_r in H.
Qed.

Lemma wp_alloc_data d (Q : ptr → State → Prop) st :
  (∀ ps v,
     (v, ps) = match fd_project d with
               | Some x => (File.set_Project (Some (length (projects st))) (fd_file d), [x])
               | None => (File.set_Project None (fd_file d), [])
               end →
     Q (len st) (set_files (files st ++ [v]) (set_projects (projects st ++ ps) st))) →
  wp (alloc_data d) Q st.
Proof.
  intros H. unfold alloc_data. destruct (fd_project d) as [x|].
  - apply wp_bind, wp_alloc_project, wp_alloc_file. by apply (H [x]).
  - apply wp_alloc_file. specialize (H [] _ eq_refl).
    destruct st; simpl in *. unfold set_projects in H; simpl in H.
    by rewrite app_nil_r in H.
Qed.

Lemma wp_merge_call f host other (Q : option string → State → Prop) st :
  (∀ err merged ps,
     File_Merge E host other (projects st) = (err, merged, ps) →
     Q err (set_projects ps (set_files (<[f := merged]> (files st)) st))) →
  wp (merge_call E f host other) Q st.
Proof.
  intros H. unfold wp, merge_call.
  destruct (File_Merge E host other (projects st)) as [[err merged] ps] eqn:Hm.
  by apply H.
Qed.

Ltac wp_prim :=
  lazymatch goal with
  | |- wp (mret _) _ _ => apply wp_ret
  | |- wp (emit _) _ _ => apply wp_emit
  | |- wp (ask _) _ _ => apply wp_ask
  | |- wp (call _) _ _ => apply wp_call
  | |- wp (get_file _) _ _ => apply wp_get_file
  | |- wp (update_file _ _) _ _ => apply wp_update_file
  | |- wp (alloc_file _) _ _ => apply wp_alloc_file
  | |- wp (get_project _) _ _ => apply wp_get_project
  | |- wp (update_project _ _) _ _ => apply wp_update_project
  | |- wp (alloc_project _) _ _ => apply wp_alloc_project
  | |- wp (deref _) _ _ => apply wp_deref
  | |- wp (append_err _) _ _ => apply wp_append_err
  | |- wp (cache_get _) _ _ => apply wp_cache_get
  | |- wp (cache_put _ _) _ _ => apply wp_cache_put
  | |- wp (pick _) _ _ => apply wp_pick
  | |- wp (graph_add_check _ _) _ _ => apply wp_graph_add_check
  | |- wp (callback _ _) _ _ => apply wp_callback
  | |- wp (alloc_data _) _ _ => apply wp_alloc_data
  | |- wp (merge_call _ _ _ _) _ _ => apply wp_merge_call
  end.

Ltac wp_next := apply wp_bind; wp_prim.

(** ** The import relation is a preorder, also across a change of host *)

Lemma imports_rel_refl h (st : State) : imports_rel h st st.
Proof.
  constructor; auto.
  exists []. by rewrite app_nil_r.
Qed.

Lemma import_event_mono h h1 base base1 e :
  import_event h1 base1 e →
  base ≤ base1 →
  (∀ f, h1 = Some f → h = Some f ∨ base ≤ f) →
  import_event h base e.
Proof.
  intros He Hb Hh. destruct e; simpl in *; try done.
  destruct He as [He | He]; [| right; lia].
  destruct (Hh host) as [-> | ?]; auto.
Qed.

Lemma imports_rel_trans h h1 (st st1 st2 : State) :
  imports_rel h st st1 →
  imports_rel h1 st1 st2 →
  (∀ f, h1 = Some f → h = Some f ∨ len st ≤ f) →
  imports_rel h st st2.
Proof.
  intros [L1 F1 P1 C1 N1 (Δ1 & T1 & E1) R1] [L2 F2 P2 C2 N2 (Δ2 & T2 & E2) R2] Hh.
  constructor.
  - lia.
  - intros q Hq Hne. rewrite F2, F1; auto; [lia|].
    intros Heq. symmetry in Heq. destruct (Hh q Heq) as [-> | ?]; [done | lia].
  - intros Hk. etrans; [by apply P1 | by apply P2].
  - auto.
  - intros k p Hk. destruct (N2 k p Hk) as [Hold | ?]; [| right; lia].
    destruct (N1 k p Hold) as [? | ?]; [by left | right; lia].
  - exists (Δ1 ++ Δ2). split; [by rewrite T2, T1, app_assoc|].
    apply Forall_app. split; [done|].
    eapply Forall_impl; [exact E2|]. intros e He.
    eapply import_event_mono; eauto.
  - auto.
Qed.

Lemma imports_rel_host h (st st' : State) : imports_rel None st st' → imports_rel h st st'.
Proof.
  intros H. eapply imports_rel_trans; [apply imports_rel_refl | exact H | done].
Qed.

(** ** importSingle, first loop *)

Lemma only_locals_refl (st : State) : only_locals st st.
Proof. by repeat split. Qed.

Lemma only_locals_rel h (st st' : State) : only_locals st st' → imports_rel h st st'.
Proof.
  intros (Hf & Hp & Hw & Ht & Hs & Hc & He).
  constructor; unfold len; rewrite ?Hf, ?Hp, ?Hc; auto.
  exists []. by rewrite Ht, app_nil_r.
Qed.

Lemma start_downloads_spec parent pwd imports : ∀ idx (st : State),
  wp (start_downloads E parent pwd idx imports)
     (λ r st',
        only_locals st st' ∧
        (r.1 = false → is_Some (resultErr st')) ∧
        snd <$> r.2 = seq idx (length r.2) ∧
        (r.1 = true → import_keys E pwd imports (fst <$> r.2))) st.
Proof.
  induction imports as [|i rest IH]; intros idx st; simpl.
  { apply wp_ret. simpl. split; [apply only_locals_refl|].
    split; [done|]. split; [done|]. intros _. constructor. }
  destruct (getter_Detect E (Import_.Source i) pwd) as [source|err] eqn:Hdet.
  2: { wp_next. wp_prim. simpl. split; [by repeat split|].
       split; [intros _; by eexists|]. split; done. }
  wp_next. intros cycles g. destruct cycles as [|cycle ?].
  2: { wp_next. wp_prim. simpl. split; [by repeat split|].
       split; [intros _; by eexists|]. split; done. }
  apply wp_bind. eapply wp_mono; [apply IH|].
  intros [ok tasks] st' (Hloc & Herr & Hidx & Hkeys). simpl in *.
  apply wp_ret. simpl. split; [|split; [|split]].
  - destruct Hloc as (? & ? & ? & ? & ? & ? & ?). by repeat split.
  - done.
  - f_equal. exact Hidx.
  - intros Hok. constructor; [done|]. by apply Hkeys.
Qed.

(** ** importSingle, third loop *)

Lemma lookup_snoc_new {A} (l : list A) (x y : A) :
  (l ++ [x]) !! length l = Some y → y = x.
Proof.
  rewrite (list_lookup_middle l [] x (length l)) by done. congruence.
Qed.

Lemma insert_snoc {A} (l : list A) (x y : A) n :
  n = length l → <[n := y]> (l ++ [x]) = l ++ [y].
Proof.
  intros ->. rewrite insert_app_r_alt by lia. by rewrite Nat.sub_diag.
Qed.

Lemma merge_imports_spec f : ∀ merge (st : State),
  f < len st →
  (∀ p, Some p ∈ merge → p < len st ∧ p ≠ f) →
  wp (merge_imports E f merge)
     (λ ok st',
        imports_rel (Some f) st st' ∧ importCache st' = importCache st ∧
        (ok = false → is_Some (resultErr st')) ∧
        (Merge_keeps_ID E → ok = true → ∀ v v', files st !! f = Some v →
           files st' !! f = Some v' → File.ID v' = File.ID v) ∧
        ∃ Δ, trace st' = trace st ++ Δ ∧
             (∀ i e, Δ !! i = Some e →
                ∃ p v, merge !! i = Some (Some p) ∧ files st !! p = Some v ∧
                       e = EvMerge f (File.ID v)
                             (File.set_Path "" (File.set_ID "" v))) ∧
             (ok = true → length Δ = length merge)) st.
Proof.
  induction merge as [|o rest IH]; intros st Hf Hslots; simpl.
  { apply wp_ret. split; [apply imports_rel_refl|]. split; [done|].
    split; [done|]. split; [congruence|].
    exists []. rewrite app_nil_r. split; [done|]. split; [by intros [|?] ? | done]. }
  wp_next. intros p ->.
  destruct (Hslots p) as [Hp Hpf]; [by left|].
  wp_next. intros v Hv.
  wp_next. wp_next. intros v1 Hv1. simpl in Hv1. apply lookup_snoc_new in Hv1 as ->.
  simpl. rewrite insert_snoc by done.
  wp_next. intros v2 Hv2. simpl in Hv2. apply lookup_snoc_new in Hv2 as ->.
  simpl. rewrite insert_snoc by done.
  wp_next. intros host Hhost. simpl in Hhost.
  rewrite lookup_app_l in Hhost by done.
  wp_next. intros other Hother. simpl in Hother. apply lookup_snoc_new in Hother as ->.
  wp_next.
  set (copy := File.set_Path "" (File.set_ID "" v)).
  set (ev := EvMerge f (File.ID v) copy).
  apply wp_bind, wp_merge_call. intros err merged ps Hmerge. simpl in *.
  rewrite insert_app_l by done.
  match goal with |- wp _ _ ?s => set (st1 := s) end.
  assert (Hrel1 : imports_rel (Some f) st st1).
  { constructor.
    - unfold len, st1; simpl. rewrite length_app, length_insert. lia.
    - intros q Hq Hne. unfold st1; simpl.
      rewrite lookup_app_l by (by rewrite length_insert).
      rewrite list_lookup_insert_ne; [done | congruence].
    - intros Hk. unfold st1; simpl.
      specialize (Hk host copy (projects st)). by rewrite Hmerge in Hk.
    - done.
    - intros k q Hk. by left.
    - exists [ev]. split; [done|]. constructor; [|constructor]. by left.
    - done. }
  assert (Hlen1 : len st1 = S (len st)).
  { unfold len, st1; simpl. rewrite length_app, length_insert. simpl. lia. }
  assert (Hm : files st1 !! f = Some merged).
  { unfold st1; simpl. rewrite lookup_app_l by (by rewrite length_insert).
    by apply list_lookup_insert_eq. }
  assert (Hid1 : Merge_keeps_ID E → err = None → File.ID merged = File.ID host).
  { intros Hkeep ->. by apply (Hkeep host copy (projects st) merged ps). }
  assert (Hev1 : ∃ q w, (Some p :: rest) !! 0 = Some (Some q) ∧
                        files st !! q = Some w ∧
                        ev = EvMerge f (File.ID w)
                               (File.set_Path "" (File.set_ID "" w)))
    by (by exists p, v).
  assert (Htr1 : trace st1 = trace st ++ [ev]) by done.
  assert (Hc1 : importCache st1 = importCache st) by done.
  clearbody st1.
  destruct err as [err|].
  - (* the merge failed: report and stop *)
    wp_next. wp_prim. simpl.
    split. { destruct Hrel1. by constructor. }
    split; [done|]. split; [intros _; by eexists|]. split.
    + done.
    + exists [ev]. split; [done|]. split; [|done].
      intros [|i] e He; [|done]. injection He as <-. exact Hev1.
  - (* merged: go on with the rest *)
    eapply wp_mono.
    { apply (IH st1); [lia|].
      intros q Hq. destruct (Hslots q) as [? ?]; [by right|]. split; [lia | done]. }
    intros ok st' (Hrel & Hcache & Herr & Hid & Δ & Htr & Hall & Hok).
    split; [eapply imports_rel_trans; eauto|].
    split; [by rewrite Hcache|]. split; [done|]. split.
    + intros Hkeep -> w w' Hw Hw'.
      rewrite (Hid Hkeep eq_refl merged w' Hm Hw').
      pose proof (eq_trans (eq_sym Hhost) Hw) as [= <-]. auto.
    + exists (ev :: Δ). split; [by rewrite Htr, Htr1, <- app_assoc|].
      split; [|intros ?; simpl; by rewrite Hok].
      intros [|i] e He; simpl in He.
      { injection He as <-. exact Hev1. }
      destruct (Hall i e He) as (q & w & Hq & Hw & ->).
      exists q, w. split; [done|]. split; [|done].
      destruct (Hslots q) as [? ?]; [right; by eapply list_elem_of_lookup_2|].
      rewrite <- Hw. symmetry. apply (rel_files _ _ _ Hrel1); [done | congruence].
Qed.

(** ** Single writes, seen from a fixed starting state *)

Lemma rel_set_world h (st0 s : State) w :
  imports_rel h st0 s → imports_rel h st0 (set_world w s).
Proof. intros []. by constructor. Qed.

Lemma rel_set_sched h (st0 s : State) r :
  imports_rel h st0 s → imports_rel h st0 (set_sched r s).
Proof. intros []. by constructor. Qed.

Lemma rel_set_graph h (st0 s : State) g :
  imports_rel h st0 s → imports_rel h st0 (set_graph g s).
Proof. intros []. by constructor. Qed.

Lemma rel_set_resultErr h (st0 s : State) e :
  imports_rel h st0 s → imports_rel h st0 (set_resultErr (Some e) s).
Proof. intros []. constructor; try done. all: intros _; by eexists. Qed.

Lemma rel_set_trace h (st0 s : State) tr Δ' :
  imports_rel h st0 s → tr = trace s → Forall (import_event h (len st0)) Δ' →
  imports_rel h st0 (set_trace (tr ++ Δ') s).
Proof.
  intros [? ? ? ? ? (Δ & HΔ & Hall) ?] -> He. constructor; try done.
  exists (Δ ++ Δ'). simpl. split; [by rewrite HΔ, app_assoc|].
  apply Forall_app. by split.
Qed.

Lemma rel_set_files_alloc h (st0 s : State) fs v :
  imports_rel h st0 s → fs = files s →
  imports_rel h st0 (set_files (fs ++ [v]) s).
Proof.
  intros [L F ? ? N ? ?] ->. constructor; try done.
  - unfold len in *. simpl. rewrite length_app. lia.
  - intros q Hq Hne. simpl. rewrite lookup_app_l by (unfold len in *; lia). auto.
  - intros k p Hk. destruct (N k p Hk) as [? | [? ?]]; [by left | right].
    unfold len in *. simpl. rewrite length_app. lia.
Qed.

Lemma rel_set_files_update h (st0 s : State) fs p v :
  imports_rel h st0 s → fs = files s → Some p = h ∨ len st0 ≤ p →
  imports_rel h st0 (set_files (<[p := v]> fs) s).
Proof.
  intros [L F ? ? N ? ?] -> Hp. constructor; try done.
  - unfold len in *. simpl. by rewrite length_insert.
  - intros q Hq Hne. simpl. rewrite list_lookup_insert_ne; [auto|].
    intros ->. destruct Hp as [<- | ?]; [done | lia].
  - intros k q Hk. destruct (N k q Hk) as [? | [? ?]]; [by left | right].
    unfold len in *. simpl. by rewrite length_insert.
Qed.

Lemma rel_set_projects_alloc h (st0 s : State) l ps :
  imports_rel h st0 s → l = projects s →
  imports_rel h st0 (set_projects (l ++ ps) s).
Proof.
  intros [? ? P ? ? ? ?] ->. constructor; try done.
  intros Hk. simpl. etrans; [exact (P Hk)|]. by apply prefix_app_r.
Qed.

Lemma rel_set_cache h (st0 s : State) m k p :
  imports_rel h st0 s → m = importCache s → importCache st0 !! k = None →
  len st0 ≤ p → p < len s →
  imports_rel h st0 (set_importCache (<[k := p]> m) s).
Proof.
  intros [? ? ? C N ? ?] -> Hk Hp1 Hp2. constructor; try done.
  - intros k' q Hq. simpl. rewrite lookup_insert_ne; [auto | congruence].
  - intros k' q. simpl. rewrite lookup_insert. case_decide as Hkk.
    + intros [= <-]. by right.
    + apply N.
Qed.

Ltac rel_auto :=
  repeat first
    [ assumption
    | apply imports_rel_refl
    | apply rel_set_world
    | apply rel_set_sched
    | apply rel_set_graph
    | apply rel_set_resultErr
    | (apply rel_set_files_alloc; [| reflexivity])
    | (apply rel_set_projects_alloc; [| reflexivity])
    | (apply rel_set_trace; [| reflexivity | by repeat constructor])
    | (apply rel_set_files_update; [| reflexivity | simpl; auto; lia]) ].

(** ** Cache invariants follow the relation *)

Lemma cache_sep_rel h (st st' : State) :
  cache_sep h st → imports_rel h st st' →
  (∀ f, h = Some f → f < len st) →
  cache_sep h st'.
Proof.
  intros Hsep Hrel Hh k p Hk.
  pose proof (rel_len _ _ _ Hrel).
  destruct (rel_cache_new _ _ _ Hrel k p Hk) as [Hold | [? ?]].
  - destruct (Hsep k p Hold). split; [lia | done].
  - split; [done|]. intros <-. specialize (Hh p eq_refl). lia.
Qed.

Lemma cache_sep_host (st : State) f :
  cache_sep None st → len st ≤ f → cache_sep (Some f) st.
Proof.
  intros Hsep Hf k p Hk. destruct (Hsep k p Hk). split; [done|].
  intros [= ->]. lia.
Qed.

Lemma cache_sep_None h (st : State) : cache_sep h st → cache_sep None st.
Proof. intros Hsep k p Hk. destruct (Hsep k p Hk). by split. Qed.

Lemma ids_ok_same_cache track h (st st' : State) :
  ids_ok track st → cache_sep h st → imports_rel h st st' →
  importCache st' = importCache st → ids_ok track st'.
Proof.
  intros Hids Hsep Hrel Hc Hkeep k p Hk. rewrite Hc in Hk.
  destruct (Hids Hkeep k p Hk) as (v & Hv & Hid). exists v. split; [|done].
  destruct (Hsep k p Hk). rewrite <- Hv. by apply (rel_files _ _ _ Hrel).
Qed.

(** ** The goroutines of one file *)

Section Tracked.
(** [track] switches on the bookkeeping of source keys in [ID] fields,
  which needs merges to leave the [ID] of the host alone. *)
Context (track : Prop) (Hkeep : track → Merge_keeps_ID E).

Lemma run_goroutines_spec body :
task_ok track body → ∀ n pending merge (st : State),
cache_sep None st → ids_ok track st →
wp (run_goroutines body n pending merge)
   (λ merge' st',
      imports_rel None st st' ∧ ids_ok track st' ∧
      length merge' = length merge ∧
      (∀ i p, merge !! i = Some (Some p) → ∃ p', merge' !! i = Some (Some p')) ∧
      (∀ i p, merge' !! i = Some (Some p) →
         merge !! i = Some (Some p) ∨
         ∃ source, (source, i) ∈ pending ∧ importCache st' !! source = Some p) ∧
      (length pending ≤ n → ∀ source i, (source, i) ∈ pending →
         merge' !! i = Some None → is_Some (resultErr st'))) st.
Proof.
intros Hbody. induction n as [|n IH]; intros pending merge st Hsep Hids; simpl.
{ apply wp_ret. split; [apply imports_rel_refl|]. split; [done|].
  split; [done|]. split; [eauto|]. split; [auto|].
  intros Hlen source i Hin. destruct pending; [by apply elem_of_nil in Hin|].
  simpl in Hlen. lia. }
wp_next. intros i r Hi.
assert (Hrel0 : imports_rel None st (set_sched r st)) by rel_auto.
destruct (pending !! i) as [[source idx]|] eqn:Hpick.
2: { apply wp_ret. split; [done|]. split; [done|]. split; [done|].
     split; [eauto|]. split; [auto|].
     intros Hlen source j Hin _. exfalso.
     apply lookup_ge_None in Hpick.
     destruct pending; [by apply elem_of_nil in Hin|]. simpl in *. lia. }
apply wp_bind. eapply wp_mono; [apply (Hbody source idx merge (set_sched r st)); done|].
intros merge1 st1 (Hrel1 & Hids1 & Htask).
assert (Hsep1 : cache_sep None st1)
  by (apply (cache_sep_rel None (set_sched r st) st1); [exact Hsep | exact Hrel1 | done]).
eapply wp_mono; [apply (IH (delete i pending) merge1 st1); done|].
intros merge' st' (Hrel & Hids' & Hlen & Hstay & Hprov & Hfail).
assert (Hrel01 : imports_rel None st st1)
  by (eapply imports_rel_trans; [exact Hrel0 | exact Hrel1 | done]).
split; [eapply imports_rel_trans; [exact Hrel01 | exact Hrel | done]|].
split; [done|].
assert (Hlen1 : length merge1 = length merge).
{ destruct Htask as [[-> _] | (p & -> & _)]; [done | by rewrite length_insert]. }
split; [congruence|].
assert (Hstay1 : ∀ j p, merge !! j = Some (Some p) → ∃ p', merge1 !! j = Some (Some p')).
{ intros j p Hj. destruct Htask as [[-> _] | (p0 & -> & _)]; [eauto|].
  destruct (decide (idx = j)) as [-> | Hne].
  - exists p0. apply list_lookup_insert_eq. by eapply lookup_lt_Some.
  - exists p. by rewrite list_lookup_insert_ne. }
split.
{ intros j p Hj. destruct (Hstay1 j p Hj) as [p1 Hp1]. eauto. }
split.
{ intros j p Hj. destruct (Hprov j p Hj) as [Hold | (s & Hin & Hp)].
  - destruct Htask as [[-> _] | (p0 & -> & Hp0)]; [by left|].
    destruct (decide (idx = j)) as [-> | Hne].
    + assert (j < length merge) by (apply lookup_lt_Some in Hold;
        by rewrite length_insert in Hold).
      rewrite list_lookup_insert_eq in Hold by done. injection Hold as <-.
      right. exists source. split; [by eapply list_elem_of_lookup_2|].
      by apply (rel_cache _ _ _ Hrel).
    + left. by rewrite list_lookup_insert_ne in Hold.
  - right. exists s. split; [by eapply list_elem_of_delete_inv | done]. }
intros Hn s j Hin Hnone.
assert (Hperm := delete_Permutation pending i (source, idx) Hpick).
rewrite Hperm in Hin. apply elem_of_cons in Hin as [[= -> ->] | Hin].
- destruct Htask as [[-> Herr] | (p0 & -> & _)].
  + by apply (rel_err _ _ _ Hrel).
  + assert (idx < length merge).
    { apply lookup_lt_Some in Hnone. rewrite Hlen, length_insert in Hnone. done. }
    destruct (Hstay idx p0) as [p' Hp']; [by apply list_lookup_insert_eq|].
    congruence.
- apply (Hfail) with s j; [|done|done].
  rewrite length_delete by eauto. lia.
Qed.

(** ** downloadSingle *)

Lemma task_exit_fail (st st' : State) (result : list (option ptr)) idx source :
cache_sep None st → ids_ok track st →
imports_rel None st st' → importCache st' = importCache st →
is_Some (resultErr st') →
imports_rel None st st' ∧ ids_ok track st' ∧
((result = result ∧ is_Some (resultErr st')) ∨
 (∃ p, result = <[idx := Some p]> result ∧ importCache st' !! source = Some p)).
Proof.
intros Hsep Hids Hrel Hc Herr. split; [done|].
split; [by eapply ids_ok_same_cache|]. by left.
Qed.

Lemma downloadSingle_task_ok rec :
import_ok track rec → task_ok track (downloadSingle E c rec).
Proof.
intros Hrec source idx result st Hsep Hids. unfold downloadSingle.
wp_next. destruct (importCache st !! source) as [cached|] eqn:Hc.
{ wp_prim. split; [rel_auto|]. split; [done|]. right. by exists cached. }
wp_next. intros w Δ HΔ.
assert (HΔ' : Forall (import_event None (len st)) Δ).
{ eapply Forall_impl; [exact HΔ|]. by intros ? ->. }
wp_next. wp_next. intros r w1 _. destruct r as [err|].
{ wp_next. wp_prim. apply task_exit_fail; [done | done | rel_auto | done | by eexists]. }
wp_next.
match goal with |- wp _ _ ?s => destruct (storage_Dir (importStorage c) source (world s))
  as [dir|err] end.
2: { wp_next. wp_prim. apply task_exit_fail; [done | done | rel_auto | done | by eexists]. }
wp_next. wp_next.
match goal with |- wp _ _ ?s => destruct (ParseFile E (filepath_Join dir "Appfile") (world s))
  as [parsed|err] end.
2: { wp_next. wp_prim. apply task_exit_fail; [done | done | rel_auto | done | by eexists]. }
match goal with |- wp _ _ ?s => set (s2 := s) end.
assert (R2 : imports_rel None st s2) by (unfold s2; rel_auto).
assert (L2 : len s2 = len st) by done.
assert (C2 : importCache s2 = importCache st) by done.
clearbody s2.
wp_next. intros ps v _. rewrite L2.
wp_next. intros v1 Hv1. simpl in Hv1. 
assert (v1 = v) as ->.
{ rewrite <- L2 in Hv1. by apply lookup_snoc_new in Hv1. }
match goal with |- wp _ _ ?s => set (s4 := s) end.
assert (R4 : imports_rel None st s4) by (unfold s4; rel_auto).
assert (L4 : len s4 = S (len st)).
{ unfold s4, len; simpl. rewrite length_insert, length_app. simpl.
  unfold len in L2. lia. }
assert (F4 : files s4 !! len st = Some (File.set_ID source v)).
{ unfold s4; simpl. rewrite insert_snoc by done. by apply list_lookup_middle. }
assert (C4 : importCache s4 = importCache st) by done.
clearbody s4.
apply wp_bind. eapply wp_mono.
{ apply (Hrec source (len st) s4); [lia | |by eapply ids_ok_same_cache].
  intros k p Hk. rewrite C4 in Hk. destruct (Hsep k p Hk). split; [lia|].
  intros [= ->]. lia. }
intros ok s5 (R5 & Hids5 & Herr5 & Hid5).
assert (R05 : imports_rel None st s5).
{ eapply imports_rel_trans; [exact R4 | exact R5 |]. intros f [= <-]. by right. }
pose proof (rel_len _ _ _ R5) as L5.
destruct ok.
- wp_next. wp_prim.
  assert (R6 : imports_rel None st
                 (set_importCache (<[source:=len st]> (importCache s5)) s5)).
  { apply rel_set_cache; [done | done | done | done | lia]. }
  split; [done|]. split.
  + intros Ht k p. simpl. rewrite lookup_insert. case_decide as Hk.
    * intros [= <-]. subst k.
      destruct (lookup_lt_is_Some_2 (files s5) (len st)) as [v' Hv'];
        [unfold len in *; lia|].
      exists v'. split; [done|]. by rewrite (Hid5 Ht eq_refl _ _ F4 Hv').
    * intros Hp. by apply Hids5.
  + right. exists (len st). split; [done|]. simpl. by apply lookup_insert_eq.
- wp_prim. split; [done|]. split; [done|]. left. auto.
Qed.

(** ** One activation of importSingle *)

Lemma any_nil_true (l : list (option ptr)) :
any_nil l = true → ∃ i, l !! i = Some None.
Proof.
induction l as [|[p|] l IH]; simpl; [done | | by exists 0].
intros H. destruct (IH H) as [i Hi]. by exists (S i).
Qed.

Lemma any_nil_false (l : list (option ptr)) :
any_nil l = false → ∀ i o, l !! i = Some o → ∃ p, o = Some p.
Proof.
induction l as [|[p|] l IH]; simpl; [done | | done].
intros H [|i] o Hi; simpl in Hi; [injection Hi as <-; eauto | eauto].
Qed.

Lemma tasks_index (tasks : list Task) s i j :
snd <$> tasks = seq 0 (length tasks) → tasks !! j = Some (s, i) → i = j.
Proof.
intros Hidx Hj.
assert ((snd <$> tasks) !! j = Some i) as Hi by (rewrite list_lookup_fmap; by rewrite Hj).
rewrite Hidx in Hi. apply lookup_seq in Hi. lia.
Qed.

Lemma tasks_lookup (tasks : list Task) i :
snd <$> tasks = seq 0 (length tasks) → i < length tasks →
∃ s, tasks !! i = Some (s, i).
Proof.
intros Hidx Hi. destruct (lookup_lt_is_Some_2 tasks i Hi) as [[s j] Hs].
exists s. pose proof (tasks_index tasks s j i Hidx Hs) as ->. exact Hs.
Qed.

Lemma start_and_wait_spec body parent f (st : State) :
task_ok track body → f < len st → cache_sep (Some f) st → ids_ok track st →
wp (start_and_wait E body parent f)
   (λ r s2,
      imports_rel None st s2 ∧ ids_ok track s2 ∧
      (r.1 = false ∨ any_nil r.2 = true → is_Some (resultErr s2)) ∧
      ∀ fv, files st !! f = Some fv →
        length r.2 = length (File.Imports fv) ∧
        (r.1 = true →
         ∃ keys, import_keys E (filepath_Dir E (File.Path fv)) (File.Imports fv) keys ∧
           ∀ i p, r.2 !! i = Some (Some p) →
             ∃ k, keys !! i = Some k ∧ importCache s2 !! k = Some p)) st.
Proof.
intros Hbody Hf Hsep Hids. unfold start_and_wait.
wp_next. intros fv Hfv.
apply wp_bind. eapply wp_mono; [apply start_downloads_spec|].
intros [ok tasks] s1 (Hloc & Herr & Hidx & Hkeys). simpl in *.
assert (R1 : imports_rel None st s1) by (by apply only_locals_rel).
assert (C1 : importCache s1 = importCache st) by apply Hloc.
apply wp_bind. eapply wp_mono.
{ apply (run_goroutines_spec body Hbody (length tasks) tasks
           (replicate (length (File.Imports fv)) None) s1).
  - eapply cache_sep_rel; [by eapply cache_sep_None | done | done].
  - apply (ids_ok_same_cache track (Some f) st s1);
      [done | done | by apply only_locals_rel | done]. }
intros merge s2 (R2 & Hids2 & Hlen & _ & Hprov & Hfail).
rewrite length_replicate in Hlen.
apply wp_ret. simpl.
split; [eapply imports_rel_trans; [exact R1 | exact R2 | done]|].
split; [done|]. split.
- intros [-> | Hnil]; [by apply (rel_err _ _ _ R2), Herr|].
  destruct ok; [|by apply (rel_err _ _ _ R2), Herr].
  specialize (Hkeys eq_refl). apply Forall2_length in Hkeys.
  rewrite length_fmap in Hkeys.
  apply any_nil_true in Hnil as [i Hi].
  assert (i < length tasks) as Hlt.
  { apply lookup_lt_Some in Hi. lia. }
  destruct (tasks_lookup tasks i Hidx Hlt) as [s Hs].
  apply (Hfail (le_n _) s i); [by eapply list_elem_of_lookup_2 | done].
- intros fv' Hfv'. pose proof (eq_trans (eq_sym Hfv) Hfv') as [= <-].
  split; [done|]. intros ->. specialize (Hkeys eq_refl).
  exists (fst <$> tasks). split; [done|].
  intros i p Hi. destruct (Hprov i p Hi) as [Hrep | (s & Hin & Hc)].
  { apply lookup_replicate in Hrep as [? _]. done. }
  exists s. split; [|done].
  apply list_elem_of_lookup in Hin as [j Hj].
  rewrite (tasks_index tasks s i j Hidx Hj).
  rewrite list_lookup_fmap. by rewrite Hj.
Qed.

Lemma merged_into_cons f e Δ :
merged_into f (e :: Δ) =
  match e with
  | EvMerge h src _ => if decide (h = f) then src :: merged_into f Δ
                       else merged_into f Δ
  | _ => merged_into f Δ
  end.
Proof.
unfold merged_into. destruct e; try done.
change (omap ?g (?x :: ?l)) with (match g x with Some y => y :: omap g l
                                  | None => omap g l end).
cbv beta iota. by case_decide.
Qed.

Lemma merged_into_none f base Δ :
Forall (import_event None base) Δ → f < base → merged_into f Δ = [].
Proof.
intros Hall Hf. induction Hall as [|e Δ He _ IH]; [done|].
rewrite merged_into_cons, IH.
destruct e; try done. simpl in He. destruct He as [? | ?]; [done|].
by rewrite decide_False by lia.
Qed.

Lemma merged_into_app f Δ1 Δ2 :
merged_into f (Δ1 ++ Δ2) = merged_into f Δ1 ++ merged_into f Δ2.
Proof. apply omap_app. Qed.

Lemma merged_into_all f Δ : ∀ keys,
length Δ = length keys →
(∀ i e, Δ !! i = Some e → ∃ k o, e = EvMerge f k o ∧ keys !! i = Some k) →
merged_into f Δ = keys.
Proof.
induction Δ as [|e Δ IH]; intros [|k keys] Hlen Hall; try done.
destruct (Hall 0 e eq_refl) as (k' & o & -> & [= <-]).
rewrite merged_into_cons, decide_True by done. f_equal.
apply IH; [simpl in Hlen; lia|]. intros i e He. by apply (Hall (S i)).
Qed.

Lemma importSingle_body_spec body parent f (st : State) :
task_ok track body → f < len st → cache_sep (Some f) st → ids_ok track st →
wp (importSingle_body E body parent f)
   (λ ok st',
      imports_rel (Some f) st st' ∧ ids_ok track st' ∧
      (ok = false → is_Some (resultErr st')) ∧
      (track → ok = true → ∀ v v', files st !! f = Some v →
         files st' !! f = Some v' → File.ID v' = File.ID v) ∧
      (ok = true → track → ∀ fv, files st !! f = Some fv →
         ∃ Δfetch Δmerge,
           trace st' = trace st ++ Δfetch ++ Δmerge ∧
           merged_into f Δfetch = [] ∧
           Forall (merge_of_cached f st') Δmerge ∧
           import_keys E (filepath_Dir E (File.Path fv)) (File.Imports fv)
             (merged_into f Δmerge))) st.
Proof.
intros Hbody Hf Hsep Hids. unfold importSingle_body.
apply wp_bind. eapply wp_mono; [by apply start_and_wait_spec|].
intros [ok merge] s2 (R2 & Hids2 & Herr2 & Hdet). simpl in *.
assert (Hsep2 : cache_sep (Some f) s2).
{ eapply cache_sep_rel; [exact Hsep | by apply imports_rel_host |].
  by intros ? [= <-]. }
assert (Hsame : files s2 !! f = files st !! f) by (by apply (rel_files _ _ _ R2)).
pose proof (rel_len _ _ _ R2) as L2.
assert (Hstop : is_Some (resultErr s2) →
          imports_rel (Some f) st s2 ∧ ids_ok track s2 ∧
          (false = false → is_Some (resultErr s2)) ∧
          (track → false = true → ∀ v v', files st !! f = Some v →
             files s2 !! f = Some v' → File.ID v' = File.ID v) ∧
          (false = true → track → ∀ fv, files st !! f = Some fv →
             ∃ Δfetch Δmerge,
               trace s2 = trace st ++ Δfetch ++ Δmerge ∧
               merged_into f Δfetch = [] ∧
               Forall (merge_of_cached f s2) Δmerge ∧
               import_keys E (filepath_Dir E (File.Path fv)) (File.Imports fv)
                 (merged_into f Δmerge))).
{ intros He. split; [by apply imports_rel_host|]. split; [done|].
  split; [done|]. split; done. }
destruct ok; [|apply wp_ret, Hstop; auto].
unfold after_wait. destruct (any_nil merge) eqn:Hnil; [apply wp_ret, Hstop; auto|].
destruct (lookup_lt_is_Some_2 (files st) f Hf) as [fv Hfv].
destruct (Hdet fv Hfv) as [Hlen [keys [Hkeys Hslots]]]; [done|].
eapply wp_mono.
{ apply (merge_imports_spec f merge s2); [lia|].
  intros p [i Hi]%list_elem_of_lookup.
  destruct (Hslots i p Hi) as (k & _ & Hc). destruct (Hsep2 k p Hc) as [? ?].
  split; [done | congruence]. }
intros ok s3 (R3 & C3 & Herr3 & Hid3 & Δm & Htr & Hev & Hall).
split; [eapply imports_rel_trans; [by apply imports_rel_host | exact R3 | auto]|].
split; [by eapply ids_ok_same_cache|]. split; [done|]. split.
{ intros Ht Hok v v' Hv Hv'. rewrite <- Hsame in Hv. by apply (Hid3 (Hkeep Ht) Hok). }
intros -> Ht fv' Hfv'. pose proof (eq_trans (eq_sym Hfv) Hfv') as [= <-].
destruct (rel_trace _ _ _ R2) as (Δt & Htr2 & Hall2).
exists Δt, Δm. split; [by rewrite Htr, Htr2, <- app_assoc|].
split; [by apply (merged_into_none f (len st))|]. split.
{ apply Forall_forall. intros e [i He]%list_elem_of_lookup.
  destruct (Hev i e He) as (p & v & Hp & Hv & ->).
  destruct (Hslots i p Hp) as (k & Hk & Hc).
  destruct (Hids2 Ht k p Hc) as (v' & Hv' & Hid).
  pose proof (eq_trans (eq_sym Hv) Hv') as [= <-].
  destruct (Hsep2 k p Hc) as [Hlt Hne].
  exists k, p, v. split; [by rewrite C3|]. split; [|by rewrite Hid].
  rewrite <- Hv. apply (rel_files _ _ _ R3); [done | congruence]. }
rewrite (merged_into_all f Δm keys); [done | |].
{ rewrite Hall by done. rewrite Hlen. by eapply Forall2_length. }
intros i e He. destruct (Hev i e He) as (p & v & Hp & Hv & ->).
destruct (Hslots i p Hp) as (k & Hk & Hc).
destruct (Hids2 Ht k p Hc) as (v' & Hv' & Hid).
exists (File.ID v), (File.set_Path "" (File.set_ID "" v)). split; [done|].
pose proof (eq_trans (eq_sym Hv) Hv') as [= <-]. by rewrite Hid.
Qed.

(** Every depth of recursion meets the specification. *)
Lemma importSingle_ok fuel : import_ok track (importSingle E c fuel).
Proof.
induction fuel as [|n IH]; intros parent f st Hf Hsep Hids; simpl; [done|].
eapply wp_mono.
{ apply importSingle_body_spec; [by apply downloadSingle_task_ok | done..]. }
intros ok st' (? & ? & ? & ? & _). done.
Qed.

End Tracked.

(** ** Import resolution: the claims *)

Lemma any_nil_elem (l : list (option ptr)) : None ∈ l → any_nil l = true.
Proof.
  induction l as [|[p|] l IH]; intros Hin; simpl; [by apply elem_of_nil in Hin | | done].
  apply elem_of_cons in Hin as [? | ?]; [done | auto].
Qed.

(** C2.  Let [F] be a file whose import resolution succeeds (the call
    of importSingle on it returns true), under any order [order] in which
    the scheduler lets the download goroutines run.  Then the part of the
    trace this call adds splits in two: first the downloads, with no
    merge into [F] among them, then nothing but merges into [F]; and the
    sources of these merges are, in this order, the canonical keys of
    [F.Imports] in declaration order.  It is assumed that the cache is
    well formed (which the compiler maintains from the empty cache on)
    and that merging a file with cleared [ID] keeps the [ID] of the
    host, which carries the source key. *)
Theorem C2_merge_order
    (fuel : nat) (parent : string) (f : ptr) (order : list nat)
    (st st' : State) (fv : File.t) :
  Merge_keeps_ID E →
  cache_sep (Some f) st → cache_ids st →
  files st !! f = Some fv →
  importSingle E c fuel parent f (set_sched order st) = Done true st' →
  ∃ Δfetch Δmerge,
    trace st' = trace st ++ Δfetch ++ Δmerge ∧
    merged_into f Δfetch = [] ∧
    (∀ e, e ∈ Δmerge → ∃ k o, e = EvMerge f k o) ∧
    import_keys E (filepath_Dir E (File.Path fv)) (File.Imports fv)
      (merged_into f Δmerge).
Proof.
  intros Hkeep Hsep Hids Hfv Hrun.
  destruct fuel as [|n]; [done|]. simpl in Hrun.
  assert (Hf : f < len st) by (by eapply lookup_lt_Some).
  eapply wp_done in Hrun.
  2: { apply (importSingle_body_spec True (λ _, Hkeep));
         [apply downloadSingle_task_ok, (importSingle_ok True (λ _, Hkeep))
         | exact Hf | exact Hsep | by intros _]. }
  destruct Hrun as (_ & _ & _ & _ & Hmerge).
  destruct (Hmerge eq_refl I fv Hfv) as (Δfetch & Δmerge & HT & Hnone & Hall & Hkeys).
  exists Δfetch, Δmerge. split; [done|]. split; [done|]. split; [|done].
  intros e He. rewrite Forall_forall in Hall.
  destruct (Hall e He) as (k & p & v & _ & _ & ->). eauto.
Qed.

(** C4.  Take any host file [f] and let the first part of importSingle
    (starting the downloads and waiting for them) end with some slot of
    the merge slice still nil.  Then importSingle returns false in the
    very state the wait ended in: the error accumulator is set, the host
    file is as it was before the call, and the trace of the call holds no
    merge into the host.  If the host is the root of compileImports, the
    accumulated error is what compileImports returns. *)
Theorem C4_no_partial_merge
    (fuel : nat) (parent : string) (f : ptr) (st s2 : State)
    (ok : bool) (merge : list (option ptr)) :
  cache_sep (Some f) st →
  start_and_wait E (downloadSingle E c (importSingle E c fuel)) parent f st
    = Done (ok, merge) s2 →
  None ∈ merge →
  importSingle E c (S fuel) parent f st = Done false s2 ∧
  is_Some (resultErr s2) ∧
  files s2 !! f = files st !! f ∧
  (∃ Δ, trace s2 = trace st ++ Δ ∧ merged_into f Δ = []) ∧
  (∀ st0, st = set_resultErr None (set_graph (dag.Add "root" dag.empty) st0) →
          parent = "root" →
          compileImports E c (S fuel) f st0 = Done (resultErr s2) s2).
Proof.
  intros Hsep Hwait Hnil.
  assert (Hrun : importSingle E c (S fuel) parent f st = Done false s2).
  { simpl. unfold importSingle_body, mbind, M_bind. rewrite Hwait.
    unfold after_wait. rewrite (any_nil_elem _ Hnil). by destruct ok. }
  assert (Hf : f < len st).
  { unfold start_and_wait, mbind, M_bind, get_file in Hwait.
    destruct (files st !! f) eqn:Hfv; [|done]. by eapply lookup_lt_Some. }
  eapply wp_done in Hwait.
  2: { apply (start_and_wait_spec False);
         [apply downloadSingle_task_ok, (importSingle_ok False (False_rect _))
         | exact Hf | exact Hsep | by intros []]. }
  destruct Hwait as (Hrel & _ & Herr & Hlen).
  simpl in Herr, Hlen.
  split; [done|]. split; [apply Herr; right; by apply any_nil_elem|].
  split; [by apply (rel_files _ _ _ Hrel)|]. split.
  { destruct (rel_trace _ _ _ Hrel) as (Δ & HΔ & Hall).
    exists Δ. split; [done|]. by apply (merged_into_none f (len st)). }
  intros st0 -> ->. unfold compileImports.
  destruct (lookup_lt_is_Some_2 (files st0) f Hf) as [fv Hfv].
  unfold mbind at 1. unfold M_bind, get_file. rewrite Hfv.
  destruct (Hlen fv Hfv) as [Hl _].
  rewrite decide_False.
  2: { intros H0. rewrite H0 in Hl. destruct merge; [by apply elem_of_nil in Hnil | done]. }
  unfold mbind, M_bind, init_locals.
  by rewrite Hrun.
Qed.



(** X24.  Import resolution leaves the structs of cached files alone:
    whatever [compileImports] returns for a file that is not itself in
    the cache, every entry of the cache still maps its key to the same
    pointer afterwards, and the [File] struct behind that pointer, with
    its [ID] and [Path], is the same as before. *)
Theorem compileImports_keeps_cached_structs
    (fuel : nat) (root : ptr) (st st' : State) (r : option error) :
  cache_sep (Some root) st →
  compileImports E c fuel root st = Done r st' →
  ∀ k p, importCache st !! k = Some p →
    importCache st' !! k = Some p ∧ files st' !! p = files st !! p.
Proof.
  intros Hsep Hrun k p Hk. unfold compileImports in Hrun.
  apply bind_done in Hrun as (rootv & st1 & Hget & Hrun).
  unfold get_file in Hget. destruct (files st !! root) eqn:Hroot; [|done].
  injection Hget as <- <-.
  case_decide; [by injection Hrun as <- <-|].
  apply bind_done in Hrun as ([] & st1 & Hinit & Hrun).
  injection Hinit as <-.
  apply bind_done in Hrun as (ok & st2 & Hrun & Hres).
  injection Hres as <- <-.
  assert (Hf : root < len st) by (by eapply lookup_lt_Some).
  eapply wp_done in Hrun.
  2: { apply (importSingle_ok False (False_rect _)); [exact Hf | exact Hsep | by intros []]. }
  destruct Hrun as (Hrel & _).
  split; [by apply (rel_cache _ _ _ Hrel)|].
  destruct (Hsep k p Hk). by apply (rel_files _ _ _ Hrel).
Qed.

(** ** Dependency compilation: the relation *)

Lemma proj_rel_refl i l : proj_rel i l l.
Proof. intros p x Hx. exists x. auto. Qed.

Lemma proj_rel_trans i l1 l2 l3 :
  proj_rel i l1 l2 → proj_rel i l2 l3 → proj_rel i l1 l3.
Proof.
  intros H1 H2 p x Hx. destruct (H1 p x Hx) as (x1 & Hx1 & Hs1).
  destruct (H2 p x1 Hx1) as (x2 & Hx2 & Hs2). exists x2. split; [done|].
  destruct Hs1 as [-> | ->], Hs2 as [-> | ->]; auto.
Qed.

Lemma root_wf_step i rootf (st st' : State) :
  root_wf i rootf st →
  (∀ q, q < len st → files st' !! q = files st !! q) →
  proj_rel i (projects st) (projects st') →
  root_wf i rootf st'.
Proof.
  intros (Hk & rootv & Hroot & Hproj) Hfiles Hp. split; [done|]. exists rootv. split.
  - rewrite Hfiles; [done|]. by eapply lookup_lt_Some.
  - intros rp Hrp. destruct (Hproj rp Hrp) as (rx & Hrx & Hi).
    destruct (Hp rp rx Hrx) as (rx' & Hrx' & [-> | ->]); eauto.
Qed.

Lemma deps_rel_refl i rootf (st : State) : deps_rel i rootf st st.
Proof.
  constructor; auto using proj_rel_refl.
  exists []. by rewrite app_nil_r.
Qed.

Lemma deps_rel_root_wf i rootf (st st' : State) :
  deps_rel i rootf st st' → root_wf i rootf st → root_wf i rootf st'.
Proof.
  intros [L F P C T] Hwf. eapply root_wf_step; eauto.
Qed.

Lemma deps_rel_trans i rootf (st st1 st2 : State) :
  deps_rel i rootf st st1 → deps_rel i rootf st1 st2 → deps_rel i rootf st st2.
Proof.
  intros H1 H2. pose proof (deps_rel_root_wf _ _ _ _ H1) as Hwf.
  destruct H1 as [L1 F1 P1 C1 (Δ1 & T1 & E1)], H2 as [L2 F2 P2 C2 (Δ2 & T2 & E2)].
  constructor.
  - lia.
  - intros q Hq. rewrite F2, F1; [done | done | lia].
  - intros Hw. eapply proj_rel_trans; eauto.
  - auto.
  - exists (Δ1 ++ Δ2). split; [by rewrite T2, T1, app_assoc|].
    apply Forall_app. by split.
Qed.

Lemma dep_outcome_trans i rootf (st st1 st2 : State) err :
  deps_rel i rootf st st1 → dep_outcome i rootf st1 st2 err →
  dep_outcome i rootf st st2 err.
Proof.
  intros H1 [H2 | (s & key & H2 & -> & ->)].
  - left. by eapply deps_rel_trans.
  - right. exists s, key. split; [by eapply deps_rel_trans | done].
Qed.

Lemma dep_outcome_ok i rootf (st st' : State) :
  dep_outcome i rootf st st' None → deps_rel i rootf st st'.
Proof. by intros [? | (? & ? & _ & _ & ?)]. Qed.

Lemma drel_set_world i rootf (st0 s : State) w :
  deps_rel i rootf st0 s → deps_rel i rootf st0 (set_world w s).
Proof. intros []. by constructor. Qed.

Lemma drel_set_trace i rootf (st0 s : State) tr Δ' :
  deps_rel i rootf st0 s → tr = trace s → Forall dep_event Δ' →
  deps_rel i rootf st0 (set_trace (tr ++ Δ') s).
Proof.
  intros [? ? ? ? (Δ & HΔ & Hall)] -> He. constructor; try done.
  exists (Δ ++ Δ'). simpl. split; [by rewrite HΔ, app_assoc|].
  apply Forall_app. by split.
Qed.

Lemma drel_set_files_alloc i rootf (st0 s : State) fs v :
  deps_rel i rootf st0 s → fs = files s →
  deps_rel i rootf st0 (set_files (fs ++ [v]) s).
Proof.
  intros [L F ? C ?] ->. constructor; try done.
  - unfold len in *. simpl. rewrite length_app. lia.
  - intros q Hq. simpl. rewrite lookup_app_l by (unfold len in *; lia). auto.
  - intros Hc k p Hk. destruct (C Hc k p Hk) as [? _]. split; [|done].
    unfold len in *. simpl. rewrite length_app. lia.
Qed.

Lemma drel_set_files_update i rootf (st0 s : State) fs p v :
  deps_rel i rootf st0 s → fs = files s → len st0 ≤ p →
  deps_rel i rootf st0 (set_files (<[p := v]> fs) s).
Proof.
  intros [L F ? C ?] -> Hp. constructor; try done.
  - unfold len in *. simpl. by rewrite length_insert.
  - intros q Hq. simpl. rewrite list_lookup_insert_ne by lia. auto.
  - intros Hc k q Hk. destruct (C Hc k q Hk) as [? _]. split; [|done].
    unfold len in *. simpl. by rewrite length_insert.
Qed.

Lemma drel_set_projects_alloc i rootf (st0 s : State) l ps :
  deps_rel i rootf st0 s → l = projects s →
  deps_rel i rootf st0 (set_projects (l ++ ps) s).
Proof.
  intros [? ? P ? ?] ->. constructor; try done.
  intros Hw p x Hx. destruct (P Hw p x Hx) as (x' & Hx' & Hs).
  exists x'. split; [|done]. simpl. by apply lookup_app_l_Some.
Qed.

(** A write to a project is fine when it stores [i], the infrastructure
    of the root project. *)
Lemma drel_set_projects_update i rootf (st0 s : State) l p x v :
  deps_rel i rootf st0 s → l = projects s →
  projects s !! p = Some x →
  (root_wf i rootf st0 → v = Project.set_Infrastructure i x) →
  deps_rel i rootf st0 (set_projects (<[p := v]> l) s).
Proof.
  intros [? ? P ? ?] -> Hx Hv. constructor; try done.
  intros Hw q y Hy. destruct (P Hw q y Hy) as (y' & Hy' & Hs).
  rewrite (Hv Hw). simpl.
  destruct (decide (p = q)) as [-> | Hne].
  - exists (Project.set_Infrastructure i x). split.
    + apply list_lookup_insert_eq. by eapply lookup_lt_Some.
    + pose proof (eq_trans (eq_sym Hx) Hy') as [= ->].
      destruct Hs as [-> | ->]; auto.
  - exists y'. split; [by rewrite list_lookup_insert_ne | done].
Qed.

Lemma import_event_dep h base e : import_event h base e → dep_event e.
Proof. destruct e as [[]| | | | | | | | | | | | | |]; simpl; auto. Qed.

(** Import resolution on a host allocated after [st0] fits in. *)
Lemma drel_imports i rootf (st0 s s' : State) f g :
  deps_rel i rootf st0 s →
  imports_rel (Some f) (set_resultErr None (set_graph g s)) s' →
  len st0 ≤ f → f < len s →
  (cache_sep None st0 → cache_sep (Some f) s) →
  deps_rel i rootf st0 s'.
Proof.
  intros [L0 F0 P0 C0 (Δ0 & T0 & E0)] Hrel Hf Hf' Hsep.
  pose proof Hrel as [L F P C N (Δ & T & Ev) _].
  unfold len in *. simpl in *.
  constructor; unfold len.
  - lia.
  - intros q Hq. rewrite F, F0; [done | done | lia |].
    intros [= ->]. lia.
  - intros Hw p x Hx. destruct (P0 Hw p x Hx) as (x' & Hx' & Hs).
    exists x'. split; [|done]. eapply prefix_lookup_Some; [done|]. apply P, Hw.
  - intros Hc. eapply cache_sep_None, cache_sep_rel; [| exact Hrel |].
    + by apply Hsep.
    + by intros ? [= <-].
  - exists (Δ0 ++ Δ). split; [by rewrite T, T0, app_assoc|].
    apply Forall_app. split; [done|].
    eapply Forall_impl; [exact Ev|]. intros e. apply import_event_dep.
Qed.

Ltac drel_auto :=
  repeat first
    [ assumption
    | apply deps_rel_refl
    | apply drel_set_world
    | (apply drel_set_files_alloc; [| reflexivity])
    | (apply drel_set_projects_alloc; [| reflexivity])
    | (apply drel_set_trace; [| reflexivity | by repeat constructor])
    | (apply drel_set_files_update; [| reflexivity | simpl; lia]) ].

(** ** Dependency compilation: the steps of one dependency *)

Lemma len_set_trace t (s : State) : len (set_trace t s) = len s.
Proof. done. Qed.
Lemma len_set_projects l (s : State) : len (set_projects l s) = len s.
Proof. done. Qed.

Lemma wp_read_data p (Q : FileData → State → Prop) st :
  (∀ d, Q d st) → wp (read_data p) Q st.
Proof.
  intros H. unfold read_data. wp_next. intros v _.
  destruct (File.Project v); [|by wp_prim].
  wp_next. intros x _. by wp_prim.
Qed.

Lemma compileImports_spec fuel f (st : State) :
  f < len st → cache_sep (Some f) st →
  wp (compileImports E c fuel f)
     (λ r st',
        (r = None ∧ st' = st) ∨
        (∃ g, imports_rel (Some f) (set_resultErr None (set_graph g st)) st' ∧
              r = resultErr st')) st.
Proof.
  intros Hf Hsep. unfold compileImports.
  wp_next. intros rootv _. case_decide; [wp_prim; by left|].
  apply wp_bind. unfold init_locals, wp at 1.
  apply wp_bind. eapply wp_mono.
  { apply (importSingle_ok False (False_rect _)); [exact Hf | exact Hsep | by intros []]. }
  intros ok st' (Hrel & _). unfold get_resultErr, wp. right. eauto.
Qed.

Section Deps.
Context (i : string) (root : CompiledGraphVertex.t).
Let rootf := CompiledGraphVertex.File root.

Lemma parse_if_exists_spec fuel key dir (st0 s : State) :
cache_sep None st0 → deps_rel i rootf st0 s →
wp (parse_if_exists E c fuel key dir)
   (λ r s', deps_rel i rootf st0 s' ∧
            ∀ f, r = Return (Some f) → len st0 ≤ f ∧ f < len s') s.
Proof.
intros Hc0 Hrel. unfold parse_if_exists.
wp_next. destruct (os_Stat E (filepath_Join dir "Appfile") (world s)).
2, 3: by wp_prim.
wp_next. wp_next.
match goal with |- wp _ _ ?s => destruct (ParseFile E (filepath_Join dir "Appfile") (world s))
  as [parsed|err] end.
2: { wp_prim. split; [drel_auto | done]. }
wp_next. intros ps v _. rewrite len_set_trace.
match goal with |- wp _ _ ?s => set (s2 := s) end.
assert (R2 : deps_rel i rootf st0 s2) by (unfold s2; drel_auto).
assert (L2 : len s2 = S (len s)).
{ unfold s2, len; simpl. rewrite length_app. simpl. lia. }
assert (C2 : importCache s2 = importCache s) by done.
clearbody s2.
pose proof (dr_len _ _ _ _ Hrel) as L.
assert (Hsep2 : cache_sep (Some (len s)) s2).
{ intros k p Hk. rewrite C2 in Hk.
  destruct (dr_cache _ _ _ _ Hrel Hc0 k p Hk) as [Hp _].
  split; [lia|]. intros [= ->]. lia. }
apply wp_bind. eapply wp_mono; [apply compileImports_spec; [lia | done]|].
intros r s3 Hr.
assert (R3 : deps_rel i rootf st0 s3 ∧ len s2 ≤ len s3).
{ destruct Hr as [[_ ->] | (g & Hi & _)]; [done|].
  split; [|apply (rel_len _ _ _ Hi)].
  eapply drel_imports; [exact R2 | exact Hi | lia | lia | done]. }
destruct R3 as [R3 L3].
destruct r; wp_prim; (split; [done|]); [done|].
intros f [= <-]. lia.
Qed.

Lemma run_loader_spec key dir f (st0 s : State) :
deps_rel i rootf st0 s →
(∀ p, f = Some p → len st0 ≤ p ∧ p < len s) →
wp (run_loader c key dir f)
   (λ r s', deps_rel i rootf st0 s' ∧
            ∀ p, r = Return (Some p) → len st0 ≤ p ∧ p < len s') s.
Proof.
intros Hrel Hf. unfold run_loader.
destruct (Loader (opts c)) as [loader|].
2: { wp_prim. split; [done|]. intros p [= ->]. auto. }
wp_next.
apply wp_bind.
assert (Harg : ∀ (Q : option FileData → State → Prop) st,
          (∀ a, Q a st) →
          wp (match f with
              | Some p => d ← read_data p; mret (Some d)
              | None => mret None
              end) Q st).
{ intros Q st HQ. destruct f; [|by wp_prim].
  apply wp_bind, wp_read_data. intros d. by wp_prim. }
apply Harg. intros arg.
wp_next. intros r w _. destruct r as [[d|]|err].
2, 3: wp_prim; split; [drel_auto | done].
apply wp_bind, wp_alloc_data. intros ps v _. wp_prim.
pose proof (dr_len _ _ _ _ Hrel) as L.
split; [drel_auto|]. intros p [= <-]. unfold len in *. simpl.
rewrite length_app. simpl. lia.
Qed.

Lemma propagate_root_spec f (st0 s : State) :
deps_rel i rootf st0 s → len st0 ≤ f →
wp (propagate_root root f)
   (λ _ s',
      deps_rel i rootf st0 s' ∧ len s ≤ len s' ∧
      (root_wf i rootf st0 →
       ∃ rootv fv,
         files s' !! rootf = Some rootv ∧ files s' !! f = Some fv ∧
         File.Infrastructure fv = File.Infrastructure rootv ∧
         (File.Project rootv ≠ None →
          ∃ p x, File.Project fv = Some p ∧ projects s' !! p = Some x ∧
                 Project.Infrastructure x = i))) s.
Proof.
intros Hrel Hf. unfold propagate_root. fold rootf.
wp_next. intros rootv Hrv.
wp_next. intros fv0 Hfv0.
match goal with |- wp _ _ ?s => set (s1 := s) end.
assert (R1 : deps_rel i rootf st0 s1) by (unfold s1; drel_auto).
assert (L1 : len s1 = len s) by (unfold s1, len; simpl; by rewrite length_insert).
assert (Hf1 : files s1 !! f = Some (File.set_Infrastructure (File.Infrastructure rootv) fv0)).
{ unfold s1; simpl. apply list_lookup_insert_eq. by eapply lookup_lt_Some. }
assert (Hne : root_wf i rootf st0 → rootf ≠ f).
{ intros (_ & ? & Hr & _). apply lookup_lt_Some in Hr. unfold len in *. lia. }
assert (Hr1 : rootf ≠ f → files s1 !! rootf = Some rootv).
{ intros ?. unfold s1; simpl. by rewrite list_lookup_insert_ne. }
clearbody s1.
wp_next. intros rootv2 Hrv2.
destruct (File.Project rootv2) as [rp|] eqn:Hrp.
2: { wp_prim. split; [done|]. split; [lia|]. intros Hw.
     specialize (Hr1 (Hne Hw)).
     pose proof (eq_trans (eq_sym Hr1) Hrv2) as [= <-].
     eexists _, _. split; [done|]. split; [done|]. split; [done|]. done. }
wp_next. intros fv1 Hfv1.
pose proof (eq_trans (eq_sym Hf1) Hfv1) as [= <-]. clear Hfv1.
apply wp_bind.
eapply (wp_mono _ (λ p s2,
          deps_rel i rootf st0 s2 ∧ len s ≤ len s2 ∧
          (∃ fv2, files s2 !! f = Some fv2 ∧ File.Project fv2 = Some p ∧
                  File.Infrastructure fv2 = File.Infrastructure rootv) ∧
          (rootf ≠ f → files s2 !! rootf = Some rootv2))).
{ destruct (File.Project (File.set_Infrastructure (File.Infrastructure rootv) fv0))
    as [p|] eqn:Hp.
  - wp_prim. split; [done|]. split; [lia|]. split; [eauto|]. auto.
  - wp_next. wp_next. intros fv' Hfv'. wp_prim.
    simpl in Hfv'. pose proof (eq_trans (eq_sym Hf1) Hfv') as [= <-].
    split; [drel_auto|]. split.
    { unfold len in *; simpl. rewrite length_insert. lia. }
    split.
    + exists (File.set_Project (Some (length (projects s1)))
                (File.set_Infrastructure (File.Infrastructure rootv) fv0)).
      split; [|done].
      simpl. apply list_lookup_insert_eq. by eapply lookup_lt_Some.
    + intros ?. simpl. by rewrite list_lookup_insert_ne. }
intros p s2 (R2 & L2 & (fv2 & Hfv2 & Hp2 & Hi2) & Hr2).
wp_next. intros rpv Hrpv.
wp_prim. intros x Hx.
assert (Hval : root_wf i rootf st0 → Project.Infrastructure rpv = i).
{ intros Hw. destruct (deps_rel_root_wf _ _ _ _ R2 Hw) as (_ & rootv' & Hroot' & Hproj).
  pose proof (eq_trans (eq_sym (Hr2 (Hne Hw))) Hroot') as [= <-].
  destruct (Hproj rp Hrp) as (rx & Hrx & <-).
  by pose proof (eq_trans (eq_sym Hrpv) Hrx) as [= <-]. }
split.
{ eapply drel_set_projects_update; [exact R2 | done | exact Hx |].
  intros Hw. by rewrite (Hval Hw). }
split; [done|].
intros Hw. exists rootv2, fv2. split; [by apply Hr2, Hne|]. split; [done|].
split.
{ rewrite Hi2. specialize (Hr1 (Hne Hw)).
  by pose proof (eq_trans (eq_sym Hr1) Hrv2) as [= <-]. }
intros _. exists p, (Project.set_Infrastructure (Project.Infrastructure rpv) x).
split; [done|]. split.
- simpl. apply list_lookup_insert_eq. by eapply lookup_lt_Some.
- simpl. by apply Hval.
Qed.

Lemma load_dependency_spec fuel key (st : State) :
cache_sep None st →
wp (load_dependency E c fuel root key)
   (λ r st',
      dep_outcome i rootf st st'
        (match r with ReturnErr e => Some e | Return _ => None end) ∧
      ∀ v, r = Return v →
        len st ≤ CompiledGraphVertex.File v ∧
        (root_wf i rootf st → good i rootf st' v)) st.
Proof.
intros Hc. unfold load_dependency.
wp_next. intros w Δ HΔ.
assert (HΔ' : Forall dep_event Δ).
{ eapply Forall_impl; [exact HΔ|]. by intros ? ->. }
wp_next. wp_next. intros r w1 _. destruct r as [err|].
{ wp_prim. split; [left; drel_auto | done]. }
wp_next.
match goal with |- wp _ _ ?s => destruct (storage_Dir (depStorage c) key (world s))
  as [dir|err] end.
2: { wp_prim. split; [left; drel_auto | done]. }
apply wp_bind. eapply wp_mono.
{ apply (parse_if_exists_spec fuel key dir st); [done | drel_auto]. }
intros rf s2 (R2 & Hfresh2). destruct rf as [f|err].
2: { wp_prim. split; [by left | done]. }
apply wp_bind. eapply wp_mono.
{ apply (run_loader_spec key dir f st s2); [done|]. intros p ->. by apply Hfresh2. }
intros rf s3 (R3 & Hfresh3). destruct rf as [f'|err].
2: { wp_prim. split; [by left | done]. }
wp_next. intros p ->. destruct (Hfresh3 p eq_refl) as [Hp Hp3].
wp_next. intros fv Hfv.
wp_next. intros fv' _.
wp_next.
match goal with |- wp _ _ ?s => destruct (File_hasID E fv' (world s))
  as [hasID|err] end.
2: { wp_prim. split; [left; drel_auto | done]. }
wp_next. destruct hasID; simpl negb; cbv iota.
2: { wp_prim. split; [|done]. right.
     eexists _, key. split; [|done]. drel_auto. }
apply wp_bind. eapply wp_mono.
{ apply (propagate_root_spec p st); [drel_auto | done]. }
intros [] s5 (R5 & L5 & Hgood).
wp_next. intros fv5 Hfv5. wp_prim.
split; [by left|]. intros v [= <-]. simpl. split; [done|].
intros Hw. destruct (Hgood Hw) as (rootv & fv6 & Hr & Hf6 & Hi & Hpr).
split; [by eapply lookup_lt_Some|]. exists rootv, fv6. done.
Qed.

Lemma good_step (st st' : State) v :
good i rootf st v → root_wf i rootf st → deps_rel i rootf st st' →
good i rootf st' v.
Proof.
intros (Hv & rootv & fv & Hr & Hf & Hi & Hp) Hw Hrel.
pose proof (dr_len _ _ _ _ Hrel). split; [lia|].
exists rootv, fv. split; [|split; [|split]].
- rewrite (dr_files _ _ _ _ Hrel); [done|]. by eapply lookup_lt_Some.
- by rewrite (dr_files _ _ _ _ Hrel).
- done.
- intros Hne. destruct (Hp Hne) as (p & x & Hfp & Hx & Hxi).
  destruct (dr_projects _ _ _ _ Hrel Hw p x Hx) as (x' & Hx' & [-> | ->]); eauto.
Qed.

Lemma vertices_Add {V} `{EqDecision V} (v v' : V) (g : dag.AcyclicGraph V) :
v' ∈ dag.vertices (dag.Add v g) → v' = v ∨ v' ∈ dag.vertices g.
Proof.
unfold dag.Add. case_decide; simpl; [auto|].
intros [? | ->%list_elem_of_singleton]%elem_of_app; auto.
Qed.

Lemma vertices_Connect {V} `{EqDecision V} (e : V * V) (g : dag.AcyclicGraph V) :
dag.vertices (dag.Connect e g) = dag.vertices g.
Proof. unfold dag.Connect. by case_decide. Qed.

Lemma graph_good_step g0 g (st st' : State) :
graph_good i rootf g0 g st → root_wf i rootf st → deps_rel i rootf st st' →
graph_good i rootf g0 g st'.
Proof.
intros Hg Hw Hrel v Hv. destruct (Hg v Hv) as [? | ?]; [by left | right].
by eapply good_step.
Qed.

Lemma each_dependency_spec fuel current g0 : ∀ deps s (st : State),
cache_sep None st →
wp (each_dependency E c fuel root current deps s)
   (λ r st',
      dep_outcome i rootf st st' r.1 ∧
      (r.1 = None → root_wf i rootf st →
       graph_good i rootf g0 (depGraph s) st →
       graph_good i rootf g0 (depGraph r.2) st')) st.
Proof.
induction deps as [|dep rest IH]; intros s st Hc; simpl.
{ wp_prim. split; [left; apply deps_rel_refl | auto]. }
wp_next. intros cur _.
destruct (getter_Detect E (Dependency.Source dep) (filepath_Dir E (File.Path cur)))
  as [key|err].
2: { wp_prim. split; [left; apply deps_rel_refl | done]. }
destruct (vertexMap s !! key) as [vertex|].
{ wp_next. eapply wp_mono; [by apply IH|].
  intros r st' (Hout & Hg). split; [done|].
  intros Hr Hw Hgood. apply Hg; [done | done |].
  intros v Hv. simpl in Hv. rewrite vertices_Connect in Hv. auto. }
apply wp_bind. apply wp_bind. eapply wp_mono; [by apply load_dependency_spec|].
intros v st1 (Hout & Hv). destruct v as [vertex|err].
2: { wp_prim. wp_prim. by split. }
wp_prim. apply dep_outcome_ok in Hout.
destruct (Hv vertex eq_refl) as [Hfresh Hgood1].
eapply wp_mono; [apply IH; by apply (dr_cache _ _ _ _ Hout)|].
intros r st' (Hout' & Hg). split; [by eapply dep_outcome_trans|].
intros Hr Hw Hgood.
apply Hg; [done | by eapply deps_rel_root_wf |].
intros v Hin. simpl in Hin. rewrite vertices_Connect in Hin.
apply vertices_Add in Hin as [-> | Hin]; [right; auto|].
by eapply graph_good_step.
Qed.

Lemma work_loop_spec fuel g0 : ∀ n s (st : State),
cache_sep None st →
wp (work_loop E c fuel n root s)
   (λ r st',
      dep_outcome i rootf st st' r.1 ∧
      (r.1 = None → root_wf i rootf st →
       graph_good i rootf g0 (depGraph s) st →
       graph_good i rootf g0 r.2 st')) st.
Proof.
induction n as [|n IH]; intros s st Hc; simpl.
{ destruct (last (queue s)); [done|].
  wp_prim. split; [left; apply deps_rel_refl | auto]. }
destruct (last (queue s)) as [current|].
2: { wp_prim. split; [left; apply deps_rel_refl | auto]. }
wp_next. intros cur _.
apply wp_bind. eapply wp_mono; [by apply (each_dependency_spec fuel current g0)|].
intros [err s1] st1 (Hout & Hg). simpl in *.
destruct err as [err|]; [wp_prim; by split|].
apply dep_outcome_ok in Hout.
eapply wp_mono; [apply IH; by apply (dr_cache _ _ _ _ Hout)|].
intros r st' (Hout' & Hg'). split; [by eapply dep_outcome_trans|].
intros Hr Hw Hgood. apply Hg'; [done | by eapply deps_rel_root_wf |].
by apply Hg.
Qed.

Lemma compileDependencies_spec fuel graph (st : State) :
cache_sep None st →
wp (compileDependencies E c fuel root graph)
   (λ r st',
      dep_outcome i rootf st st' r.1 ∧
      (r.1 = None → root_wf i rootf st →
       graph_good i rootf graph r.2 st')) st.
Proof.
intros Hc. unfold compileDependencies.
wp_next. intros rootv _.
destruct (getter_Detect E "." (filepath_Dir E (File.Path rootv))) as [key|err].
2: { wp_prim. split; [left; apply deps_rel_refl | done]. }
eapply wp_mono; [by apply (work_loop_spec fuel graph)|].
intros r st' (Hout & Hg). split; [done|].
intros Hr Hw. apply Hg; [done | done |]. intros v Hv. by left.
Qed.

End Deps.

(** X22.  How far the root configuration reaches when [Merge] leaves
    the [Project] structs that exist alone.  Let dependency compilation
    for the vertex [root] return without error, from a state whose cache
    holds allocated files and in which the project of the root file, if
    it has one, is allocated.  Then every vertex that the call added to
    the graph has a file whose infrastructure is the one of the root
    file, and if the root file has a project, the file of the vertex has
    one too, with the infrastructure of the root project.  (The root
    itself is never added by this call: the vertices it adds have files
    that it allocated.) *)
Theorem compileDependencies_propagates_root
    (fuel : nat) (root : CompiledGraphVertex.t)
    (graph graph' : dag.AcyclicGraph CompiledGraphVertex.t) (st st' : State) :
  Merge_keeps_projects E →
  cache_sep None st →
  (∀ rootv rp, files st !! CompiledGraphVertex.File root = Some rootv →
               File.Project rootv = Some rp → is_Some (projects st !! rp)) →
  compileDependencies E c fuel root graph st = Done (None, graph') st' →
  ∀ v, v ∈ dag.vertices graph' → v ∉ dag.vertices graph →
    ∃ rootv fv,
      files st' !! CompiledGraphVertex.File root = Some rootv ∧
      files st' !! CompiledGraphVertex.File v = Some fv ∧
      File.Infrastructure fv = File.Infrastructure rootv ∧
      (∀ rp, File.Project rootv = Some rp →
         ∃ p x rx, File.Project fv = Some p ∧
                   projects st' !! p = Some x ∧ projects st' !! rp = Some rx ∧
                   Project.Infrastructure x = Project.Infrastructure rx).
Proof.
  intros Hmerge Hc Hvalid Hrun v Hv Hnew.
  set (rootf := CompiledGraphVertex.File root) in *.
  assert (∃ rootv, files st !! rootf = Some rootv) as [rootv Hroot].
  { unfold compileDependencies in Hrun. apply bind_done in Hrun as (x & ? & Hget & _).
    unfold get_file in Hget. destruct (files st !! rootf) eqn:Hr; [eauto|].
    unfold rootf in Hr. by rewrite Hr in Hget. }
  set (i := match File.Project rootv with
            | Some rp => match projects st !! rp with
                         | Some rx => Project.Infrastructure rx
                         | None => ""
                         end
            | None => ""
            end).
  assert (Hw : root_wf i rootf st).
  { split; [done|]. exists rootv. split; [done|]. intros rp Hrp.
    destruct (Hvalid rootv rp Hroot Hrp) as [rx Hrx]. exists rx. split; [done|].
    unfold i. by rewrite Hrp, Hrx. }
  eapply wp_done in Hrun; [|by apply (compileDependencies_spec i root fuel graph st)].
  destruct Hrun as (Hout & Hg). simpl in *.
  apply dep_outcome_ok in Hout.
  destruct (Hg eq_refl Hw v Hv) as [? | (_ & rootv' & fv & Hr & Hf & Hi & Hp)]; [done|].
  exists rootv', fv. split; [done|]. split; [done|]. split; [done|].
  intros rp Hrp.
  destruct Hp as (p & x & Hfp & Hx & Hxi); [congruence|].
  destruct (deps_rel_root_wf _ _ _ _ Hout Hw) as (_ & rootv'' & Hr'' & Hproj).
  pose proof (eq_trans (eq_sym Hr) Hr'') as [= <-].
  destruct (Hproj rp Hrp) as (rx & Hrx & Hrxi).
  exists p, x, rx. split; [done|]. split; [done|]. split; [done|]. congruence.
Qed.


(** ** Compile *)

Lemma compileVersion_spec dir (st : State) :
  wp (compileVersion E dir)
     (λ _ s1, ∃ w Δv, s1 = set_world w (set_trace (trace st ++ Δv) st) ∧
                      version_events dir Δv) st.
Proof.
  unfold compileVersion. wp_next. wp_next. intros r w _. destruct r.
  - wp_prim. exists w, [EvCreate (filepath_Join dir CompileVersionFilename)].
    split; [done|]. by left.
  - wp_next. wp_prim. intros r w' _. eexists w', _. split; [|by right].
    unfold set_world, set_trace; simpl. by rewrite <- app_assoc.
Qed.

Lemma compileWrite_spec dir compiled (st : State) :
  wp (compileWrite E dir compiled)
     (λ _ st', ∃ Δw, trace st' = trace st ++ Δw ∧ Forall (compiled_write dir) Δw) st.
Proof.
  unfold compileWrite. apply wp_bind. unfold wp at 1.
  destruct (json_MarshalIndent E compiled (files st) (projects st)) as [data|err].
  2: { wp_prim. exists []. by rewrite app_nil_r. }
  wp_next. wp_next. intros r w _.
  assert (Hc : compiled_write dir (EvCreate (filepath_Join dir CompileFilename)))
    by (by left).
  destruct r.
  - wp_prim. eexists [_]. split; [done|]. by constructor.
  - wp_next. wp_prim. intros r w' _. eexists [_; _]. simpl.
    split; [by rewrite <- app_assoc|].
    constructor; [done|]. constructor; [|done]. right. by eexists.
Qed.


Lemma ensure_id_spec f (st : State) :
  wp (ensure_id E f)
     (λ _ s', (∃ Δ, trace s' = trace st ++ Δ ∧ Forall id_call Δ) ∧
              importCache s' = importCache st ∧
              len s' = len st ∧ f < len st) st.
Proof.
  unfold ensure_id. wp_next. intros fv Hfv.
  assert (f < len st) by (by eapply lookup_lt_Some).
  assert (Hnil : ∃ Δ, trace st = trace st ++ Δ ∧ Forall id_call Δ).
  { exists []. by rewrite app_nil_r. }
  case_decide; [by wp_prim|].
  wp_next. wp_next.
  assert (H1 : Forall id_call [EvHasID (File.Path fv)]) by (by repeat constructor).
  match goal with |- wp match ?x with _ => _ end _ _ =>
    destruct x as [hasID|err] end.
  2: { wp_prim. split; [by eexists [_] | done]. }
  apply wp_bind.
  eapply (wp_mono _ (λ _ s', (∃ Δ, trace s' = trace st ++ Δ ∧ Forall id_call Δ) ∧
                             importCache s' = importCache st ∧
                             files s' = files st)).
  { destruct hasID; [wp_prim; simpl; eauto|]. wp_next. wp_prim. intros r w _.
    simpl. split; [|done]. eexists [_; _]. rewrite <- app_assoc.
    split; [done|]. by repeat constructor. }
  intros r s1 ((Δ1 & T1 & HΔ1) & C1 & F1).
  destruct r.
  { wp_prim. unfold len. rewrite F1. split; [eauto|]. done. }
  wp_next. wp_next.
  assert (H2 : ∃ Δ, trace s1 ++ [EvLoadID (File.Path fv)] = trace st ++ Δ ∧
                    Forall id_call Δ).
  { exists (Δ1 ++ [EvLoadID (File.Path fv)]). rewrite T1, <- app_assoc.
    split; [done|]. apply Forall_app. split; [done|]. by repeat constructor. }
  match goal with |- wp match ?x with _ => _ end _ _ => destruct x end.
  2: { wp_prim; unfold len; simpl; by rewrite F1. }
  wp_next. intros v _. wp_prim. unfold len; simpl.
  rewrite length_insert, F1. by unfold len in *.
Qed.

Lemma validate_files_spec vs : ∀ result (Q : option error → State → Prop) (st : State),
  (∀ r, Q r st) → wp (validate_files E vs result) Q st.
Proof.
  induction vs as [|v vs IH]; intros result Q st HQ; simpl; [by wp_prim|].
  apply wp_bind, wp_read_data. intros d.
  destruct (File_Validate E d); by apply IH.
Qed.















(** ** LoadCompiled: the version gate *)

(** C3.  [LoadCompiled dir] always returns.  It returns the fixed
    "compiled with a newer version" error exactly when the version file
    was read and parsed to an integer strictly greater than
    [CompileVersion]; in that case the only call made is the read of the
    version file (the compiled Appfile is neither opened nor decoded).
    When the parsed version is equal or lower, the compiled Appfile is
    opened and, once open, decoded, and the result is the decoder's. *)
Theorem C3_LoadCompiled_version_gate (dir : string) (st : State) :
  let versionPath := filepath_Join dir CompileVersionFilename in
  let compiledPath := filepath_Join dir CompileFilename in
  ∃ r st',
    LoadCompiled E dir st = Done r st' ∧
    (r = ReturnErr (Errorf msg_version_too_new) ↔
     ∃ s v, oneline_Read E versionPath (world st) = Ok s ∧
            strconv_ParseInt E s 0 0 = Ok v ∧ (v > CompileVersion)%Z) ∧
    (∀ s v, oneline_Read E versionPath (world st) = Ok s →
            strconv_ParseInt E s 0 0 = Ok v →
       if decide (v > CompileVersion)%Z then
         st' = set_trace (trace st ++ [EvRead versionPath]) st
       else
         match os_Open E compiledPath (world st) with
         | Some err =>
             r = ReturnErr (External err) ∧
             st' = set_trace (trace st ++ [EvRead versionPath; EvOpen compiledPath]) st
         | None =>
             r = match json_Decode E compiledPath (world st) with
                 | Ok c => Return c
                 | Fail err => ReturnErr (External err)
                 end ∧
             st' = set_trace (trace st ++ [EvRead versionPath; EvOpen compiledPath;
                                           EvDecode compiledPath]) st
         end).
Proof.
  intros versionPath compiledPath.
  unfold LoadCompiled, mbind, M_bind, emit, ask, mret, M_ret; simpl.
  fold versionPath compiledPath.
  destruct (oneline_Read E versionPath (world st)) as [s|e] eqn:Hread.
  2: { eexists _, _. split; [done|]. split; [|done].
       split; [done|]. by intros (? & ? & ? & _). }
  destruct (strconv_ParseInt E s 0 0) as [v|e] eqn:Hparse.
  2: { eexists _, _. split; [done|]. split.
       - split; [done|]. intros (? & ? & [= <-] & ? & _). congruence.
       - intros ? ? [= <-]. congruence. }
  destruct (decide (v > CompileVersion)%Z) as [Hgt|Hle].
  { eexists _, _. split; [done|]. split.
    - split; [|done]. intros _. by exists s, v.
    - intros ? ? [= <-] Hp. rewrite Hparse in Hp. injection Hp as <-.
      by rewrite decide_True. }
  simpl.
  assert (Hnot : ¬ ∃ s0 v0, Ok s = Ok s0 ∧
                   strconv_ParseInt E s0 0 0 = Ok v0 ∧ (v0 > CompileVersion)%Z).
  { intros (? & ? & [= <-] & Hp & ?). rewrite Hparse in Hp. by injection Hp as <-. }
  destruct (os_Open E compiledPath (world st)) as [e|] eqn:Hopen; simpl.
  { eexists _, _. split; [done|]. split; [done|].
    intros ? ? [= <-] Hp. rewrite Hparse in Hp. injection Hp as <-.
    rewrite decide_False by done. split; [done|].
    unfold set_trace; simpl. by rewrite <- !app_assoc. }
  destruct (json_Decode E compiledPath (world st)) as [d|e] eqn:Hdec.
  all: eexists _, _; (split; [done|]); (split; [done|]).
  all: intros ? ? [= <-] Hp; rewrite Hparse in Hp; injection Hp as <-.
  all: rewrite decide_False by done; split; [done|].
  all: unfold set_trace; simpl; by rewrite <- !app_assoc.
Qed.

(** ** downloadSingle on a cache hit *)

(** C9 (as amended).  When the canonical key of an import is in the
    import cache, its goroutine stores the cached pointer in its own
    slot of the merge slice and changes nothing else: the world is not
    touched (no storage fetch), the trace gets no entry (no callback, no
    download, no parse), and the function it would recurse into is not
    called. *)
Theorem C9_cache_hit_no_fetch
    (importSingle : string → ptr → M bool) (source : string) (idx : nat)
    (result : list (option ptr)) (st : State) (cached : ptr) :
  importCache st !! source = Some cached →
  downloadSingle E c importSingle (source, idx) result st
    = Done (<[idx := Some cached]> result) st.
Proof.
  intros Hhit.
  unfold downloadSingle, cache_get, mbind, M_bind. by rewrite Hhit.
Qed.

(** ** A dependency without Appfile and without loader *)

(** C10.  Take a dependency that is not yet in the vertex map, whose
    download succeeds, and whose directory holds no Appfile.  When no
    [Loader] is configured, the loop does not return an error: it
    panics on [f.Source = key], right after the download, with [f] nil. *)
Theorem C10_nil_file_panics
    (fuel : nat) (root current : CompiledGraphVertex.t) (dep : Dependency.t)
    (rest : list Dependency.t) (s : DepState) (st st0 : State)
    (cur : File.t) (key dir : string) (w1 : World) :
  files st !! CompiledGraphVertex.File current = Some cur →
  getter_Detect E (Dependency.Source dep) (filepath_Dir E (File.Path cur)) = Ok key →
  vertexMap s !! key = None →
  Loader (opts c) = None →
  callback c (CompileEventDep key) st = Done tt st0 →
  storage_Get (depStorage c) key key true (world st0) = (None, w1) →
  storage_Dir (depStorage c) key w1 = Ok dir →
  os_Stat E (filepath_Join dir "Appfile") w1 = StatNotExist →
  each_dependency E c fuel root current (dep :: rest) s st
    = Panic (set_world w1 (set_trace (trace st0 ++ [EvDepGet key]) st0)).
Proof.
  intros Hcur Hdet Hnew Hloader Hcb Hget Hdir Hstat.
  cbn [each_dependency].
  unfold mbind at 1. unfold M_bind, get_file. rewrite Hcur, Hdet, Hnew.
  unfold load_dependency.
  unfold mbind, M_bind. rewrite Hcb.
  unfold emit, call; simpl. rewrite Hget; simpl.
  unfold ask; simpl. rewrite Hdir.
  unfold parse_if_exists, mbind, M_bind, ask; simpl. rewrite Hstat.
  unfold run_loader. rewrite Hloader. done.
Qed.


(** ** Imports: what a run without error guarantees *)

Lemma wp_conj {A} (m : M A) (Q1 Q2 : A → State → Prop) st :
  wp m Q1 st → wp m Q2 st → wp m (λ a s, Q1 a s ∧ Q2 a s) st.
Proof. unfold wp. by destruct (m st). Qed.

Lemma wp_graph_add_check_eq parent source (Q : list (list string) → State → Prop) st :
  (let g := dag.Connect (dag.BasicEdge parent source) (dag.Add source (graph st)) in
   Q (dag.Cycles g) (set_graph g st)) →
  wp (graph_add_check parent source) Q st.
Proof. done. Qed.

Lemma cycles_reported_err (st : State) e :
  cycles_reported (set_resultErr (Some e) st).
Proof. left. by eexists. Qed.

Lemma cycles_reported_start parent pwd imports : ∀ idx (st : State),
  cycles_reported st →
  wp (start_downloads E parent pwd idx imports) (λ _ st', cycles_reported st') st.
Proof.
  induction imports as [|i rest IH]; intros idx st H; simpl; [by apply wp_ret|].
  destruct (getter_Detect E (Import_.Source i) pwd) as [source|err].
  2: { wp_next. wp_prim. apply cycles_reported_err. }
  apply wp_bind, wp_graph_add_check_eq. simpl.
  destruct (dag.Cycles _) as [|cycle ?] eqn:Hc.
  - apply wp_bind. eapply wp_mono; [apply IH; by right|].
    intros [ok tasks] st' H'. by apply wp_ret.
  - wp_next. wp_prim. apply cycles_reported_err.
Qed.

Lemma run_goroutines_inv (I : State → Prop) body :
  (∀ s r, I s → I (set_sched r s)) →
  (∀ t result s, I s → wp (body t result) (λ _ s', I s') s) →
  ∀ n pending merge (st : State),
    I st → wp (run_goroutines body n pending merge) (λ _ st', I st') st.
Proof.
  intros Hs Hb. induction n as [|n IH]; intros pending merge st H; simpl.
  { by apply wp_ret. }
  wp_next. intros i r _. destruct (pending !! i) as [t|]; [|apply wp_ret; auto].
  apply wp_bind. eapply wp_mono; [apply Hb; auto|].
  intros merge' st' H'. by apply IH.
Qed.

Lemma cycles_reported_merge f : ∀ merge (st : State),
  cycles_reported st →
  wp (merge_imports E f merge) (λ _ st', cycles_reported st') st.
Proof.
  induction merge as [|importF rest IH]; intros st H; simpl; [by apply wp_ret|].
  wp_next. intros p _. wp_next. intros v _. wp_next.
  wp_next. intros v1 _. wp_next. intros v2 _. wp_next. intros host _.
  wp_next. intros other _. wp_next.
  wp_next. intros err merged ps _. destruct err as [err|].
  - wp_next. wp_prim. apply cycles_reported_err.
  - by apply IH.
Qed.

Lemma cycles_reported_download rec :
  (∀ parent f (s : State),
     cycles_reported s → wp (rec parent f) (λ _ s', cycles_reported s') s) →
  ∀ t result (s : State),
    cycles_reported s →
    wp (downloadSingle E c rec t result) (λ _ s', cycles_reported s') s.
Proof.
  intros Hrec [source idx] result s H. unfold downloadSingle.
  wp_next. destruct (importCache s !! source) as [cached|]; [by wp_prim|].
  wp_next. intros w Δ _. wp_next. wp_next. intros r w1 _. destruct r as [err|].
  { wp_next. wp_prim. apply cycles_reported_err. }
  wp_next.
  match goal with |- wp _ _ ?s => destruct (storage_Dir (importStorage c) source (world s))
    as [dir|err] end.
  2: { wp_next. wp_prim. apply cycles_reported_err. }
  wp_next. wp_next.
  match goal with |- wp _ _ ?s => destruct (ParseFile E (filepath_Join dir "Appfile") (world s))
    as [parsed|err] end.
  2: { wp_next. wp_prim. apply cycles_reported_err. }
  wp_next. intros ps v _. wp_next. intros v1 _.
  apply wp_bind. eapply wp_mono; [apply Hrec; exact H|].
  intros ok s5 H5. destruct ok; [|by wp_prim].
  wp_next. by wp_prim.
Qed.

Lemma cycles_reported_importSingle fuel : ∀ parent f (st : State),
  cycles_reported st →
  wp (importSingle E c fuel parent f) (λ _ st', cycles_reported st') st.
Proof.
  induction fuel as [|n IH]; intros parent f st H; simpl; [done|].
  unfold importSingle_body, start_and_wait.
  apply wp_bind, wp_bind. wp_prim. intros fv _.
  apply wp_bind. eapply wp_mono; [by apply cycles_reported_start|].
  intros [ok tasks] s1 H1.
  apply wp_bind. eapply wp_mono.
  { apply (run_goroutines_inv cycles_reported); [done | | exact H1].
    by apply cycles_reported_download. }
  intros merge s2 H2. wp_prim. destruct ok; [|by wp_prim].
  unfold after_wait. destruct (any_nil merge); [by wp_prim|].
  by apply cycles_reported_merge.
Qed.

(** X1.  When [compileImports] on a file with imports returns no error,
    the import graph it built has no cycle: a cycle among the imports
    never goes unreported. *)
Theorem compileImports_nil_acyclic
    (fuel : nat) (root : ptr) (st st' : State) (rootv : File.t) :
  files st !! root = Some rootv →
  File.Imports rootv ≠ [] →
  compileImports E c fuel root st = Done None st' →
  dag.Cycles (graph st') = [].
Proof.
  intros Hroot Himp Hrun. unfold compileImports in Hrun.
  apply bind_done in Hrun as (v & s0 & Hget & Hrun).
  unfold get_file in Hget. rewrite Hroot in Hget. injection Hget as <- <-.
  rewrite decide_False in Hrun by (by destruct (File.Imports rootv)).
  apply bind_done in Hrun as ([] & s1 & Hinit & Hrun).
  injection Hinit as <-.
  apply bind_done in Hrun as (ok & s2 & Himport & Hres).
  injection Hres as Hnone <-.
  pose proof (cycles_reported_importSingle fuel "root" root _
                (or_intror eq_refl : cycles_reported
                   (set_resultErr None (set_graph (dag.Add "root" dag.empty) st))))
    as Hwp.
  apply (wp_done _ _ _ _ _ Hwp) in Himport as [[e He] | Hc]; [congruence | done].
Qed.

(** ** Imports and the cache *)

(** X2.  When [compileImports] returns no error, every import of the
    file resolved to a canonical key, and the cache holds a file for each
    of these keys. *)
Theorem compileImports_caches_imports
    (fuel : nat) (root : ptr) (st st' : State) (rootv : File.t) :
  cache_sep (Some root) st →
  files st !! root = Some rootv →
  compileImports E c fuel root st = Done None st' →
  ∃ keys,
    import_keys E (filepath_Dir E (File.Path rootv)) (File.Imports rootv) keys ∧
    ∀ k, k ∈ keys → ∃ p, importCache st' !! k = Some p ∧ p < len st'.
Proof.
  intros Hsep Hroot Hrun. unfold compileImports in Hrun.
  apply bind_done in Hrun as (v & s0 & Hget & Hrun).
  unfold get_file in Hget. rewrite Hroot in Hget. injection Hget as <- <-.
  assert (Hf : root < len st) by (by eapply lookup_lt_Some).
  case_decide as Hemp.
  { exists []. apply nil_length_inv in Hemp. rewrite Hemp.
    split; [constructor|]. by intros k ?%elem_of_nil. }
  apply bind_done in Hrun as ([] & s1 & Hinit & Hrun). injection Hinit as <-.
  apply bind_done in Hrun as (ok & s2 & Himport & Hres).
  injection Hres as Hnone <-.
  destruct fuel as [|n]; [done|]. simpl in Himport.
  unfold importSingle_body in Himport.
  apply bind_done in Himport as ([ok1 merge] & s3 & Hstart & Hafter).
  match type of Hstart with _ ?s = _ => set (s1 := s) in * end.
  assert (Hsep1 : cache_sep (Some root) s1) by exact Hsep.
  assert (Hwp : wp (start_and_wait E (downloadSingle E c (importSingle E c n))
                      "root" root)
                  (λ r s2,
                     imports_rel None s1 s2 ∧ ids_ok False s2 ∧
                     (r.1 = false ∨ any_nil r.2 = true → is_Some (resultErr s2)) ∧
                     ∀ fv, files s1 !! root = Some fv →
                       length r.2 = length (File.Imports fv) ∧
                       (r.1 = true →
                        ∃ keys, import_keys E (filepath_Dir E (File.Path fv))
                                  (File.Imports fv) keys ∧
                          ∀ i p, r.2 !! i = Some (Some p) →
                            ∃ k, keys !! i = Some k ∧ importCache s2 !! k = Some p)) s1).
  { apply (start_and_wait_spec False);
      [apply downloadSingle_task_ok, (importSingle_ok False (False_rect _))
      | exact Hf | exact Hsep1 | by intros []]. }
  apply (wp_done _ _ _ _ _ Hwp) in Hstart as (R3 & _ & Herr3 & Hdet). simpl in *.
  destruct (Hdet rootv Hroot) as [Hlen Hkeys].
  assert (Hsep3 : cache_sep None s3).
  { eapply cache_sep_rel; [by eapply cache_sep_None | exact R3 | done]. }
  destruct ok1.
  2: { injection Hafter as <- <-. destruct Herr3 as [e He]; [by left | congruence]. }
  unfold after_wait in Hafter. destruct (any_nil merge) eqn:Hnil.
  { injection Hafter as <- <-. destruct Herr3 as [e He]; [by right | congruence]. }
  destruct (Hkeys eq_refl) as (keys & Hk & Hslots). exists keys. split; [done|].
  assert (Hcache : importCache s2 = importCache s3 ∧ len s3 ≤ len s2).
  { assert (Hpre : ∀ p, Some p ∈ merge → p < len s3 ∧ p ≠ root).
    { intros p [i Hi]%list_elem_of_lookup.
      destruct (Hslots i p Hi) as (k & _ & Hc). destruct (Hsep3 k p Hc) as [? _].
      split; [done|]. intros ->.
      assert (Hsep3' : cache_sep (Some root) s3).
      { eapply cache_sep_rel; [exact Hsep1 | by apply imports_rel_host |].
        by intros ? [= <-]. }
      by destruct (Hsep3' k root Hc). }
    pose proof (rel_len _ _ _ R3) as L3.
    assert (Hf3 : root < len s3) by (change (len s1) with (len st) in L3; lia).
    pose proof (merge_imports_spec root merge s3 Hf3 Hpre) as Hm.
    apply (wp_done _ _ _ _ _ Hm) in Hafter as (R & Hc & _).
    split; [done | by apply (rel_len _ _ _ R)]. }
  destruct Hcache as [Hc Hl]. intros k [i Hi]%list_elem_of_lookup.
  assert (Hi' : i < length merge).
  { rewrite Hlen, (Forall2_length _ _ _ Hk). by eapply lookup_lt_Some. }
  destruct (lookup_lt_is_Some_2 merge i Hi') as [o Ho].
  destruct (any_nil_false merge Hnil i o Ho) as [p ->].
  destruct (Hslots i p Ho) as (k' & Hk' & Hp).
  pose proof (eq_trans (eq_sym Hi) Hk') as [= <-].
  exists p. rewrite Hc. split; [done|]. destruct (Hsep3 k p Hp). lia.
Qed.

Lemma start_downloads_sources parent pwd imports : ∀ idx (st : State),
  wp (start_downloads E parent pwd idx imports)
     (λ r _, ∀ t, t ∈ r.2 →
        ∃ i, i ∈ imports ∧ getter_Detect E (Import_.Source i) pwd = Ok t.1) st.
Proof.
  induction imports as [|i rest IH]; intros idx st; simpl.
  { apply wp_ret. by intros t ?%elem_of_nil. }
  destruct (getter_Detect E (Import_.Source i) pwd) as [source|err] eqn:Hdet.
  2: { wp_next. wp_prim. by intros t ?%elem_of_nil. }
  wp_next. intros cycles g. destruct cycles as [|cycle ?].
  2: { wp_next. wp_prim. by intros t ?%elem_of_nil. }
  apply wp_bind. eapply wp_mono; [apply IH|].
  intros [ok tasks] st' Hall. apply wp_ret. simpl in *.
  intros t [-> | Ht]%elem_of_cons.
  - exists i. split; [by left | done].
  - destruct (Hall t Ht) as (j & ? & ?). exists j. split; [by right | done].
Qed.

Lemma run_goroutines_hits rec : ∀ n pending merge (st : State),
  (∀ t, t ∈ pending → is_Some (importCache st !! t.1)) →
  wp (run_goroutines (downloadSingle E c rec) n pending merge)
     (λ _ st', offline st st') st.
Proof.
  induction n as [|n IH]; intros pending merge st Hall; simpl.
  { by apply wp_ret. }
  wp_next. intros i r _. destruct (pending !! i) as [[source idx]|] eqn:Hi;
    [|by apply wp_ret].
  destruct (Hall (source, idx)) as [cached Hc]; [by eapply list_elem_of_lookup_2|].
  simpl in Hc. apply wp_bind. unfold downloadSingle.
  wp_next. simpl. rewrite Hc. wp_prim.
  eapply wp_mono.
  { apply IH. intros t Ht. apply Hall. by eapply list_elem_of_delete_inv. }
  by intros ? ? (? & ? & ?).
Qed.

Lemma merge_imports_quiet f : ∀ merge (st : State),
  wp (merge_imports E f merge)
     (λ _ st', world st' = world st ∧ importCache st' = importCache st ∧
               ∃ Δ, trace st' = trace st ++ Δ ∧ Forall (merge_into f) Δ) st.
Proof.
  induction merge as [|importF rest IH]; intros st; simpl.
  { apply wp_ret. split; [done|]. split; [done|]. exists []. by rewrite app_nil_r. }
  wp_next. intros p _. wp_next. intros v _. wp_next.
  wp_next. intros v1 _. wp_next. intros v2 _. wp_next. intros host _.
  wp_next. intros other _. wp_next.
  assert (Hev : merge_into f (EvMerge f (File.ID v) other)) by (by eexists _, _).
  wp_next. intros err merged ps _. destruct err as [err|].
  - wp_next. wp_prim. simpl. split; [done|]. split; [done|].
    exists [EvMerge f (File.ID v) other]. split; [done|]. by constructor.
  - eapply wp_mono; [apply IH|].
    intros ok st' (Hw & Hc & Δ & Ht & Hall). simpl in *.
    split; [done|]. split; [done|].
    exists (EvMerge f (File.ID v) other :: Δ).
    split; [by rewrite Ht, <- app_assoc|]. by constructor.
Qed.

(** X3.  When the cache holds every canonical key that the imports of a
    file resolve to, [compileImports] on this file works offline: it
    leaves the world and the cache as they are, and the only calls it
    makes are merges into the file. *)
Theorem compileImports_warm_cache_offline
    (fuel : nat) (root : ptr) (st st' : State) (r : option error)
    (rootv : File.t) :
  files st !! root = Some rootv →
  (∀ i k, i ∈ File.Imports rootv →
     getter_Detect E (Import_.Source i) (filepath_Dir E (File.Path rootv)) = Ok k →
     is_Some (importCache st !! k)) →
  compileImports E c fuel root st = Done r st' →
  world st' = world st ∧ importCache st' = importCache st ∧
  ∃ Δ, trace st' = trace st ++ Δ ∧ Forall (merge_into root) Δ.
Proof.
  intros Hroot Hwarm Hrun. unfold compileImports in Hrun.
  apply bind_done in Hrun as (v & s0 & Hget & Hrun).
  unfold get_file in Hget. rewrite Hroot in Hget. injection Hget as <- <-.
  case_decide as Hemp.
  { injection Hrun as <- <-. split; [done|]. split; [done|].
    exists []. by rewrite app_nil_r. }
  apply bind_done in Hrun as ([] & s1 & Hinit & Hrun). injection Hinit as <-.
  apply bind_done in Hrun as (ok & s2 & Himport & Hres).
  injection Hres as _ <-.
  destruct fuel as [|n]; [done|]. simpl in Himport.
  unfold importSingle_body, start_and_wait in Himport.
  apply bind_done in Himport as ([ok1 merge] & s3 & Hstart & Hafter).
  apply bind_done in Hstart as (fv & s4 & Hget & Hstart).
  unfold get_file in Hget. simpl in Hget. rewrite Hroot in Hget.
  injection Hget as <- <-.
  apply bind_done in Hstart as ([ok2 tasks] & s5 & Hdl & Hgo).
  apply bind_done in Hgo as (merge' & s6 & Hgo & Hret).
  injection Hret as -> -> ->.
  match type of Hdl with _ ?s = _ => set (s1 := s) in * end.
  pose proof (wp_conj _ _ _ _
                (start_downloads_spec "root" (filepath_Dir E (File.Path rootv))
                   (File.Imports rootv) 0 s1)
                (start_downloads_sources "root" (filepath_Dir E (File.Path rootv))
                   (File.Imports rootv) 0 s1)) as Hwp.
  apply (wp_done _ _ _ _ _ Hwp) in Hdl as [(Hloc & _) Hsrc]. simpl in *.
  destruct Hloc as (_ & _ & Hw5 & Ht5 & _ & Hc5 & _).
  assert (Hall : ∀ t, t ∈ tasks → is_Some (importCache s5 !! t.1)).
  { intros t Ht. destruct (Hsrc t Ht) as (i & Hi & Hdet).
    rewrite Hc5. by apply (Hwarm i). }
  pose proof (run_goroutines_hits (importSingle E c n) (length tasks) tasks
                (replicate (length (File.Imports rootv)) None) s5 Hall) as Hwp6.
  apply (wp_done _ _ _ _ _ Hwp6) in Hgo as (Hw6 & Ht6 & Hc6).
  assert (Hoff : world s3 = world st ∧ importCache s3 = importCache st ∧
                 trace s3 = trace st).
  { rewrite Hw6, Hc6, Ht6, Hw5, Hc5, Ht5. done. }
  destruct Hoff as (Hw & Hc & Ht).
  assert (Hstop : s2 = s3 →
            world s2 = world st ∧ importCache s2 = importCache st ∧
            ∃ Δ, trace s2 = trace st ++ Δ ∧ Forall (merge_into root) Δ).
  { intros ->. split; [done|]. split; [done|]. exists []. by rewrite app_nil_r. }
  destruct ok1; [|injection Hafter as _ <-; by apply Hstop].
  unfold after_wait in Hafter.
  destruct (any_nil merge); [injection Hafter as _ <-; by apply Hstop|].
  pose proof (merge_imports_quiet root merge s3) as Hm.
  apply (wp_done _ _ _ _ _ Hm) in Hafter as (Hw' & Hc' & Δ & Ht' & Hall').
  rewrite Hw', Hc', Ht', Hw, Hc, Ht. eauto.
Qed.

(** X4.  The bookkeeping of the import cache survives [compileImports]:
    if every cached pointer is allocated and is not the file being
    resolved, and every cached file carries its key in [ID], then the
    same holds afterwards, whatever the call returned. *)
Theorem compileImports_keeps_cache_invariant
    (fuel : nat) (root : ptr) (st st' : State) (r : option error) :
  Merge_keeps_ID E →
  cache_sep (Some root) st → cache_ids st →
  compileImports E c fuel root st = Done r st' →
  cache_sep (Some root) st' ∧ cache_ids st'.
Proof.
  intros Hkeep Hsep Hids Hrun. unfold compileImports in Hrun.
  apply bind_done in Hrun as (v & s0 & Hget & Hrun).
  unfold get_file in Hget. destruct (files st !! root) as [rootv|] eqn:Hroot; [|done].
  injection Hget as <- <-.
  assert (Hf : root < len st) by (by eapply lookup_lt_Some).
  case_decide as Hemp; [by injection Hrun as <- <-|].
  apply bind_done in Hrun as ([] & s1 & Hinit & Hrun). injection Hinit as <-.
  apply bind_done in Hrun as (ok & s2 & Himport & Hres).
  injection Hres as _ <-.
  match type of Himport with _ ?s = _ => set (s1 := s) in * end.
  pose proof (importSingle_ok True (λ _, Hkeep) fuel "root" root s1 Hf Hsep
                (λ _, Hids)) as Hwp.
  apply (wp_done _ _ _ _ _ Hwp) in Himport as (R & Hids2 & _).
  split; [|by apply Hids2].
  apply (cache_sep_rel (Some root) s1 s2); [exact Hsep | exact R |].
  by intros ? [= <-].
Qed.

(** ** Dependencies: the trace of one dependency *)

Lemma dep_gets_cons e Δ :
  dep_gets (e :: Δ) =
    match e with EvDepGet k => k :: dep_gets Δ | _ => dep_gets Δ end.
Proof. by destruct e. Qed.

Lemma dep_gets_app Δ1 Δ2 : dep_gets (Δ1 ++ Δ2) = dep_gets Δ1 ++ dep_gets Δ2.
Proof. apply omap_app. Qed.

Lemma dep_gets_quiet Δ : Forall quiet_event Δ → dep_gets Δ = [].
Proof.
  induction 1 as [|e Δ He _ IH]; [done|].
  rewrite dep_gets_cons. by destruct e.
Qed.

Lemma quiet_ext_refl (st : State) : quiet_ext st st.
Proof. exists []. by rewrite app_nil_r. Qed.

Lemma quiet_ext_to (st0 s s' : State) Δ' :
  quiet_ext st0 s → trace s' = trace s ++ Δ' → Forall quiet_event Δ' →
  quiet_ext st0 s'.
Proof.
  intros (Δ & HΔ & Hall) Ht Hq. exists (Δ ++ Δ').
  split; [by rewrite Ht, HΔ, app_assoc | by apply Forall_app].
Qed.

Lemma import_event_quiet h b e : import_event h b e → quiet_event e.
Proof. by destruct e. Qed.

Lemma parse_if_exists_quiet fuel key dir (st0 s : State) :
  cache_sep None s → quiet_ext st0 s →
  wp (parse_if_exists E c fuel key dir) (λ _ s', quiet_ext st0 s') s.
Proof.
  intros Hc Hq. unfold parse_if_exists.
  wp_next. destruct (os_Stat E (filepath_Join dir "Appfile") (world s)).
  2, 3: by wp_prim.
  wp_next. wp_next.
  match goal with |- wp _ _ ?s => destruct (ParseFile E (filepath_Join dir "Appfile") (world s))
    as [parsed|err] end.
  2: { wp_prim. apply (quiet_ext_to st0 s _ [EvParseFile (filepath_Join dir "Appfile")]);
         [done | done | by repeat constructor]. }
  wp_next. intros ps v _. rewrite len_set_trace.
  match goal with |- wp _ _ ?s => set (s2 := s) end.
  assert (Q2 : quiet_ext st0 s2).
  { apply (quiet_ext_to st0 s _ [EvParseFile (filepath_Join dir "Appfile")]);
      [done | done | by repeat constructor]. }
  assert (L2 : len s2 = S (len s)).
  { unfold s2, len; simpl. rewrite length_app. simpl. lia. }
  assert (C2 : importCache s2 = importCache s) by done.
  clearbody s2.
  assert (Hsep2 : cache_sep (Some (len s)) s2).
  { intros k p Hk. rewrite C2 in Hk. destruct (Hc k p Hk) as [Hp _].
    split; [lia|]. intros [= ->]. lia. }
  apply wp_bind. eapply wp_mono; [apply compileImports_spec; [lia | done]|].
  intros r s3 Hr.
  assert (Q3 : quiet_ext st0 s3).
  { destruct Hr as [[_ ->] | (g & Hi & _)]; [done|].
    destruct (rel_trace _ _ _ Hi) as (Δ & HΔ & Hall).
    apply (quiet_ext_to st0 s2 _ Δ); [done | done |].
    eapply Forall_impl; [exact Hall|]. intros e. apply import_event_quiet. }
  destruct r; by wp_prim.
Qed.

Lemma run_loader_quiet key dir f (st0 s : State) :
  quiet_ext st0 s →
  wp (run_loader c key dir f) (λ _ s', quiet_ext st0 s') s.
Proof.
  intros Hq. unfold run_loader.
  destruct (Loader (opts c)) as [loader|]; [|by wp_prim].
  wp_next.
  assert (Q1 : quiet_ext st0 (set_trace (trace s ++ [EvLoader dir]) s)).
  { apply (quiet_ext_to st0 s _ [EvLoader dir]); [done | done | by repeat constructor]. }
  apply wp_bind.
  assert (Harg : ∀ (Q : option FileData → State → Prop) st,
            (∀ a, Q a st) →
            wp (match f with
                | Some p => d ← read_data p; mret (Some d)
                | None => mret None
                end) Q st).
  { intros Q st HQ. destruct f; [|by wp_prim].
    apply wp_bind, wp_read_data. intros d. by wp_prim. }
  apply Harg. intros arg.
  wp_next. intros r w _. destruct r as [[d|]|err].
  2, 3: by wp_prim.
  apply wp_bind, wp_alloc_data. intros ps v _. by wp_prim.
Qed.

Lemma propagate_root_fields root f (s : State) :
  wp (propagate_root root f)
     (λ _ s',
        trace s' = trace s ∧
        ∀ fv, files s !! f = Some fv →
          ∃ fv', files s' !! f = Some fv' ∧
                 File.Source fv' = File.Source fv ∧
                 File.Application fv' = File.Application fv) s.
Proof.
  unfold propagate_root.
  wp_next. intros rootv _. wp_next. intros fv0 Hfv0.
  assert (Hlt : f < length (files s)) by (by eapply lookup_lt_Some).
  wp_next. intros rootv2 _.
  destruct (File.Project rootv2) as [rp|].
  2: { wp_prim. split; [done|]. intros fv Hfv.
       pose proof (eq_trans (eq_sym Hfv0) Hfv) as [= <-].
       eexists. split; [by apply list_lookup_insert_eq | done]. }
  wp_next. intros fv1 Hfv1. simpl in Hfv1.
  rewrite list_lookup_insert_eq in Hfv1 by done. injection Hfv1 as <-.
  apply wp_bind.
  eapply (wp_mono _ (λ p s2,
            trace s2 = trace s ∧
            ∃ fv2, files s2 !! f = Some fv2 ∧
                   File.Source fv2 = File.Source fv0 ∧
                   File.Application fv2 = File.Application fv0)).
  { destruct (File.Project (File.set_Infrastructure (File.Infrastructure rootv) fv0))
      as [p|] eqn:Hp.
    - wp_prim. split; [done|]. eexists. split; [by apply list_lookup_insert_eq | done].
    - wp_next. wp_next. intros fv' Hfv'. wp_prim. simpl in Hfv'.
      rewrite list_lookup_insert_eq in Hfv' by done. injection Hfv' as <-.
      split; [done|].
      exists (File.set_Project (Some (length (projects s)))
                (File.set_Infrastructure (File.Infrastructure rootv) fv0)).
      split; [|done]. simpl.
      apply list_lookup_insert_eq. by rewrite length_insert. }
  intros p s2 (Ht & fv2 & Hf2 & Hs & Ha).
  wp_next. intros rpv _. wp_prim. intros x _.
  split; [done|]. intros fv Hfv.
  pose proof (eq_trans (eq_sym Hfv0) Hfv) as [= <-]. by exists fv2.
Qed.

Lemma load_dependency_trace fuel root key (st : State) :
  cache_sep None st →
  wp (load_dependency E c fuel root key)
     (λ r st',
        ∃ Δ, trace st' = trace st ++ Δ ∧ dep_gets Δ = [key] ∧
          ∀ v, r = Return v →
            EvDepHasID key true ∈ Δ ∧
            (∃ w, storage_Dir (depStorage c) key w
                    = Ok (CompiledGraphVertex.Dir v)) ∧
            ∃ fv, files st' !! CompiledGraphVertex.File v = Some fv ∧
                  File.Source fv = key ∧
                  CompiledGraphVertex.NameValue v
                    = Application.Name (File.Application fv)) st.
Proof.
  intros Hc. unfold load_dependency.
  wp_next. intros w Δc HΔc.
  assert (Hqc : Forall quiet_event Δc).
  { eapply Forall_impl; [exact HΔc|]. by intros ? ->. }
  wp_next. wp_next. intros r w1 _.
  match goal with |- wp _ _ ?s => set (s1 := s) end.
  assert (T1 : trace s1 = trace st ++ Δc ++ [EvDepGet key]).
  { unfold s1; simpl. by rewrite <- app_assoc. }
  assert (C1 : cache_sep None s1) by exact Hc.
  clearbody s1.
  assert (Hfin : ∀ s', quiet_ext s1 s' →
            ∃ Δ, trace s' = trace st ++ Δ ∧ dep_gets Δ = [key] ∧
                 ∀ Δq, trace s' = trace s1 ++ Δq → Δ = Δc ++ [EvDepGet key] ++ Δq).
  { intros s' (Δq & HΔq & Hq). exists (Δc ++ [EvDepGet key] ++ Δq).
    split; [by rewrite HΔq, T1, <- !app_assoc|]. split.
    - rewrite !dep_gets_app, (dep_gets_quiet Δc), (dep_gets_quiet Δq) by done. done.
    - intros Δq' Hq'. rewrite HΔq in Hq'. by apply app_inv_head in Hq' as <-. }
  assert (Herr : ∀ s' e, quiet_ext s1 s' →
            ∃ Δ, trace s' = trace st ++ Δ ∧ dep_gets Δ = [key] ∧
              ∀ v, @ReturnErr CompiledGraphVertex.t e = Return v →
                EvDepHasID key true ∈ Δ ∧
                (∃ w, storage_Dir (depStorage c) key w
                        = Ok (CompiledGraphVertex.Dir v)) ∧
                ∃ fv, files s' !! CompiledGraphVertex.File v = Some fv ∧
                      File.Source fv = key ∧
                      CompiledGraphVertex.NameValue v
                        = Application.Name (File.Application fv)).
  { intros s' e Hq. destruct (Hfin s' Hq) as (Δ & ? & ? & _). by exists Δ. }
  destruct r as [err|]; [wp_prim; apply Herr, quiet_ext_refl|].
  wp_next.
  destruct (storage_Dir (depStorage c) key (world s1)) as [dir|err] eqn:Hdir;
    [|wp_prim; apply Herr, quiet_ext_refl].
  apply wp_bind. eapply wp_mono.
  { apply (parse_if_exists_quiet fuel key dir s1 s1); [done | apply quiet_ext_refl]. }
  intros rf s2 Q2. destruct rf as [f|err]; [|wp_prim; by apply Herr].
  apply wp_bind. eapply wp_mono; [by apply (run_loader_quiet key dir f s1 s2)|].
  intros rf s3 Q3. destruct rf as [f'|err]; [|wp_prim; by apply Herr].
  wp_next. intros p ->.
  wp_next. intros fv Hfv.
  assert (Hlt : p < length (files s3)) by (by eapply lookup_lt_Some).
  wp_next. intros fv' Hfv'. simpl in Hfv'.
  rewrite list_lookup_insert_eq in Hfv' by done. injection Hfv' as <-.
  wp_next.
  match goal with |- wp _ _ ?s => destruct (File_hasID E (File.set_Source key fv) (world s))
    as [hasID|err] end.
  2: { wp_prim. by apply Herr. }
  wp_next. destruct hasID; simpl negb; cbv iota.
  2: { wp_prim. apply Herr.
       apply (quiet_ext_to s1 s3 _ [EvDepHasID key false]);
         [done | done | by repeat constructor]. }
  match goal with |- wp _ _ ?s => set (s4 := s) end.
  assert (Q4 : ∃ Δq, trace s4 = trace s1 ++ Δq ∧ Forall quiet_event Δq ∧
                     EvDepHasID key true ∈ Δq).
  { destruct Q3 as (Δ3 & H3 & Hall3). exists (Δ3 ++ [EvDepHasID key true]).
    split; [unfold s4; simpl; by rewrite H3, app_assoc|]. split.
    - apply Forall_app. split; [done | by repeat constructor].
    - apply elem_of_app. right. by left. }
  assert (F4 : files s4 !! p = Some (File.set_Source key fv)).
  { unfold s4; simpl. by apply list_lookup_insert_eq. }
  clearbody s4.
  apply wp_bind. eapply wp_mono; [apply propagate_root_fields|].
  intros [] s5 (T5 & Hf5).
  destruct (Hf5 _ F4) as (fv5 & F5 & Hsrc & Happ).
  wp_next. intros fv6 Hfv6. wp_prim.
  pose proof (eq_trans (eq_sym F5) Hfv6) as [= <-].
  destruct Q4 as (Δq & H4 & Hall4 & Hin4).
  assert (Q5 : quiet_ext s1 s5) by (exists Δq; by rewrite T5).
  destruct (Hfin s5 Q5) as (Δ & HΔ & Hgets & Hshape). exists Δ.
  split; [done|]. split; [done|]. intros v [= <-]. simpl. split.
  - rewrite (Hshape Δq) by (by rewrite T5).
    apply elem_of_app. right. apply elem_of_app. by right.
  - split; [by exists (world s1) | by exists fv5].
Qed.

(** ** Dependencies: the invariant of the work loop *)

Lemma vertices_Add_new {V} `{EqDecision V} (v : V) (g : dag.AcyclicGraph V) :
  v ∈ dag.vertices (dag.Add v g).
Proof.
  unfold dag.Add. case_decide; simpl; [done|].
  apply elem_of_app. right. by left.
Qed.

Lemma vertices_Add_old {V} `{EqDecision V} (v w : V) (g : dag.AcyclicGraph V) :
  w ∈ dag.vertices g → w ∈ dag.vertices (dag.Add v g).
Proof.
  unfold dag.Add. case_decide; simpl; [done|]. intros. apply elem_of_app. by left.
Qed.

Lemma edges_Add {V} `{EqDecision V} (v : V) (g : dag.AcyclicGraph V) :
  dag.edges (dag.Add v g) = dag.edges g.
Proof. unfold dag.Add. by case_decide. Qed.

Lemma edges_Connect {V} `{EqDecision V} (e e' : V * V) (g : dag.AcyclicGraph V) :
  e' ∈ dag.edges (dag.Connect e g) ↔ e' = e ∨ e' ∈ dag.edges g.
Proof.
  unfold dag.Connect. case_decide; simpl.
  - split; [auto|]. by intros [-> | ?].
  - rewrite elem_of_app, list_elem_of_singleton. tauto.
Qed.

Lemma files_kept_refl (st : State) : files_kept st st.
Proof. by split. Qed.

Lemma files_kept_trans (st1 st2 st3 : State) :
  files_kept st1 st2 → files_kept st2 st3 → files_kept st1 st3.
Proof.
  intros [L1 F1] [L2 F2]. split; [lia|].
  intros q Hq. rewrite F2, F1; [done | done | lia].
Qed.

Lemma dep_outcome_kept i rootf (st st' : State) err :
  dep_outcome i rootf st st' err →
  files_kept st st' ∧ (cache_sep None st → cache_sep None st').
Proof.
  intros [Hrel | (s & key & Hrel & -> & _)].
  - split; [split|]; [apply (dr_len _ _ _ _ Hrel) | apply (dr_files _ _ _ _ Hrel)
                     | apply (dr_cache _ _ _ _ Hrel)].
  - split; [split|]; [apply (dr_len _ _ _ _ Hrel) | apply (dr_files _ _ _ _ Hrel)
                     | apply (dr_cache _ _ _ _ Hrel)].
Qed.

Lemma vertex_of_key_kept (st0 st st' : State) k v :
  vertex_of_key c st0 st k v → files_kept st st' → vertex_of_key c st0 st' k v.
Proof.
  intros (Hlen & Hdir & fv & Hfv & Hs & Hn) [L F]. split; [done|]. split; [done|].
  exists fv. split; [|done]. rewrite F; [done|]. by eapply lookup_lt_Some.
Qed.

Lemma connected_mono (st st' : State) vm vm' g g' v :
  connected E st vm g v → files_kept st st' →
  (∀ k w, vm !! k = Some w → vm' !! k = Some w) →
  (∀ e, e ∈ dag.edges g → e ∈ dag.edges g') →
  connected E st' vm' g' v.
Proof.
  intros (fv & Hfv & Hall) [L F] Hvm Hg. exists fv. split.
  { rewrite F; [done|]. by eapply lookup_lt_Some. }
  intros dep Hdep. destruct (Hall dep Hdep) as (k & w & ? & ? & ?).
  exists k, w. auto.
Qed.

Lemma dep_inv_connect rootkey root g0 (st0 st : State) Δ vm g a b :
  dep_inv c rootkey root g0 st0 st Δ vm g →
  (∃ k, vm !! k = Some a) → (∃ k, vm !! k = Some b) →
  dep_inv c rootkey root g0 st0 st Δ vm (dag.Connect (dag.BasicEdge a b) g).
Proof.
  intros [] Ha Hb. constructor; try done.
  - intros v Hv. rewrite vertices_Connect. auto.
  - intros k v Hv Hk. rewrite vertices_Connect. eauto.
  - intros v Hv. rewrite vertices_Connect in Hv. auto.
  - intros x y [[= -> ->] | Hxy]%edges_Connect; auto.
  - intros k v Hv Hk. destruct (di_incoming0 k v Hv Hk) as [x Hx].
    exists x. apply edges_Connect. by right.
  - intros e He. apply edges_Connect. right. auto.
Qed.

Lemma dep_inv_new rootkey root g0 (st0 st st1 : State) Δ Δl vm g key current vertex :
  dep_inv c rootkey root g0 st0 st Δ vm g →
  vm !! key = None → (∃ k, vm !! k = Some current) →
  files_kept st st1 →
  dep_gets Δl = [key] → EvDepHasID key true ∈ Δl →
  vertex_of_key c st0 st1 key vertex →
  dep_inv c rootkey root g0 st0 st1 (Δ ++ Δl) (<[key := vertex]> vm)
    (dag.Connect (dag.BasicEdge current vertex) (dag.Add vertex g)).
Proof.
  intros [] Hnone [kc Hkc] Hkept Hgets Hid Hvk.
  assert (Hne : key ≠ rootkey) by (intros ->; congruence).
  assert (Hfresh : key ∉ dep_gets Δ).
  { intros Hin. destruct (di_gets0 key Hin) as [_ [? ?]]. congruence. }
  constructor.
  - by rewrite lookup_insert_ne.
  - rewrite dep_gets_app, Hgets. apply NoDup_app. split; [done|]. split.
    + intros x Hx ->%list_elem_of_singleton. done.
    + apply NoDup_singleton.
  - intros k. rewrite dep_gets_app, Hgets, elem_of_app, list_elem_of_singleton.
    intros [Hk | ->].
    + destruct (di_gets0 k Hk) as [? [v Hv]]. split; [done|].
      exists v. rewrite lookup_insert_ne; [done|]. intros ->. congruence.
    + split; [done|]. exists vertex. by apply lookup_insert_eq.
  - intros k v. rewrite lookup_insert. case_decide as Hk.
    + subst k. intros [= <-] _. rewrite dep_gets_app, Hgets. split.
      * apply elem_of_app. right. by left.
      * apply elem_of_app. by right.
    + intros Hv Hr. destruct (di_checked0 k v Hv Hr) as [? ?].
      rewrite dep_gets_app. split; apply elem_of_app; by left.
  - intros k v. rewrite lookup_insert. case_decide as Hk.
    + subst k. by intros [= <-] _.
    + intros Hv Hr. eapply vertex_of_key_kept; [by apply di_fields0 | done].
  - intros v Hv. rewrite vertices_Connect. by apply vertices_Add_old, di_old0.
  - intros k v. rewrite vertices_Connect, lookup_insert. case_decide as Hk.
    + intros [= <-] _. apply vertices_Add_new.
    + intros Hv Hr. apply vertices_Add_old. eauto.
  - intros v. rewrite vertices_Connect. intros [-> | Hv]%vertices_Add.
    + right. exists key. split; [done|]. by apply lookup_insert_eq.
    + destruct (di_new0 v Hv) as [? | (k & Hk & Hkv)]; [by left | right].
      exists k. split; [done|]. rewrite lookup_insert_ne; [done|].
      intros ->. congruence.
  - intros x y [[= -> ->] | Hxy]%edges_Connect.
    + right. split.
      * exists kc. rewrite lookup_insert_ne; [done|]. intros ->. congruence.
      * exists key. by apply lookup_insert_eq.
    + rewrite edges_Add in Hxy.
      destruct (di_edges0 x y Hxy) as [? | [[kx Hx] [ky Hy]]]; [by left | right].
      split; [exists kx | exists ky]; (rewrite lookup_insert_ne; [done|]);
        intros ->; congruence.
  - intros k v. rewrite lookup_insert. case_decide as Hk.
    + intros [= <-] _. exists current. apply edges_Connect. by left.
    + intros Hv Hr. destruct (di_incoming0 k v Hv Hr) as [x Hx].
      exists x. apply edges_Connect. right. by rewrite edges_Add.
  - intros e He. apply edges_Connect. right. rewrite edges_Add. auto.
Qed.

Lemma loop_inv_fetched rootkey root g0 (st0 st : State) s cur :
  loop_inv E c rootkey root g0 st0 st s cur → fetched_once rootkey st0 st.
Proof.
  intros [(Δ & HΔ & []) _ _ _]. exists Δ. split; [done|]. split; [done|].
  intros Hin. by destruct (di_gets0 rootkey Hin).
Qed.

Lemma each_dependency_inv fuel rootkey root g0 (st0 : State) current cur :
  ∀ deps done s (st : State),
  loop_inv E c rootkey root g0 st0 st s (Some current) →
  (∃ k, vertexMap s !! k = Some current) →
  files st !! CompiledGraphVertex.File current = Some cur →
  Application.Dependencies (File.Application cur) = done ++ deps →
  (∀ dep, dep ∈ done →
     ∃ k w, getter_Detect E (Dependency.Source dep)
              (filepath_Dir E (File.Path cur)) = Ok k ∧
            vertexMap s !! k = Some w ∧
            (current, w) ∈ dag.edges (depGraph s)) →
  wp (each_dependency E c fuel root current deps s)
     (λ r st', match r.1 with
               | None => loop_inv E c rootkey root g0 st0 st' r.2 None
               | Some _ => fetched_once rootkey st0 st'
               end) st.
Proof.
  induction deps as [|dep rest IH]; intros done s st Hinv Hcur Hfile Hdeps Hdone; simpl.
  { wp_prim. simpl. destruct Hinv as [Hi Hk Hc [Hq1 Hq2]]. constructor; try done.
    split; [done|]. intros k v Hv.
    destruct (Hq2 k v Hv) as [? | [[= ->] | ?]]; auto.
    right. right. exists cur. split; [done|]. intros dep Hdep. apply Hdone.
    by rewrite Hdeps, app_nil_r in Hdep. }
  wp_next. intros cur' Hcur'. pose proof (eq_trans (eq_sym Hfile) Hcur') as [= <-].
  destruct (getter_Detect E (Dependency.Source dep) (filepath_Dir E (File.Path cur)))
    as [key|err] eqn:Hdet.
  2: { wp_prim. simpl. by eapply loop_inv_fetched. }
  destruct Hinv as [(Δ & HΔ & Hdi) Hk Hc [Hq1 Hq2]].
  destruct (vertexMap s !! key) as [vertex|] eqn:Hkey.
  { wp_next. eapply wp_mono.
    { apply (IH (done ++ [dep])); simpl.
      - constructor; simpl; [|done|done|].
        + exists Δ. split; [done|]. apply dep_inv_connect; eauto.
        + split; [done|]. intros k v Hv.
          destruct (Hq2 k v Hv) as [? | [? | Hconn]]; auto.
          right. right. eapply connected_mono; [exact Hconn | apply files_kept_refl
                                               | done |].
          intros e He. apply edges_Connect. by right.
      - done.
      - done.
      - by rewrite <- app_assoc.
      - intros dep' [Hd | ->%list_elem_of_singleton]%elem_of_app.
        + destruct (Hdone dep' Hd) as (k & w & ? & ? & ?).
          exists k, w. split; [done|]. split; [done|]. apply edges_Connect. by right.
        + exists key, vertex. split; [done|]. split; [done|].
          apply edges_Connect. by left. }
    done. }
  apply wp_bind. apply wp_bind. eapply wp_mono.
  { apply wp_conj; [apply (load_dependency_spec "" root fuel key st)
                   | apply (load_dependency_trace fuel root key st)]; done. }
  intros v st1 [(Hout & Hv) (Δl & HΔl & Hgets & Hret)].
  apply dep_outcome_kept in Hout as [Hkept Hc1].
  assert (Hne : key ≠ rootkey).
  { intros ->. rewrite (di_root _ _ _ _ _ _ _ _ _ Hdi) in Hkey. done. }
  assert (Hfresh : key ∉ dep_gets Δ).
  { intros Hin. destruct (di_gets _ _ _ _ _ _ _ _ _ Hdi key Hin) as [_ [? ?]]. congruence. }
  destruct v as [vertex|err].
  2: { wp_prim. wp_prim. simpl. exists (Δ ++ Δl).
       split; [by rewrite HΔl, HΔ, app_assoc|].
       rewrite dep_gets_app, Hgets. split.
       - apply NoDup_app. split; [apply (di_nodup _ _ _ _ _ _ _ _ _ Hdi)|]. split.
         + by intros x Hx ->%list_elem_of_singleton.
         + apply NoDup_singleton.
       - intros [Hin | Hin%list_elem_of_singleton]%elem_of_app; [|done].
         by destruct (di_gets _ _ _ _ _ _ _ _ _ Hdi rootkey Hin). }
  wp_prim. destruct (Hv vertex eq_refl) as [Hfresh1 _].
  destruct (Hret vertex eq_refl) as (Hid & Hdir & fv & Hfv & Hsrc & Hname).
  assert (Hvk : vertex_of_key c st0 st1 key vertex).
  { split; [destruct Hk; lia|]. split; [done|]. by exists fv. }
  assert (Hfile1 : files st1 !! CompiledGraphVertex.File current = Some cur).
  { destruct Hkept as [_ F]. rewrite F; [done|]. by eapply lookup_lt_Some. }
  assert (Hmono : ∀ k w, vertexMap s !! k = Some w →
                         <[key := vertex]> (vertexMap s) !! k = Some w).
  { intros k w Hw. rewrite lookup_insert_ne; [done|]. intros ->. congruence. }
  eapply wp_mono.
  { apply (IH (done ++ [dep])); simpl.
    - constructor; simpl.
      + exists (Δ ++ Δl). split; [by rewrite HΔl, HΔ, app_assoc|].
        by eapply dep_inv_new.
      + by eapply files_kept_trans.
      + by apply Hc1.
      + split.
        * intros w [Hw | ->%list_elem_of_singleton]%elem_of_app.
          -- destruct (Hq1 w Hw) as [k Hkw]. exists k. by apply Hmono.
          -- exists key. by apply lookup_insert_eq.
        * intros k w. rewrite lookup_insert. case_decide as Hkk.
          -- intros [= <-]. left. apply elem_of_app. right. by left.
          -- intros Hw. destruct (Hq2 k w Hw) as [? | [? | Hconn]].
             ++ left. apply elem_of_app. by left.
             ++ auto.
             ++ right. right. eapply connected_mono; [exact Hconn | done | done |].
                intros e He. apply edges_Connect. right. by rewrite edges_Add.
    - destruct Hcur as [kc Hkc]. exists kc. by apply Hmono.
    - done.
    - by rewrite <- app_assoc.
    - intros dep' [Hd | ->%list_elem_of_singleton]%elem_of_app.
      + destruct (Hdone dep' Hd) as (k & w & ? & ? & ?).
        exists k, w. split; [done|]. split; [by apply Hmono|].
        apply edges_Connect. right. by rewrite edges_Add.
      + exists key, vertex. split; [done|]. split; [by apply lookup_insert_eq|].
        apply edges_Connect. by left. }
  done.
Qed.

Lemma work_loop_inv fuel rootkey root g0 (st0 : State) : ∀ n s (st : State),
  loop_inv E c rootkey root g0 st0 st s None →
  wp (work_loop E c fuel n root s)
     (λ r st', match r.1 with
               | None => deps_done E c rootkey root g0 st0 st' r.2
               | Some _ => fetched_once rootkey st0 st'
               end) st.
Proof.
  assert (Hend : ∀ s (st : State),
            loop_inv E c rootkey root g0 st0 st s None → last (queue s) = None →
            deps_done E c rootkey root g0 st0 st (depGraph s)).
  { intros s st [(Δ & HΔ & Hdi) Hk Hc [Hq1 Hq2]] Hlast.
    apply last_None in Hlast. exists Δ, (vertexMap s).
    split; [done|]. split; [done|]. split; [done|]. intros k v Hv.
    destruct (Hq2 k v Hv) as [Hin | [? | ?]]; [|done..].
    rewrite Hlast in Hin. by apply elem_of_nil in Hin. }
  induction n as [|n IH]; intros s st Hinv; simpl.
  { destruct (last (queue s)) eqn:Hlast; [done|]. wp_prim. simpl. by apply Hend. }
  destruct (last (queue s)) as [current|] eqn:Hlast.
  2: { wp_prim. simpl. by apply Hend. }
  wp_next. intros cur Hcur.
  apply last_Some in Hlast as [q' Hq'].
  assert (Htake : take (length (queue s) - 1) (queue s) = q').
  { rewrite Hq', length_app. simpl.
    replace (length q' + 1 - 1) with (length q') by lia. apply take_app_length. }
  rewrite Htake.
  destruct Hinv as [Hi Hk Hc [Hq1 Hq2]].
  assert (Hcurk : ∃ k, vertexMap s !! k = Some current).
  { apply Hq1. rewrite Hq'. apply elem_of_app. right. by left. }
  apply wp_bind. eapply wp_mono.
  { apply (each_dependency_inv fuel rootkey root g0 st0 current cur
             (Application.Dependencies (File.Application cur)) []
             (mkDepState (vertexMap s) q' (depGraph s)) st); simpl.
    - constructor; simpl; [done | done | done |]. split.
      + intros v Hv. apply Hq1. rewrite Hq'. apply elem_of_app. by left.
      + intros k v Hv. destruct (Hq2 k v Hv) as [Hin | [? | ?]]; [|done|auto].
        rewrite Hq' in Hin.
        apply elem_of_app in Hin as [? | ->%list_elem_of_singleton]; auto.
    - done.
    - done.
    - done.
    - by intros dep ?%elem_of_nil. }
  intros [err s1] st1 Hpost. simpl in *.
  destruct err as [err|]; [by wp_prim|]. by apply IH.
Qed.

Lemma compileDependencies_inv fuel root graph (st : State) :
  cache_sep None st →
  wp (compileDependencies E c fuel root graph)
     (λ r st',
        ∃ rootv, files st !! CompiledGraphVertex.File root = Some rootv ∧
          match getter_Detect E "." (filepath_Dir E (File.Path rootv)) with
          | Fail _ => st' = st ∧ r.2 = graph ∧ is_Some r.1
          | Ok rootkey =>
              match r.1 with
              | None => deps_done E c rootkey root graph st st' r.2
              | Some _ => fetched_once rootkey st st'
              end
          end) st.
Proof.
  intros Hc. unfold compileDependencies.
  wp_next. intros rootv Hrootv.
  destruct (getter_Detect E "." (filepath_Dir E (File.Path rootv))) as [key|err] eqn:Hdet.
  2: { wp_prim. exists rootv. rewrite Hdet. simpl. eauto. }
  eapply wp_mono.
  { apply (work_loop_inv fuel key root graph st). constructor; simpl.
    - exists []. split; [by rewrite app_nil_r|].
      constructor.
      + by apply lookup_singleton_eq.
      + constructor.
      + by intros k ?%elem_of_nil.
      + intros k v [<- <-]%lookup_singleton_Some. done.
      + intros k v [<- <-]%lookup_singleton_Some. done.
      + done.
      + intros k v [<- <-]%lookup_singleton_Some. done.
      + auto.
      + auto.
      + intros k v [<- <-]%lookup_singleton_Some. done.
      + done.
    - apply files_kept_refl.
    - done.
    - split.
      + intros v ->%list_elem_of_singleton. exists key. by apply lookup_singleton_eq.
      + intros k v [<- <-]%lookup_singleton_Some. left. by left. }
  intros r st' Hpost. exists rootv. rewrite Hdet. done.
Qed.


(** X5.  [compileDependencies] asks the dependency storage for each
    canonical key at most once, whether it ends with an error or not,
    and it never asks for the key of the root itself. *)
Theorem compileDependencies_fetches_once
    (fuel : nat) (root : CompiledGraphVertex.t)
    (graph : dag.AcyclicGraph CompiledGraphVertex.t) (st st' : State)
    (r : option error * dag.AcyclicGraph CompiledGraphVertex.t) :
  cache_sep None st →
  compileDependencies E c fuel root graph st = Done r st' →
  ∃ Δ, trace st' = trace st ++ Δ ∧ NoDup (dep_gets Δ) ∧
       ∀ rootv rootkey,
         files st !! CompiledGraphVertex.File root = Some rootv →
         getter_Detect E "." (filepath_Dir E (File.Path rootv)) = Ok rootkey →
         rootkey ∉ dep_gets Δ.
Proof.
  intros Hc Hrun.
  apply (wp_done _ _ _ _ _ (compileDependencies_inv fuel root graph st Hc)) in Hrun
    as (rootv & Hrootv & Hpost).
  destruct (getter_Detect E "." (filepath_Dir E (File.Path rootv)))
    as [rootkey|err] eqn:Hdet.
  - assert (Hf : fetched_once rootkey st st').
    { destruct r.1; [done|].
      destruct Hpost as (Δ & vm & HΔ & Hdi & _). exists Δ.
      split; [done|]. split; [apply (di_nodup _ _ _ _ _ _ _ _ _ Hdi)|].
      intros Hin. by destruct (di_gets _ _ _ _ _ _ _ _ _ Hdi rootkey Hin). }
    destruct Hf as (Δ & HΔ & Hnd & Hroot). exists Δ. split; [done|]. split; [done|].
    intros rootv' rootkey' Hr Hd.
    pose proof (eq_trans (eq_sym Hrootv) Hr) as [= <-]. congruence.
  - destruct Hpost as (-> & _). exists []. split; [by rewrite app_nil_r|].
    split; [constructor|]. intros rootv' rootkey' Hr Hd.
    pose proof (eq_trans (eq_sym Hrootv) Hr) as [= <-]. congruence.
Qed.

Lemma deps_done_of_run fuel root graph graph' (st st' : State) :
  cache_sep None st →
  compileDependencies E c fuel root graph st = Done (None, graph') st' →
  ∃ rootkey, deps_done E c rootkey root graph st st' graph'.
Proof.
  intros Hc Hrun.
  apply (wp_done _ _ _ _ _ (compileDependencies_inv fuel root graph st Hc)) in Hrun
    as (rootv & Hrootv & Hpost). simpl in Hpost.
  destruct (getter_Detect E "." (filepath_Dir E (File.Path rootv))) as [rootkey|err].
  - by exists rootkey.
  - by destruct Hpost as (_ & _ & [? ?]).
Qed.

(** X6.  A run of [compileDependencies] without error only extends the
    graph: the vertices and edges it was given are still there, every
    edge it added joins the root or vertices of the graph, and every
    vertex it added is the target of an edge. *)
Theorem compileDependencies_extends_graph
    (fuel : nat) (root : CompiledGraphVertex.t)
    (graph graph' : dag.AcyclicGraph CompiledGraphVertex.t) (st st' : State) :
  cache_sep None st →
  compileDependencies E c fuel root graph st = Done (None, graph') st' →
  (∀ v, v ∈ dag.vertices graph → v ∈ dag.vertices graph') ∧
  (∀ e, e ∈ dag.edges graph → e ∈ dag.edges graph') ∧
  (∀ a b, (a, b) ∈ dag.edges graph' → (a, b) ∉ dag.edges graph →
     (a = root ∨ a ∈ dag.vertices graph') ∧ (b = root ∨ b ∈ dag.vertices graph')) ∧
  (∀ v, v ∈ dag.vertices graph' → v ∉ dag.vertices graph →
     ∃ a, (a, v) ∈ dag.edges graph').
Proof.
  intros Hc Hrun.
  destruct (deps_done_of_run _ _ _ _ _ _ Hc Hrun)
    as (rootkey & Δ & vm & HΔ & Hdi & Hkept & Hconn).
  assert (Hin : ∀ k v, vm !! k = Some v → v = root ∨ v ∈ dag.vertices graph').
  { intros k v Hv. destruct (decide (k = rootkey)) as [-> | Hne].
    - left. rewrite (di_root _ _ _ _ _ _ _ _ _ Hdi) in Hv. by injection Hv.
    - right. by apply (di_mapped _ _ _ _ _ _ _ _ _ Hdi k). }
  split; [apply (di_old _ _ _ _ _ _ _ _ _ Hdi)|].
  split; [apply (di_old_edges _ _ _ _ _ _ _ _ _ Hdi)|]. split.
  - intros a b Hab Hnew.
    destruct (di_edges _ _ _ _ _ _ _ _ _ Hdi a b Hab) as [? | [[ka Ha] [kb Hb]]]; [done|].
    eauto.
  - intros v Hv Hnew.
    destruct (di_new _ _ _ _ _ _ _ _ _ Hdi v Hv) as [? | (k & Hk & Hkv)]; [done|].
    by apply (di_incoming _ _ _ _ _ _ _ _ _ Hdi k).
Qed.


(** X8.  After a run of [compileDependencies] without error, the graph
    has an edge for every declared dependency: for the root and for
    every vertex added, each dependency of its Appfile resolved to a
    canonical key, and there is an edge to a vertex for that key, which
    is the root or a vertex of the graph whose file has the key as its
    source. *)
Theorem compileDependencies_connects_dependencies
    (fuel : nat) (root : CompiledGraphVertex.t)
    (graph graph' : dag.AcyclicGraph CompiledGraphVertex.t) (st st' : State) :
  cache_sep None st →
  compileDependencies E c fuel root graph st = Done (None, graph') st' →
  ∀ v, v = root ∨ (v ∈ dag.vertices graph' ∧ v ∉ dag.vertices graph) →
    ∃ fv, files st' !! CompiledGraphVertex.File v = Some fv ∧
      ∀ dep, dep ∈ Application.Dependencies (File.Application fv) →
        ∃ k w,
          getter_Detect E (Dependency.Source dep) (filepath_Dir E (File.Path fv)) = Ok k ∧
          (v, w) ∈ dag.edges graph' ∧
          (w = root ∨
           (w ∈ dag.vertices graph' ∧
            ∃ fw, files st' !! CompiledGraphVertex.File w = Some fw ∧
                  File.Source fw = k)).
Proof.
  intros Hc Hrun v Hv.
  destruct (deps_done_of_run _ _ _ _ _ _ Hc Hrun)
    as (rootkey & Δ & vm & HΔ & Hdi & Hkept & Hconn).
  assert (Hmap : ∃ k, vm !! k = Some v).
  { destruct Hv as [-> | [Hv Hnew]].
    - exists rootkey. apply (di_root _ _ _ _ _ _ _ _ _ Hdi).
    - destruct (di_new _ _ _ _ _ _ _ _ _ Hdi v Hv) as [? | (k & _ & Hkv)]; [done|].
      by exists k. }
  destruct Hmap as [kv Hkv]. destruct (Hconn kv v Hkv) as (fv & Hfv & Hall).
  exists fv. split; [done|]. intros dep Hdep.
  destruct (Hall dep Hdep) as (k & w & Hdet & Hw & Hedge).
  exists k, w. split; [done|]. split; [done|].
  destruct (decide (k = rootkey)) as [-> | Hne].
  - left. rewrite (di_root _ _ _ _ _ _ _ _ _ Hdi) in Hw. by injection Hw.
  - right. split; [by apply (di_mapped _ _ _ _ _ _ _ _ _ Hdi k)|].
    destruct (di_fields _ _ _ _ _ _ _ _ _ Hdi k w Hw Hne) as (_ & _ & fw & Hfw & Hsrc & _).
    by exists fw.
Qed.

(** ** Validation *)

Lemma read_data_ro p (st st' : State) d :
  read_data p st = Done d st' → st' = st.
Proof.
  unfold read_data. intros Hrun.
  apply bind_done in Hrun as (v & s1 & Hget & Hrun).
  unfold get_file in Hget. destruct (files st !! p); [|done]. injection Hget as -> <-.
  destruct (File.Project v) as [q|]; [|by injection Hrun].
  apply bind_done in Hrun as (x & s2 & Hget & Hrun).
  unfold get_project in Hget. destruct (projects st !! q); [|done].
  injection Hget as <- <-. by injection Hrun.
Qed.

Lemma validate_files_ro vs : ∀ result (st st' : State) r,
  validate_files E vs result st = Done r st' →
  st' = st ∧
  (r = None ↔
   result = None ∧
   ∀ v, v ∈ vs → ∃ d, read_data (CompiledGraphVertex.File v) st = Done d st ∧
                      File_Validate E d = None).
Proof.
  induction vs as [|v vs IH]; intros result st st' r Hrun; simpl in Hrun.
  { injection Hrun as <- <-. split; [done|]. split; [|by intros [? _]].
    intros ->. split; [done|]. by intros v ?%elem_of_nil. }
  apply bind_done in Hrun as (d & s1 & Hread & Hrun).
  pose proof (read_data_ro _ _ _ _ Hread) as ->.
  destruct (File_Validate E d) as [err|] eqn:Hval.
  - apply IH in Hrun as [-> Hiff]. split; [done|]. split.
    + intros Hr. by apply Hiff in Hr as [? _].
    + intros [_ Hall]. destruct (Hall v) as (d' & Hd' & Hv'); [by left|].
      rewrite Hread in Hd'. injection Hd' as <-. congruence.
  - apply IH in Hrun as [-> Hiff]. split; [done|]. split.
    + intros Hr. apply Hiff in Hr as [-> Hall]. split; [done|].
      intros w [-> | Hw]%elem_of_cons; [by exists d | auto].
    + intros [-> Hall]. apply Hiff. split; [done|]. intros w Hw. apply Hall. by right.
Qed.

Lemma foldl_Some_None {A B} (f : option A → B → option A) (l : list B) acc :
  (∀ a b, is_Some (f a b)) → foldl f acc l = None → acc = None ∧ l = [].
Proof.
  intros Hf. revert acc. induction l as [|x l IH]; intros acc; simpl; [done|].
  intros [Hacc _]%IH. destruct (Hf acc x) as [? ?]. congruence.
Qed.

Lemma Validate_ro compiled (st st' : State) r :
  Validate E compiled st = Done r st' → st' = st.
Proof. unfold Validate. by intros [-> _]%validate_files_ro. Qed.

(** X9.  [Validate] never changes anything, and when it returns, it
    returns nil exactly when the graph has no cycle and the file of
    every vertex validates. *)
Theorem Validate_nil_iff_valid
    (compiled : Compiled.t) (st st' : State) (r : option error) :
  Validate E compiled st = Done r st' →
  st' = st ∧
  (r = None ↔
   dag.Cycles (Compiled.Graph compiled) = [] ∧
   ∀ v, v ∈ dag.vertices (Compiled.Graph compiled) →
     ∃ d, read_data (CompiledGraphVertex.File v) st = Done d st ∧
          File_Validate E d = None).
Proof.
  unfold Validate. intros Hrun. apply validate_files_ro in Hrun as [-> Hiff].
  split; [done|]. rewrite Hiff. split.
  - intros [Hfold Hall]. split; [|done].
    apply foldl_Some_None in Hfold as [_ ?]; [done|]. intros; by eexists.
  - intros [-> Hall]. by split.
Qed.

(** ** MinCompile and Compile *)

Lemma MinCompile_parts fuel f (st st' : State) compiled :
  MinCompile E c fuel f st = Done (Return compiled) st' →
  compileImports E c fuel f st = Done None st' ∧
  ∃ fv, files st' !! f = Some fv ∧
    compiled = Compiled.mk f
                 (dag.Add (CompiledGraphVertex.mk f ""
                             (Application.Name (File.Application fv))) dag.empty).
Proof.
  unfold MinCompile. intros Hrun.
  apply bind_done in Hrun as (err & s1 & Himp & Hrun).
  destruct err as [err|]; [done|].
  apply bind_done in Hrun as (fv & s2 & Hget & Hrun).
  unfold get_file in Hget. destruct (files s1 !! f) as [fv'|] eqn:Hfv; [|done].
  injection Hget as -> <-. injection Hrun as <- <-.
  split; [done|]. by exists fv.
Qed.

(** X10.  When [MinCompile] returns a compiled Appfile, import
    resolution returned no error, and the graph holds exactly one
    vertex and no edge: the vertex of the file, without directory, named
    after the application of the file as it is once the imports are
    merged.  [Root] finds this vertex. *)
Theorem MinCompile_single_vertex
    (fuel : nat) (f : ptr) (st st' : State) (compiled : Compiled.t) :
  MinCompile E c fuel f st = Done (Return compiled) st' →
  compileImports E c fuel f st = Done None st' ∧
  ∃ fv, files st' !! f = Some fv ∧
    let vertex := CompiledGraphVertex.mk f "" (Application.Name (File.Application fv)) in
    compiled = Compiled.mk f (dag.mkGraph [vertex] []) ∧
    dag.Root (Compiled.Graph compiled) = Ok vertex.
Proof.
  intros (Himp & fv & Hfv & ->)%MinCompile_parts.
  split; [done|]. by exists fv.
Qed.

Lemma compileVersion_frame dir (st : State) :
  wp (compileVersion E dir)
     (λ _ s1, files s1 = files st ∧ projects s1 = projects st ∧
              importCache s1 = importCache st) st.
Proof.
  unfold compileVersion. wp_next. wp_next. intros r w _. destruct r; [by wp_prim|].
  wp_next. wp_prim. by intros.
Qed.

(** X11.  When the version file cannot be written, [Compile] returns
    the failure under the heading "Error writing compiled Appfile
    version", and nothing else has happened: the only calls made are
    those on the version file, and files, projects and cache are as
    they were. *)
Theorem Compile_stops_at_version_failure
    (fuel : nat) (f : ptr) (st s1 : State) (err : string) :
  compileVersion E (Dir (opts c)) st = Done (Some err) s1 →
  Compile E c fuel f st
    = Done (ReturnErr (Errorf ("Error writing compiled Appfile version: " +:+ err))) s1 ∧
  (∃ Δ, trace s1 = trace st ++ Δ ∧ version_events (Dir (opts c)) Δ) ∧
  files s1 = files st ∧ projects s1 = projects st ∧ importCache s1 = importCache st.
Proof.
  intros Hv. split.
  { unfold Compile, resolve_and_validate, mbind, M_bind. by rewrite Hv. }
  pose proof (wp_done _ _ _ _ _ (compileVersion_spec (Dir (opts c)) st) Hv)
    as (w & Δv & -> & HΔv).
  pose proof (wp_done _ _ _ _ _ (compileVersion_frame (Dir (opts c)) st) Hv)
    as (? & ? & ?).
  split; [by exists Δv | done].
Qed.

(** The steps of a [Compile] that returned a compiled Appfile. *)
Lemma Compile_parts fuel f (st st' : State) compiled :
  Compile E c fuel f st = Done (Return compiled) st' →
  ∃ sv sid simp sdep fv graph,
    let vertex := CompiledGraphVertex.mk f "" (Application.Name (File.Application fv)) in
    compileVersion E (Dir (opts c)) st = Done None sv ∧
    ensure_id E f sv = Done None sid ∧
    compileImports E c fuel f sid = Done None simp ∧
    files simp !! f = Some fv ∧
    compileDependencies E c fuel vertex (dag.mkGraph [vertex] []) simp
      = Done (None, graph) sdep ∧
    Validate E (Compiled.mk f graph) sdep = Done None sdep ∧
    compileWrite E (Dir (opts c)) compiled sdep = Done None st' ∧
    compiled = Compiled.mk f graph.
Proof.
  unfold Compile. intros Hrun.
  apply bind_done in Hrun as (r & s1 & Hres & Hrun).
  destruct r as [compiled'|]; [|done].
  apply bind_done in Hrun as (werr & s2 & Hwrite & Hrun).
  destruct werr; [done|]. injection Hrun as -> <-.
  unfold resolve_and_validate in Hres.
  apply bind_done in Hres as (verr & sv & Hver & Hres).
  destruct verr; [done|].
  apply bind_done in Hres as (ierr & sid & Hid & Hres).
  destruct ierr; [done|].
  apply bind_done in Hres as (mc & simp & Hmin & Hres).
  destruct mc as [compiled0|]; [|done].
  apply MinCompile_parts in Hmin as (Himp & fv & Hfv & ->).
  apply bind_done in Hres as (d & s3 & Hread & Hres).
  pose proof (read_data_ro _ _ _ _ Hread) as ->.
  destruct (File_Validate E d); [done|].
  change (dag.Root _) with
    (Ok (CompiledGraphVertex.mk f "" (Application.Name (File.Application fv))))
    in Hres.
  apply bind_done in Hres as ([derr graph] & sdep & Hdep & Hres).
  destruct derr; [done|].
  apply bind_done in Hres as (verr & s4 & Hval & Hres).
  pose proof (Validate_ro _ _ _ _ Hval) as ->.
  destruct verr; [done|]. injection Hres as <- <-.
  exists sv, sid, simp, sdep, fv, graph. simpl in *. done.
Qed.

Lemma compileImports_sep fuel f (st st' : State) r :
  cache_sep (Some f) st → compileImports E c fuel f st = Done r st' →
  cache_sep (Some f) st'.
Proof.
  intros Hsep Hrun.
  assert (Hf : f < len st).
  { unfold compileImports in Hrun. apply bind_done in Hrun as (v & s0 & Hget & _).
    unfold get_file in Hget. destruct (files st !! f) eqn:H; [|done].
    by eapply lookup_lt_Some. }
  apply (wp_done _ _ _ _ _ (compileImports_spec fuel f st Hf Hsep)) in Hrun
    as [[_ ->] | (g & Hrel & _)]; [done|].
  apply (cache_sep_rel (Some f) (set_resultErr None (set_graph g st)) st');
    [exact Hsep | exact Hrel | by intros ? [= <-]].
Qed.

Lemma before_imports_sep f (st sv sid : State) verr ierr :
  cache_sep (Some f) st →
  compileVersion E (Dir (opts c)) st = Done verr sv →
  ensure_id E f sv = Done ierr sid →
  cache_sep (Some f) sid.
Proof.
  intros Hsep Hver Hid.
  apply (wp_done _ _ _ _ _ (compileVersion_frame (Dir (opts c)) st)) in Hver
    as (Fv & _ & Cv).
  apply (wp_done _ _ _ _ _ (ensure_id_spec f sv)) in Hid as (_ & Ci & Li & _).
  intros k p Hk. rewrite Ci, Cv in Hk. destruct (Hsep k p Hk) as [Hp Hne].
  split; [|done]. rewrite Li. unfold len in *. by rewrite Fv.
Qed.

Lemma Validate_None compiled (st st' : State) :
  Validate E compiled st = Done None st' →
  dag.Cycles (Compiled.Graph compiled) = [] ∧
  ∀ v, v ∈ dag.vertices (Compiled.Graph compiled) →
    ∃ d, read_data (CompiledGraphVertex.File v) st = Done d st ∧
         File_Validate E d = None.
Proof.
  unfold Validate. intros Hrun. apply validate_files_ro in Hrun as [-> Hiff].
  destruct Hiff as [Hiff _]. destruct (Hiff eq_refl) as [Hfold Hall].
  split; [|done].
  apply foldl_Some_None in Hfold as [_ ?]; [done|]. intros; by eexists.
Qed.

Lemma read_data_frame p (st st' : State) d :
  files st' = files st → projects st' = projects st →
  read_data p st = Done d st → read_data p st' = Done d st'.
Proof.
  intros Hf Hp. unfold read_data, mbind, M_bind, get_file, get_project.
  rewrite Hf. destruct (files st !! p) as [v|]; [|done].
  destruct (File.Project v) as [q|].
  - rewrite Hp. destruct (projects st !! q); [|done]. by intros [= <-].
  - by intros [= <-].
Qed.

Lemma compileWrite_parts dir compiled (st st' : State) :
  compileWrite E dir compiled st = Done None st' →
  files st' = files st ∧ projects st' = projects st ∧
  ∃ data, json_MarshalIndent E compiled (files st) (projects st) = Ok data ∧
          trace st' = trace st ++ [EvCreate (filepath_Join dir CompileFilename);
                                   EvWrite (filepath_Join dir CompileFilename) data].
Proof.
  unfold compileWrite. intros Hrun.
  apply bind_done in Hrun as (data & s1 & Hm & Hrun). injection Hm as <- <-.
  destruct (json_MarshalIndent E compiled (files st) (projects st)) as [data|]; [|done].
  apply bind_done in Hrun as ([] & s1 & Hemit & Hrun). injection Hemit as <-.
  apply bind_done in Hrun as (r & s2 & Hcreate & Hrun).
  unfold call in Hcreate. simpl in Hcreate.
  destruct (os_Create E (filepath_Join dir CompileFilename) (world st)) as [r' w].
  injection Hcreate as -> <-. destruct r; [done|].
  apply bind_done in Hrun as ([] & s3 & Hemit & Hrun). injection Hemit as <-.
  unfold call in Hrun. simpl in Hrun.
  destruct (file_Write E (filepath_Join dir CompileFilename) data w) as [r'' w'].
  injection Hrun as -> <-. simpl.
  split; [done|]. split; [done|]. exists data. split; [done|].
  by rewrite <- app_assoc.
Qed.

(** X12.  What a [Compile] that succeeds returns is validated: the
    compiled Appfile is the file passed in, its graph holds the vertex of
    that file, has no cycle, and the file of every vertex validates in
    the state the call ends in. *)
Theorem Compile_result_is_valid
    (fuel : nat) (f : ptr) (st st' : State) (compiled : Compiled.t) :
  cache_sep (Some f) st →
  Compile E c fuel f st = Done (Return compiled) st' →
  Compiled.File compiled = f ∧
  (∃ name, CompiledGraphVertex.mk f "" name ∈ dag.vertices (Compiled.Graph compiled)) ∧
  dag.Cycles (Compiled.Graph compiled) = [] ∧
  ∀ v, v ∈ dag.vertices (Compiled.Graph compiled) →
    ∃ d, read_data (CompiledGraphVertex.File v) st' = Done d st' ∧
         File_Validate E d = None.
Proof.
  intros Hsep Hrun.
  apply Compile_parts in Hrun
    as (sv & sid & simp & sdep & fv & graph & Hver & Hid & Himp & Hfv & Hdep & Hval
        & Hwrite & ->).
  simpl in *.
  pose proof (before_imports_sep _ _ _ _ _ _ Hsep Hver Hid) as Hsep1.
  pose proof (compileImports_sep _ _ _ _ _ Hsep1 Himp) as Hsep2.
  apply cache_sep_None in Hsep2.
  destruct (deps_done_of_run _ _ _ _ _ _ Hsep2 Hdep)
    as (rootkey & Δ & vm & HΔ & Hdi & Hkept & Hconn).
  apply Validate_None in Hval as [Hcyc Hall]. simpl in *.
  apply compileWrite_parts in Hwrite as (Hf & Hp & _).
  split; [done|]. split.
  { eexists. apply (di_old _ _ _ _ _ _ _ _ _ Hdi). by left. }
  split; [done|]. intros v Hv. destruct (Hall v Hv) as (d & Hd & Hok).
  exists d. split; [|done]. by apply (read_data_frame _ sdep).
Qed.

(** X13.  A [Compile] that succeeds ends with the creation and the
    write of the compiled Appfile under the output directory, and what
    it writes is the JSON of the value it returns. *)
Theorem Compile_writes_its_result
    (fuel : nat) (f : ptr) (st st' : State) (compiled : Compiled.t) :
  Compile E c fuel f st = Done (Return compiled) st' →
  ∃ T data,
    trace st' = T ++ [EvCreate (filepath_Join (Dir (opts c)) CompileFilename);
                      EvWrite (filepath_Join (Dir (opts c)) CompileFilename) data] ∧
    json_MarshalIndent E compiled (files st') (projects st') = Ok data.
Proof.
  intros Hrun.
  apply Compile_parts in Hrun
    as (sv & sid & simp & sdep & fv & graph & _ & _ & _ & _ & _ & _ & Hwrite & ->).
  apply compileWrite_parts in Hwrite as (Hf & Hp & data & Hdata & Htrace).
  exists (trace sdep), data. split; [done|]. by rewrite Hf, Hp.
Qed.

Lemma ensure_id_parts f (st st' : State) fv :
  files st !! f = Some fv → File.Path fv ≠ "" →
  ensure_id E f st = Done None st' →
  ∃ id w, File_loadID E fv w = Ok id ∧
          files st' = <[f := File.set_ID id fv]> (files st) ∧
          importCache st' = importCache st.
Proof.
  intros Hfv Hpath Hrun. unfold ensure_id in Hrun.
  apply bind_done in Hrun as (v & s0 & Hget & Hrun).
  unfold get_file in Hget. rewrite Hfv in Hget. injection Hget as <- <-.
  rewrite decide_False in Hrun by done.
  apply bind_done in Hrun as ([] & s0 & Hemit & Hrun). injection Hemit as <-.
  apply bind_done in Hrun as (h & s1 & Hask & Hrun). injection Hask as <- <-.
  simpl in Hrun.
  destruct (File_hasID E fv (world st)) as [hasID|]; [|done].
  apply bind_done in Hrun as (r & s2 & Hinit & Hrun).
  assert (Hsame : files s2 = files st ∧ importCache s2 = importCache st).
  { destruct hasID; [by injection Hinit as _ <-|].
    apply bind_done in Hinit as ([] & s' & Hemit & Hinit). injection Hemit as <-.
    unfold call in Hinit. simpl in Hinit.
    destruct (File_initID E fv (world st)) as [r' w].
    by injection Hinit as _ <-. }
  destruct Hsame as [Hf Hc]. destruct r; [done|].
  apply bind_done in Hrun as ([] & s2' & Hemit & Hrun). injection Hemit as <-.
  apply bind_done in Hrun as (l & s3 & Hload & Hrun). injection Hload as <- <-.
  simpl in Hrun.
  destruct (File_loadID E fv (world s2)) as [id|] eqn:Hl; [|done].
  apply bind_done in Hrun as ([] & s4 & Hupd & Hrun).
  unfold update_file in Hupd. simpl in Hupd. rewrite Hf, Hfv in Hupd.
  injection Hupd as <-. injection Hrun as <-.
  exists id, (world s2). simpl. by rewrite Hc.
Qed.

Lemma compileImports_keeps_ID fuel f (st st' : State) v :
  Merge_keeps_ID E → cache_sep (Some f) st → cache_ids st →
  files st !! f = Some v →
  compileImports E c fuel f st = Done None st' →
  ∃ v', files st' !! f = Some v' ∧ File.ID v' = File.ID v.
Proof.
  intros Hkeep Hsep Hids Hv Hrun. unfold compileImports in Hrun.
  apply bind_done in Hrun as (v0 & s0 & Hget & Hrun).
  unfold get_file in Hget. rewrite Hv in Hget. injection Hget as <- <-.
  assert (Hf : f < len st) by (by eapply lookup_lt_Some).
  case_decide as Hemp; [injection Hrun as <-; by exists v|].
  apply bind_done in Hrun as ([] & s1 & Hinit & Hrun). injection Hinit as <-.
  apply bind_done in Hrun as (ok & s2 & Himport & Hres).
  injection Hres as Hr <-.
  match type of Himport with _ ?s = _ => set (s1 := s) in * end.
  pose proof (importSingle_ok True (λ _, Hkeep) fuel "root" f s1 Hf Hsep
                (λ _, Hids)) as Hwp.
  apply (wp_done _ _ _ _ _ Hwp) in Himport as (R & _ & Herr & Hid).
  assert (ok = true) as ->.
  { destruct ok; [done|]. destruct (Herr eq_refl) as [e He]. congruence. }
  pose proof (rel_len _ _ _ R) as L.
  destruct (lookup_lt_is_Some_2 (files s2) f) as [v' Hv'].
  { change (len s1) with (len st) in L. unfold len in *. lia. }
  exists v'. split; [done|]. by apply (Hid I eq_refl v v').
Qed.

(** X14.  Imports and dependencies leave the identity of the root
    alone: when merging a file with empty ID keeps the ID of the host,
    and [Compile] succeeds on a file with a path, the ID this file has
    in the end is the one [Compile] loaded from its ID file. *)
Theorem Compile_keeps_loaded_ID
    (fuel : nat) (f : ptr) (st st' : State) (compiled : Compiled.t) (fv : File.t) :
  Merge_keeps_ID E →
  cache_sep (Some f) st → cache_ids st →
  files st !! f = Some fv → File.Path fv ≠ "" →
  Compile E c fuel f st = Done (Return compiled) st' →
  ∃ id w fv', File_loadID E fv w = Ok id ∧
              files st' !! f = Some fv' ∧ File.ID fv' = id.
Proof.
  intros Hkeep Hsep Hids Hfv Hpath Hrun.
  apply Compile_parts in Hrun
    as (sv & sid & simp & sdep & fv1 & graph & Hver & Hid & Himp & Hfv1 & Hdep & Hval
        & Hwrite & ->).
  simpl in *.
  pose proof (before_imports_sep _ _ _ _ _ _ Hsep Hver Hid) as Hsep1.
  pose proof (compileImports_sep _ _ _ _ _ Hsep1 Himp) as Hsep2.
  apply (wp_done _ _ _ _ _ (compileVersion_frame (Dir (opts c)) st)) in Hver
    as (Fv & _ & Cv).
  rewrite <- Fv in Hfv.
  destruct (ensure_id_parts _ _ _ _ Hfv Hpath Hid) as (id & w & Hload & Fi & Ci).
  assert (Hfid : files sid !! f = Some (File.set_ID id fv)).
  { rewrite Fi. apply list_lookup_insert_eq. by eapply lookup_lt_Some. }
  assert (Hids1 : cache_ids sid).
  { intros k p Hk. rewrite Ci, Cv in Hk.
    destruct (Hids k p Hk) as (v & Hv & Hvid). destruct (Hsep k p Hk) as [_ Hne].
    exists v. split; [|done]. rewrite Fi, list_lookup_insert_ne, Fv; [done|].
    congruence. }
  destruct (compileImports_keeps_ID _ _ _ _ _ Hkeep Hsep1 Hids1 Hfid Himp)
    as (v' & Hv' & Hvid).
  destruct (deps_done_of_run _ _ _ _ _ _ (cache_sep_None _ _ Hsep2) Hdep)
    as (rootkey & Δ & vm & HΔ & Hdi & [_ Hkept] & Hconn).
  apply compileWrite_parts in Hwrite as (Hf & _).
  exists id, w, v'. split; [done|]. split; [|done].
  rewrite Hf, Hkept; [done|]. by eapply lookup_lt_Some.
Qed.

(** ** LoadCompiled *)

(** X18.  [LoadCompiled] always returns and only reads: whatever it
    returns, nothing but the trace has changed, and the calls it made
    are an initial stretch of: read the version file, open the compiled
    Appfile, decode it.  It returns a value only when all three calls
    were made, and the value is the decoder's.  The compiled Appfile is
    opened only when the version file was read and parsed to a version
    that is not newer than [CompileVersion]. *)
Theorem LoadCompiled_only_reads (dir : string) (st : State) :
  let versionPath := filepath_Join dir CompileVersionFilename in
  let compiledPath := filepath_Join dir CompileFilename in
  ∃ r Δ,
    LoadCompiled E dir st = Done r (set_trace (trace st ++ Δ) st) ∧
    Δ `prefix_of` [EvRead versionPath; EvOpen compiledPath; EvDecode compiledPath] ∧
    (∀ x, r = Return x →
       Δ = [EvRead versionPath; EvOpen compiledPath; EvDecode compiledPath] ∧
       json_Decode E compiledPath (world st) = Ok x) ∧
    (EvOpen compiledPath ∈ Δ →
       ∃ s v, oneline_Read E versionPath (world st) = Ok s ∧
              strconv_ParseInt E s 0 0 = Ok v ∧ (v ≤ CompileVersion)%Z).
Proof.
  intros versionPath compiledPath.
  unfold LoadCompiled, mbind, M_bind, emit, ask, mret, M_ret; simpl.
  fold versionPath compiledPath.
  assert (Hone : EvOpen compiledPath ∉ [EvRead versionPath]).
  { by intros [=]%list_elem_of_singleton. }
  assert (Hp1 : [EvRead versionPath] `prefix_of`
                  [EvRead versionPath; EvOpen compiledPath; EvDecode compiledPath]).
  { by eexists [_; _]. }
  destruct (oneline_Read E versionPath (world st)) as [s|e] eqn:Hread.
  2: { exists (ReturnErr (External e)), [EvRead versionPath].
       split; [done|]. split; [done|]. split; [done|]. by intros ?%Hone. }
  destruct (strconv_ParseInt E s 0 0) as [v|e] eqn:Hparse.
  2: { exists (ReturnErr (External e)), [EvRead versionPath].
       split; [done|]. split; [done|]. split; [done|]. by intros ?%Hone. }
  destruct (decide (v > CompileVersion)%Z) as [Hgt|Hle].
  { exists (ReturnErr (Errorf msg_version_too_new)), [EvRead versionPath].
    split; [done|]. split; [done|]. split; [done|]. by intros ?%Hone. }
  simpl.
  assert (Hgate : ∃ s0 v0, Ok s = Ok s0 ∧ strconv_ParseInt E s0 0 0 = Ok v0 ∧
                           (v0 ≤ CompileVersion)%Z).
  { exists s, v. split; [done|]. split; [done|]. lia. }
  destruct (os_Open E compiledPath (world st)) as [e|] eqn:Hopen; simpl.
  { exists (ReturnErr (External e)), [EvRead versionPath; EvOpen compiledPath].
    split; [unfold set_trace; simpl; by rewrite <- !app_assoc|].
    split; [by eexists [_]|]. split; [done|]. done. }
  destruct (json_Decode E compiledPath (world st)) as [d|e] eqn:Hdec.
  - exists (Return d), [EvRead versionPath; EvOpen compiledPath; EvDecode compiledPath].
    split; [unfold set_trace; simpl; by rewrite <- !app_assoc|].
    split; [done|]. split; [|done]. by intros x [= <-].
  - exists (ReturnErr (External e)),
      [EvRead versionPath; EvOpen compiledPath; EvDecode compiledPath].
    split; [unfold set_trace; simpl; by rewrite <- !app_assoc|].
    split; [done|]. split; [done|]. done.
Qed.

(** ** The import cache across a whole compile *)















Lemma compileWrite_frame dir compiled (st : State) :
  wp (compileWrite E dir compiled)
     (λ _ st', files st' = files st ∧ importCache st' = importCache st) st.
Proof.
  unfold compileWrite. apply wp_bind. unfold wp at 1.
  destruct (json_MarshalIndent E compiled (files st) (projects st)) as [data|err];
    [|by wp_prim].
  wp_next. wp_next. intros r w _. destruct r; [by wp_prim|].
  wp_next. wp_prim. by intros.
Qed.



(** ** The callback is told of every fetch *)

Lemma ann_step T0 (s s' : State) Δ' :
  announces c T0 s → trace s' = trace s ++ Δ' → Forall neutral Δ' →
  announces c T0 s'.
Proof.
  intros (Δ & HΔ & Hann) Ht Hn. exists (Δ ++ Δ').
  split; [by rewrite Ht, HΔ, app_assoc|].
  assert (Hz : announced Δ' = [] ∧ fetched Δ' = []).
  { clear Ht. induction Hn as [|e Δ' [Hf Hc] _ [IH1 IH2]]; [done|].
    unfold announced, fetched in *. simpl. by rewrite Hf, Hc. }
  destruct Hz as [Ha Hf]. unfold announced, fetched in *.
  rewrite !omap_app, Ha, Hf, !app_nil_r. done.
Qed.

Lemma ann_start (st : State) : announces c (trace st) st.
Proof. exists []. split; [by rewrite app_nil_r|]. by destruct (Callback (opts c)). Qed.

Lemma wp_announce {B} ev e (k : unit → M B) (Q : B → State → Prop) T0 (st : State) :
  announces c T0 st → fetch_of e = Some ev → call_of e = None →
  (∀ s', announces c T0 s' → wp (k tt) Q s') →
  wp (callback c ev ≫= λ _, emit e ≫= k) Q st.
Proof.
  intros (Δ & HΔ & Hann) Hf Hc Hk. unfold callback, announces in *.
  destruct (Callback (opts c)) as [cb|].
  - apply wp_bind, wp_bind, wp_emit, wp_call. intros [] w _.
    apply wp_bind, wp_emit. apply Hk. exists (Δ ++ [EvCallback ev; e]).
    split; [simpl; by rewrite HΔ, <- !app_assoc|].
    unfold announced, fetched in *. rewrite !omap_app, Hann. simpl.
    by rewrite Hf, Hc.
  - apply wp_bind, wp_ret. apply wp_bind, wp_emit. apply Hk. exists (Δ ++ [e]).
    split; [simpl; by rewrite HΔ, <- !app_assoc|].
    unfold announced in *. rewrite omap_app, Hann. simpl. by rewrite Hc.
Qed.

Lemma ann_start_downloads T0 parent pwd imports : ∀ idx (st : State),
  announces c T0 st →
  wp (start_downloads E parent pwd idx imports) (λ _ st', announces c T0 st') st.
Proof.
  induction imports as [|i rest IH]; intros idx st H; simpl; [by apply wp_ret|].
  destruct (getter_Detect E (Import_.Source i) pwd) as [source|err].
  2: { wp_next. by wp_prim. }
  wp_next. intros cycles g. destruct cycles as [|cycle ?].
  - apply wp_bind. eapply wp_mono; [by apply IH|].
    intros [ok tasks] st' H'. by apply wp_ret.
  - wp_next. by wp_prim.
Qed.

Lemma ann_merge T0 f : ∀ merge (st : State),
  announces c T0 st →
  wp (merge_imports E f merge) (λ _ st', announces c T0 st') st.
Proof.
  induction merge as [|importF rest IH]; intros st H; simpl; [by apply wp_ret|].
  wp_next. intros p _. wp_next. intros v _. wp_next.
  wp_next. intros v1 _. wp_next. intros v2 _. wp_next. intros host _.
  wp_next. intros other _. wp_next.
  assert (H1 : announces c T0 (set_trace (trace st ++ [EvMerge f (File.ID v) other]) st)).
  { apply (ann_step T0 st _ [EvMerge f (File.ID v) other]);
      [done | done | by repeat constructor]. }
  wp_next. intros err merged ps _. destruct err as [err|].
  - wp_next. by wp_prim.
  - by apply IH.
Qed.

Lemma ann_download T0 rec :
  (∀ parent f (s : State),
     announces c T0 s → wp (rec parent f) (λ _ s', announces c T0 s') s) →
  ∀ t result (s : State),
    announces c T0 s →
    wp (downloadSingle E c rec t result) (λ _ s', announces c T0 s') s.
Proof.
  intros Hrec [source idx] result s H. unfold downloadSingle.
  wp_next. destruct (importCache s !! source) as [cached|]; [by wp_prim|].
  apply (wp_announce (CompileEventImport source) (EvImportGet source) _ _ T0);
    [done | done | done |].
  intros s1 H1. wp_next. intros r w1 _. destruct r as [err|].
  { wp_next. by wp_prim. }
  wp_next.
  match goal with |- wp _ _ ?s => destruct (storage_Dir (importStorage c) source (world s))
    as [dir|err] end.
  2: { wp_next. by wp_prim. }
  wp_next.
  assert (H2 : announces c T0
                 (set_trace (trace s1 ++ [EvParseFile (filepath_Join dir "Appfile")]) s1)).
  { apply (ann_step T0 s1 _ [EvParseFile (filepath_Join dir "Appfile")]);
      [done | done | by repeat constructor]. }
  wp_next.
  match goal with |- wp _ _ ?s => destruct (ParseFile E (filepath_Join dir "Appfile") (world s))
    as [parsed|err] end.
  2: { wp_next. by wp_prim. }
  wp_next. intros ps v _. wp_next. intros v1 _.
  apply wp_bind. eapply wp_mono; [apply Hrec; exact H2|].
  intros ok s5 H5. destruct ok; [|by wp_prim].
  wp_next. by wp_prim.
Qed.

Lemma ann_importSingle T0 fuel : ∀ parent f (st : State),
  announces c T0 st →
  wp (importSingle E c fuel parent f) (λ _ st', announces c T0 st') st.
Proof.
  induction fuel as [|n IH]; intros parent f st H; simpl; [done|].
  unfold importSingle_body, start_and_wait.
  apply wp_bind, wp_bind. wp_prim. intros fv _.
  apply wp_bind. eapply wp_mono; [by apply ann_start_downloads|].
  intros [ok tasks] s1 H1.
  apply wp_bind. eapply wp_mono.
  { apply (run_goroutines_inv (announces c T0)); [done | | exact H1].
    by apply ann_download. }
  intros merge s2 H2. wp_prim. destruct ok; [|by wp_prim].
  unfold after_wait. destruct (any_nil merge); [by wp_prim|].
  by apply ann_merge.
Qed.

Lemma ann_compileImports T0 fuel f (st : State) :
  announces c T0 st →
  wp (compileImports E c fuel f) (λ _ st', announces c T0 st') st.
Proof.
  intros H. unfold compileImports.
  wp_next. intros rootv _. case_decide; [by wp_prim|].
  apply wp_bind. unfold init_locals, wp at 1.
  apply wp_bind. eapply wp_mono; [apply ann_importSingle; exact H|].
  intros ok st' H'. exact H'.
Qed.

Lemma ann_load_dependency T0 fuel root key (st : State) :
  announces c T0 st →
  wp (load_dependency E c fuel root key) (λ _ st', announces c T0 st') st.
Proof.
  intros H. unfold load_dependency.
  apply (wp_announce (CompileEventDep key) (EvDepGet key) _ _ T0);
    [done | done | done |].
  intros s1 H1. wp_next. intros r w1 _. destruct r as [err|]; [by wp_prim|].
  wp_next.
  match goal with |- wp _ _ ?s => destruct (storage_Dir (depStorage c) key (world s))
    as [dir|err] end.
  2: by wp_prim.
  apply wp_bind.
  eapply (wp_mono _ (λ _ s2, announces c T0 s2)).
  { unfold parse_if_exists. wp_next.
    match goal with |- wp match ?x with _ => _ end _ _ => destruct x end.
    2, 3: by wp_prim.
    wp_next.
    assert (H2 : announces c T0
                   (set_trace (trace s1 ++ [EvParseFile (filepath_Join dir "Appfile")])
                      (set_world w1 s1))).
    { apply (ann_step T0 s1 _ [EvParseFile (filepath_Join dir "Appfile")]);
        [done | done | by repeat constructor]. }
    wp_next.
    match goal with |- wp match ?x with _ => _ end _ _ => destruct x as [parsed|err] end.
    2: by wp_prim.
    wp_next. intros ps v _.
    apply wp_bind. eapply wp_mono; [apply ann_compileImports; exact H2|].
    intros r' s3 H3. destruct r'; by wp_prim. }
  intros rf s2 H2. destruct rf as [f|err]; [|by wp_prim].
  apply wp_bind.
  eapply (wp_mono _ (λ _ s3, announces c T0 s3)).
  { unfold run_loader. destruct (Loader (opts c)) as [loader|]; [|by wp_prim].
    wp_next.
    assert (H3 : announces c T0 (set_trace (trace s2 ++ [EvLoader dir]) s2)).
    { apply (ann_step T0 s2 _ [EvLoader dir]); [done | done | by repeat constructor]. }
    apply wp_bind.
    assert (Harg : ∀ (Q : option FileData → State → Prop) st,
              (∀ a, Q a st) →
              wp (match f with
                  | Some p => d ← read_data p; mret (Some d)
                  | None => mret None
                  end) Q st).
    { intros Q st0 HQ. destruct f; [|by wp_prim].
      apply wp_bind, wp_read_data. intros d. by wp_prim. }
    apply Harg. intros arg.
    wp_next. intros r' w _. destruct r' as [[d|]|err].
    2, 3: by wp_prim.
    apply wp_bind, wp_alloc_data. intros ps v _. by wp_prim. }
  intros rf s3 H3. destruct rf as [f'|err]; [|by wp_prim].
  wp_next. intros p ->. wp_next. intros fv _. wp_next. intros fv' _.
  wp_next.
  match goal with |- wp _ _ ?s => destruct (File_hasID E fv' (world s))
    as [hasID|err] end.
  2: by wp_prim.
  wp_next.
  assert (H4 : announces c T0 (set_trace (trace s3 ++ [EvDepHasID key hasID]) s3)).
  { apply (ann_step T0 s3 _ [EvDepHasID key hasID]);
      [done | done | by repeat constructor]. }
  destruct hasID; simpl negb; cbv iota; [|by wp_prim].
  apply wp_bind.
  eapply (wp_mono _ (λ _ s5, announces c T0 s5)).
  { unfold propagate_root.
    wp_next. intros rootv _. wp_next. intros fv0 _. wp_next. intros rootv2 _.
    destruct (File.Project rootv2) as [rp|]; [|by wp_prim].
    wp_next. intros fv1 _. apply wp_bind.
    eapply (wp_mono _ (λ _ s', announces c T0 s')).
    { destruct (File.Project fv1); [by wp_prim|].
      wp_next. wp_next. intros fv'' _. by wp_prim. }
    intros q s' H'. wp_next. intros rpv _. wp_prim. by intros x _. }
  intros [] s5 H5. wp_next. intros fv5 _. by wp_prim.
Qed.

Lemma ann_each_dependency T0 fuel root current : ∀ deps s (st : State),
  announces c T0 st →
  wp (each_dependency E c fuel root current deps s) (λ _ st', announces c T0 st') st.
Proof.
  induction deps as [|dep rest IH]; intros s st H; simpl; [by wp_prim|].
  wp_next. intros cur _.
  destruct (getter_Detect E (Dependency.Source dep) (filepath_Dir E (File.Path cur)))
    as [key|err]; [|by wp_prim].
  destruct (vertexMap s !! key) as [vertex|]; [wp_next; by apply IH|].
  apply wp_bind. apply wp_bind. eapply wp_mono; [by apply ann_load_dependency|].
  intros v st1 H1. destruct v as [vertex|err]; [|by wp_prim; wp_prim].
  wp_prim. by apply IH.
Qed.

Lemma ann_work_loop T0 fuel root : ∀ n s (st : State),
  announces c T0 st →
  wp (work_loop E c fuel n root s) (λ _ st', announces c T0 st') st.
Proof.
  induction n as [|n IH]; intros s st H; simpl.
  { destruct (last (queue s)); [done | by wp_prim]. }
  destruct (last (queue s)) as [current|]; [|by wp_prim].
  wp_next. intros cur _.
  apply wp_bind. eapply wp_mono; [by apply ann_each_dependency|].
  intros [err s1] st1 H1. destruct err as [err|]; [by wp_prim | by apply IH].
Qed.

Lemma ann_resolve_and_validate T0 fuel f (st : State) :
  announces c T0 st →
  wp (resolve_and_validate E c fuel f) (λ _ st', announces c T0 st') st.
Proof.
  intros H. unfold resolve_and_validate.
  apply wp_bind. eapply wp_mono; [apply compileVersion_spec|].
  intros err s1 (w & Δv & -> & HΔv).
  assert (H1 : announces c T0 (set_world w (set_trace (trace st ++ Δv) st))).
  { apply (ann_step T0 st _ Δv); [done | done |].
    destruct HΔv as [-> | ->]; by repeat constructor. }
  destruct err as [err|]; [by wp_prim|].
  apply wp_bind. eapply wp_mono; [apply ensure_id_spec|].
  intros err s2 ((Δid & T2 & Hid) & _).
  assert (H2 : announces c T0 s2).
  { apply (ann_step T0 _ _ Δid H1); [done|].
    eapply Forall_impl; [exact Hid|]. intros e He. by destruct e. }
  destruct err as [err|]; [by wp_prim|].
  unfold MinCompile. apply wp_bind. apply wp_bind.
  eapply wp_mono; [by apply ann_compileImports|].
  intros r s3 H3. destruct r as [err|]; [wp_prim; by wp_prim|].
  wp_next. intros fv _. wp_prim.
  apply wp_bind, wp_read_data. intros d. simpl.
  destruct (File_Validate E d); [by wp_prim|].
  apply wp_bind.
  eapply (wp_mono _ (λ _ s4, announces c T0 s4)).
  { unfold compileDependencies. wp_next. intros rootv _.
    destruct (getter_Detect E "." (filepath_Dir E (File.Path rootv))) as [key|err];
      [by apply ann_work_loop | by wp_prim]. }
  intros [err graph] s4 H4. destruct err as [err|]; [by wp_prim|].
  apply wp_bind. unfold Validate. apply validate_files_spec.
  intros r. destruct r; by wp_prim.
Qed.

(** X20.  However [Compile] ends, a configured callback has been told
    of every fetch made, of imports and of dependencies alike, once for
    each fetch (the fetches made are, counted with their number, among
    the events told); and without a callback nothing is told.  When
    [Compile] returns a compiled Appfile, the callback was told of
    nothing else: the events told are, up to order, the fetches made. *)
Theorem Compile_announces_every_fetch
    (fuel : nat) (f : ptr) (st st' : State) (r : goresult Compiled.t) :
  Compile E c fuel f st = Done r st' →
  ∃ Δ, trace st' = trace st ++ Δ ∧
       match Callback (opts c) with
       | Some _ =>
           fetched Δ ⊆+ announced Δ ∧
           (∀ compiled, r = Return compiled → announced Δ ≡ₚ fetched Δ)
       | None => announced Δ = []
       end.
Proof.
  intros Hrun.
  cut (announces c (trace st) st').
  { intros (Δ & HΔ & Hann). exists Δ. split; [done|].
    destruct (Callback (opts c)); [|done]. rewrite Hann. split; [done|]. done. }
  unfold Compile in Hrun.
  apply bind_done in Hrun as (rv & s1 & Hres & Hrun).
  apply (wp_done _ _ _ _ _ (ann_resolve_and_validate (trace st) fuel f st
                              (ann_start st))) in Hres.
  destruct rv as [compiled|e]; [|by injection Hrun as _ <-].
  apply bind_done in Hrun as (werr & s2 & Hwrite & Hrun).
  apply (wp_done _ _ _ _ _ (compileWrite_spec (Dir (opts c)) compiled s1))
    in Hwrite as (Δw & HΔw & Hall).
  assert (H2 : announces c (trace st) s2).
  { apply (ann_step _ s1 _ Δw); [done | done |].
    eapply Forall_impl; [exact Hall|]. by intros e [-> | [data ->]]. }
  by destruct werr; injection Hrun as _ <-.
Qed.

(** ** An Appfile without imports and dependencies *)

Lemma ensure_id_fields f (st : State) fv :
  files st !! f = Some fv →
  wp (ensure_id E f)
     (λ _ s', (∃ Δ, trace s' = trace st ++ Δ ∧
                    Forall (id_file_call (File.Path fv)) Δ ∧
                    (File.Path fv = "" → Δ = [])) ∧
              importCache s' = importCache st ∧
              ∃ fv', files s' !! f = Some fv' ∧
                     File.Imports fv' = File.Imports fv ∧
                     File.Application fv' = File.Application fv) st.
Proof.
  intros Hfv. unfold ensure_id. wp_next. intros fv0 Hfv0.
  pose proof (eq_trans (eq_sym Hfv) Hfv0) as [= <-].
  assert (Hsame : ∀ s' : State, files s' = files st →
            ∃ fv', files s' !! f = Some fv' ∧
                   File.Imports fv' = File.Imports fv ∧
                   File.Application fv' = File.Application fv).
  { intros s' ->. by exists fv. }
  case_decide as Hpath.
  { wp_prim. split; [|auto]. exists []. by rewrite app_nil_r. }
  set (ok := λ s' : State,
         ∃ Δ, trace s' = trace st ++ Δ ∧
              Forall (id_file_call (File.Path fv)) Δ ∧
              (File.Path fv = "" → Δ = [])).
  assert (Hstep : ∀ (s : State) e, ok s → id_file_call (File.Path fv) e →
            ok (set_trace (trace s ++ [e]) s)).
  { intros s e (Δ & T & Hall & _) He. exists (Δ ++ [e]).
    split; [simpl; by rewrite T, app_assoc|].
    split; [|done]. apply Forall_app. split; [done | by constructor]. }
  assert (H0 : ok st).
  { exists []. by rewrite app_nil_r. }
  wp_next.
  pose proof (Hstep st _ H0 (or_introl eq_refl)) as H1.
  wp_next.
  match goal with |- wp match ?x with _ => _ end _ _ =>
    destruct x as [hasID|err] end; [|wp_prim; split; [exact H1 | auto]].
  apply wp_bind.
  eapply (wp_mono _ (λ _ s', ok s' ∧ importCache s' = importCache st ∧
                             files s' = files st)).
  { destruct hasID; [by wp_prim|]. wp_next. wp_prim. intros r w _.
    split; [|done]. apply (Hstep _ _ H1). right. by left. }
  intros r s1 (T1 & C1 & F1). destruct r; [wp_prim; split; [done | auto]|].
  wp_next.
  assert (H2 := Hstep s1 (EvLoadID (File.Path fv)) T1 (or_intror (or_intror eq_refl))).
  wp_next.
  match goal with |- wp match ?x with _ => _ end _ _ => destruct x end.
  2: { wp_prim. split; [exact H2 | auto]. }
  wp_next. intros v Hv. simpl in Hv. rewrite F1, Hfv in Hv. injection Hv as <-. wp_prim.
  split; [exact H2|]. split; [done|]. eexists. split.
  - simpl. rewrite F1. apply list_lookup_insert_eq. by eapply lookup_lt_Some.
  - done.
Qed.

Lemma leaf_dependencies fuel root graph (st : State) fv :
  files st !! CompiledGraphVertex.File root = Some fv →
  Application.Dependencies (File.Application fv) = [] →
  wp (compileDependencies E c fuel root graph) (λ _ st', st' = st) st.
Proof.
  intros Hfv Hdeps. unfold compileDependencies.
  wp_next. intros rootv _.
  destruct (getter_Detect E "." (filepath_Dir E (File.Path rootv))) as [key|err];
    [|by wp_prim].
  destruct fuel as [|n]; [done|].
  unfold work_loop; fold (@work_loop World Decoded E c). simpl queue.
  change (last [root]) with (Some root). cbv iota.
  wp_next. intros cur Hcur. pose proof (eq_trans (eq_sym Hfv) Hcur) as [= <-].
  rewrite Hdeps. simpl. apply wp_bind, wp_ret. simpl.
  destruct n; simpl; by wp_prim.
Qed.

(** X21.  An Appfile without imports and without dependencies compiles
    offline: whatever [Compile] returns for it, the calls on record are
    the creation and the writes of the version file and of the compiled
    Appfile in the output directory and, for an Appfile with a path, the
    calls on its ID file; there is no fetch, parse, loader call, merge
    or callback among them, and the import cache is as it was. *)
Theorem Compile_leaf_offline
    (fuel : nat) (f : ptr) (st st' : State) (r : goresult Compiled.t) (fv : File.t) :
  files st !! f = Some fv →
  File.Imports fv = [] →
  Application.Dependencies (File.Application fv) = [] →
  Compile E c fuel f st = Done r st' →
  importCache st' = importCache st ∧
  ∃ Δ, trace st' = trace st ++ Δ ∧
       Forall (leaf_call (Dir (opts c)) (File.Path fv)) Δ ∧
       (File.Path fv = "" → Forall (output_write (Dir (opts c))) Δ).
Proof.
  intros Hfv Himp Hdeps Hrun.
  set (ok := λ Δ : list Event,
         Forall (leaf_call (Dir (opts c)) (File.Path fv)) Δ ∧
         (File.Path fv = "" → Forall (output_write (Dir (opts c))) Δ)).
  assert (Hok_app : ∀ Δ1 Δ2, ok Δ1 → ok Δ2 → ok (Δ1 ++ Δ2)).
  { intros Δ1 Δ2 [A1 B1] [A2 B2]. split; [by apply Forall_app|].
    intros Hp. apply Forall_app. auto. }
  assert (Hok_out : ∀ Δ, Forall (output_write (Dir (opts c))) Δ → ok Δ).
  { intros Δ HΔ. split; [|done]. eapply Forall_impl; [exact HΔ|]. by left. }
  assert (Hres : wp (resolve_and_validate E c fuel f)
                   (λ _ s', importCache s' = importCache st ∧
                            ∃ Δ, trace s' = trace st ++ Δ ∧ ok Δ) st).
  { unfold resolve_and_validate.
    apply wp_bind. eapply wp_mono.
    { apply wp_conj; [apply compileVersion_spec | apply compileVersion_frame]. }
    intros err s1 [(w & Δv & -> & HΔv) (F1 & _ & C1)].
    assert (Hv : ok Δv).
    { apply Hok_out. destruct HΔv as [-> | ->].
      - constructor; [by left | constructor].
      - constructor; [by left|]. constructor; [right; by left | constructor]. }
    destruct err as [err|]; [wp_prim; split; [done | by exists Δv]|].
    apply wp_bind. eapply wp_mono; [by apply (ensure_id_fields f _ fv)|].
    intros err s2 ((Δid & T2 & Hid & Hnone) & C2 & fv2 & Hfv2 & Himp2 & Happ2).
    assert (Hpost : importCache s2 = importCache st ∧
                    ∃ Δ, trace s2 = trace st ++ Δ ∧ ok Δ).
    { split; [by rewrite C2|]. exists (Δv ++ Δid).
      split; [rewrite T2; simpl; by rewrite <- app_assoc|]. apply Hok_app; [done|].
      split; [eapply Forall_impl; [exact Hid|]; by right|].
      intros Hp. by rewrite (Hnone Hp). }
    destruct err as [err|]; [by wp_prim|].
    unfold MinCompile, compileImports. apply wp_bind, wp_bind.
    wp_next. intros v2 Hv2. pose proof (eq_trans (eq_sym Hfv2) Hv2) as [= <-].
    rewrite decide_True by (by rewrite Himp2, Himp). wp_prim.
    wp_next. intros v2 Hv2'. pose proof (eq_trans (eq_sym Hfv2) Hv2') as [= <-].
    wp_prim. apply wp_bind, wp_read_data. intros d. simpl.
    destruct (File_Validate E d); [by wp_prim|].
    apply wp_bind. eapply wp_mono.
    { apply (leaf_dependencies fuel _ _ s2 fv2); [exact Hfv2 | by rewrite Happ2]. }
    intros [err graph] s4 ->. destruct err as [err|]; [by wp_prim|].
    apply wp_bind. unfold Validate. apply validate_files_spec.
    intros r'. destruct r'; by wp_prim. }
  unfold Compile in Hrun.
  apply bind_done in Hrun as (rv & s1 & Hrv & Hrun).
  apply (wp_done _ _ _ _ _ Hres) in Hrv as (C1 & Δ & HΔ & Hall).
  destruct rv as [compiled|e]; [|injection Hrun as _ <-; split; [done | by exists Δ]].
  apply bind_done in Hrun as (werr & s2 & Hwrite & Hrun).
  pose proof (wp_done _ _ _ _ _ (compileWrite_spec (Dir (opts c)) compiled s1) Hwrite)
    as (Δw & HΔw & Hallw).
  pose proof (wp_done _ _ _ _ _ (compileWrite_frame (Dir (opts c)) compiled s1) Hwrite)
    as (_ & C2).
  assert (s2 = st') as <- by (by destruct werr; injection Hrun as _ <-).
  split; [by rewrite C2|]. exists (Δ ++ Δw).
  split; [by rewrite HΔw, HΔ, app_assoc|]. apply Hok_app; [done|].
  apply Hok_out. eapply Forall_impl; [exact Hallw|]. intros e He. right. by right.
Qed.
End Proofs.

(** * A new compiler *)

Section NewCompilerProofs.
Context {World : Type}.
Context (os_MkdirAll : string → World → option string * World).
Context (FolderStorage : string → @Storage World).

(** X15.  A compiler made by [NewCompiler] keeps imports and
    dependencies in one and the same storage, the folder "deps" under
    the output directory, and starts with an empty import cache, for
    which the bookkeeping of the cache holds; when the output directory
    cannot be made, the error of [os.MkdirAll] is returned and no
    compiler. *)
Theorem NewCompiler_fresh
    (o : @CompileOpts World) (st st' : @State World)
    (r : goresult (@Compiler World)) :
  NewCompiler os_MkdirAll FolderStorage o st = Done r st' →
  match r with
  | Return c =>
      os_MkdirAll (Dir o) (world st) = (None, world st') ∧
      opts c = o ∧
      depStorage c = FolderStorage (filepath_Join (Dir o) "deps") ∧
      importStorage c = depStorage c ∧
      importCache st' = ∅ ∧ (∀ h, cache_sep h st') ∧ cache_ids st'
  | ReturnErr e =>
      ∃ msg, e = External msg ∧
             os_MkdirAll (Dir o) (world st) = (Some msg, world st') ∧
             importCache st' = importCache st
  end.
Proof.
  unfold NewCompiler, mbind, M_bind, call. intros Hrun.
  destruct (os_MkdirAll (Dir o) (world st)) as [[msg|] w].
  - injection Hrun as <- <-. by exists msg.
  - injection Hrun as <- <-. simpl. repeat split; try done.
Qed.
End NewCompilerProofs.

(** * The customizations of the Go application type *)

Section Customizations.
Import goapp.
Context {Ui : Type}.
Context (RenderString : gmap string value → string → result string).
Context (Ui_Header : string → Ui → Ui).
Context (DetectImportPath : Ui → result string * Ui).

(** X16.  When [process] returns without error, the context holds the
    import path and the shared folder path that goes with it: "/vagrant"
    when the import path is empty, the import path under
    "/opt/gopath/src/" otherwise.  The import path is the one of the
    configuration when that is not empty, and nothing is written to the
    terminal then; otherwise it is what [DetectImportPath] returned,
    called on the terminal after the header.  The context also holds the
    run command as [RenderString] rendered it against the context
    [process] was called with and the Go version of the configuration,
    and no key but these four has changed. *)
Theorem process_sets_shared_folder
    (d : string → value) (o o' : @Opts Ui) :
  process RenderString Ui_Header DetectImportPath d o = Returns None o' →
  ∃ tpl cmd q p,
    d "run_command" = VString tpl ∧ RenderString (Context_ o) tpl = Ok cmd ∧
    d "go_import_path" = VString q ∧
    (q ≠ "" → p = q ∧ ui o' = ui o) ∧
    (q = "" →
     DetectImportPath
       (Ui_Header "Detecting application import path for GOPATH..." (ui o))
     = (Ok p, ui o')) ∧
    Context_ o' !! "import_path" = Some (VString p) ∧
    Context_ o' !! "shared_folder_path"
      = Some (VString (if decide (p = "") then "/vagrant"
                       else "/opt/gopath/src/" +:+ p)) ∧
    Context_ o' !! "dep_run_command" = Some (VString cmd) ∧
    Context_ o' !! "dev_go_version" = Some (d "go_version") ∧
    (∀ k, k ∉ ["dep_run_command"; "dev_go_version"; "import_path";
               "shared_folder_path"] →
          Context_ o' !! k = Context_ o !! k).
Proof.
  unfold process. intros Hrun.
  destruct (d "run_command") as [|tpl| |] eqn:Htpl; try done. simpl in Hrun.
  destruct (RenderString (Context_ o) tpl) as [cmd|] eqn:Hcmd; [|done].
  destruct (d "go_import_path") as [|q| |] eqn:Hq; try done. simpl in Hrun.
  assert (Hfolder : ∀ p : string,
            (if decide (p ≠ "") then "/opt/gopath/src/" +:+ p else "/vagrant")
            = (if decide (p = "") then "/vagrant" else "/opt/gopath/src/" +:+ p)).
  { intros p. destruct (decide (p = "")) as [-> | Hp].
    - by rewrite decide_False by (by intros []).
    - by rewrite decide_True. }
  assert (Hframe : ∀ (k : string) (m : gmap string value) a b c' e,
            k ∉ ["dep_run_command"; "dev_go_version"; "import_path";
                 "shared_folder_path"] →
            <["shared_folder_path" := a]>
              (<["import_path" := b]>
                 (<["dev_go_version" := c']> (<["dep_run_command" := e]> m))) !! k
            = m !! k).
  { intros k m a b c' e Hk. rewrite !not_elem_of_cons in Hk.
    destruct Hk as (? & ? & ? & ? & _). by rewrite !lookup_insert_ne. }
  destruct (decide (q = "")) as [-> | Hne].
  - simpl in Hrun.
    destruct (DetectImportPath _) as [[p|err] u] eqn:Hdet; [|done].
    injection Hrun as <-. exists tpl, cmd, "", p. simpl.
    split; [done|]. split; [done|]. split; [done|]. split; [done|].
    split; [done|].
    split; [by rewrite lookup_insert_ne, lookup_insert_eq|].
    split; [by rewrite lookup_insert_eq, Hfolder|].
    split; [do 3 (rewrite lookup_insert_ne by done); by rewrite lookup_insert_eq|].
    split; [do 2 (rewrite lookup_insert_ne by done); by rewrite lookup_insert_eq|].
    intros k Hk. by apply Hframe.
  - injection Hrun as <-. exists tpl, cmd, q, q. simpl.
    split; [done|]. split; [done|]. split; [done|]. split; [done|].
    split; [done|].
    split; [by rewrite lookup_insert_ne, lookup_insert_eq|].
    split; [by rewrite lookup_insert_eq, Hfolder|].
    split; [do 3 (rewrite lookup_insert_ne by done); by rewrite lookup_insert_eq|].
    split; [do 2 (rewrite lookup_insert_ne by done); by rewrite lookup_insert_eq|].
    intros k Hk. by apply Hframe.
Qed.

(** X17.  When [process] returns an error, the import path and the
    shared folder path of the context are as they were.  The error is
    either the failure of [RenderString] on the run command, under the
    heading "Error processing 'run_command'", and then nothing at all
    has changed; or it is the error of [DetectImportPath] as it came:
    the configuration gave no import path, the header was written to
    the terminal before the detection, and the context holds the run
    command as it was rendered and the Go version of the configuration,
    with every other key as it was. *)
Theorem process_error_leaves_paths
    (d : string → value) (o o' : @Opts Ui) (e : error) :
  process RenderString Ui_Header DetectImportPath d o = Returns (Some e) o' →
  Context_ o' !! "import_path" = Context_ o !! "import_path" ∧
  Context_ o' !! "shared_folder_path" = Context_ o !! "shared_folder_path" ∧
  ∃ tpl, d "run_command" = VString tpl ∧
    ((∃ msg, RenderString (Context_ o) tpl = Fail msg ∧
             e = Errorf ("Error processing 'run_command': " +:+ msg) ∧ o' = o) ∨
     (∃ msg cmd,
        RenderString (Context_ o) tpl = Ok cmd ∧
        d "go_import_path" = VString "" ∧
        DetectImportPath
          (Ui_Header "Detecting application import path for GOPATH..." (ui o))
        = (Fail msg, ui o') ∧
        e = External msg ∧
        Context_ o' !! "dep_run_command" = Some (VString cmd) ∧
        Context_ o' !! "dev_go_version" = Some (d "go_version") ∧
        (∀ k, k ∉ ["dep_run_command"; "dev_go_version"] →
              Context_ o' !! k = Context_ o !! k))).
Proof.
  unfold process. intros Hrun.
  destruct (d "run_command") as [|tpl| |] eqn:Htpl; try done. simpl in Hrun.
  destruct (RenderString (Context_ o) tpl) as [cmd|msg] eqn:Hcmd.
  2: { injection Hrun as <- <-. split; [done|]. split; [done|].
       exists tpl. split; [done|]. left. by exists msg. }
  destruct (d "go_import_path") as [|q| |] eqn:Hq; try done. simpl in Hrun.
  destruct (decide (q = "")) as [-> | Hne]; [|done].
  simpl in Hrun.
  destruct (DetectImportPath _) as [[p|msg] u] eqn:Hdet; [done|].
  injection Hrun as <- <-. simpl.
  split; [by rewrite !lookup_insert_ne|]. split; [by rewrite !lookup_insert_ne|].
  exists tpl. split; [done|].
  right. exists msg, cmd. split; [done|]. split; [done|]. split; [done|].
  split; [done|].
  split; [by rewrite lookup_insert_ne, lookup_insert_eq|].
  split; [by rewrite lookup_insert_eq|].
  intros k Hk. rewrite !not_elem_of_cons in Hk. destruct Hk as (? & ? & _).
  by rewrite !lookup_insert_ne.
Qed.
End Customizations.

(** * The statements at concrete inputs *)

Section Closed.
Import TestWorld Scenario MoreScenario.

Lemma empty_cache_sep h fs ps order : cache_sep h (init fs ps order).
Proof.
  intros k p Hk.
  change (importCache (init fs ps order)) with (∅ : gmap string nat) in Hk.
  by rewrite lookup_empty in Hk.
Qed.

Lemma test_Merge_keeps_ID repo ids : Merge_keeps_ID (externals repo ids).
Proof.
  intros f other ps merged ps' [= <- _] Hid. simpl. by rewrite Hid.
Qed.

Lemma test_Merge_keeps_projects repo ids : Merge_keeps_projects (externals repo ids).
Proof. by intros f other ps. Qed.

Lemma shared_cache : importCache shared_st1 = {[ "X" := 2 ]}.
Proof. by vm_compute. Qed.

Lemma shared_cache_sep : cache_sep (Some 0) shared_st1.
Proof.
  intros k p Hk. rewrite shared_cache in Hk.
  apply lookup_singleton_Some in Hk as [_ <-]. split; [by vm_compute; lia | done].
Qed.

Lemma compileDependencies_propagates_root_witness :
  let st' := final rootcfg_run no_state in
  ∃ rootv fv,
    files st' !! 0 = Some rootv ∧ files st' !! 1 = Some fv ∧
    File.Infrastructure fv = File.Infrastructure rootv ∧
    (∀ rp, File.Project rootv = Some rp →
       ∃ p x rx, File.Project fv = Some p ∧
                 projects st' !! p = Some x ∧ projects st' !! rp = Some rx ∧
                 Project.Infrastructure x = Project.Infrastructure rx).
Proof.
  intros st'.
  apply (compileDependencies_propagates_root rootcfg_E (compiler "/out") 10
           rootcfg_vertex rootcfg_graph
           (match returned rootcfg_run with Some (_, g) => g | None => dag.empty end)
           rootcfg_init st'
           (test_Merge_keeps_projects _ _)
           (empty_cache_sep _ _ _ _)) with (v := CompiledGraphVertex.mk 1 "/deps/D" "D").
  - intros rootv rp [= <-] [= <-]. by eexists.
  - by vm_compute.
  - apply list_elem_of_lookup. by exists 1.
  - intros Hin. apply list_elem_of_singleton in Hin. discriminate Hin.
Defined.

Lemma C2_merge_order_witness :
  let E := externals diamond_ok_repo [] in
  let st' := final (diamond_ok_run [1]) no_state in
  ∃ Δfetch Δmerge,
    trace st' = [] ++ Δfetch ++ Δmerge ∧
    merged_into 0 Δfetch = [] ∧
    (∀ e, e ∈ Δmerge → ∃ k o, e = EvMerge 0 k o) ∧
    import_keys E (filepath_Dir E "/app/Appfile") [Import_.mk "X"; Import_.mk "Y"]
      (merged_into 0 Δmerge).
Proof.
  intros E st'.
  apply (C2_merge_order E (compiler "/out") 10 "root" 0 [1]
           (init [diamond_root] [] []) st' diamond_root
           (test_Merge_keeps_ID _ _) (empty_cache_sep _ _ _ _)).
  - intros k p Hk.
    change (importCache _) with (∅ : gmap string nat) in Hk.
    by rewrite lookup_empty in Hk.
  - reflexivity.
  - by vm_compute.
Defined.

Lemma C4_no_partial_merge_witness :
  let E := externals diamond_repo [] in
  let c := compiler "/out" in
  let st0 := init [diamond_root] [] [] in
  let st := set_resultErr None (set_graph (dag.Add "root" dag.empty) st0) in
  let s2 := final diamond_wait no_state in
  importSingle E c 10 "root" 0 st = Done false s2 ∧
  is_Some (resultErr s2) ∧
  files s2 !! 0 = files st !! 0 ∧
  (∃ Δ, trace s2 = trace st ++ Δ ∧ merged_into 0 Δ = []) ∧
  (∀ st1, st = set_resultErr None (set_graph (dag.Add "root" dag.empty) st1) →
          "root" = "root" →
          compileImports E c 10 0 st1 = Done (resultErr s2) s2).
Proof.
  intros E c st0 st s2.
  apply (C4_no_partial_merge E c 9 "root" 0 st s2 true [None; None]
           (empty_cache_sep _ _ _ _)).
  - by vm_compute.
  - by left.
Defined.

Lemma compileImports_keeps_cached_structs_witness :
  let st' := final shared_again no_state in
  importCache st' !! "X" = Some 2 ∧ files st' !! 2 = files shared_st1 !! 2.
Proof.
  intros st'.
  apply (compileImports_keeps_cached_structs shared_E (compiler "/out") 10 0 shared_st1 st'
           None shared_cache_sep).
  - by vm_compute.
  - by vm_compute.
Defined.



Lemma C9_cache_hit_no_fetch_witness :
  let st := set_importCache {[ "Z" := 0 ]}
              (init [file "" "z" [] [] None] [] []) in
  downloadSingle (externals [] []) (compiler "/out")
    (λ _ _, timeout) ("Z", 1) [None; None] st
  = Done [None; Some 0] st.
Proof.
  intros st.
  apply (C9_cache_hit_no_fetch (externals [] []) (compiler "/out")
           (λ _ _, timeout) "Z" 1 [None; None] st 0).
  reflexivity.
Defined.

Lemma C10_nil_file_panics_witness :
  let root := CompiledGraphVertex.mk 0 "" "root" in
  let st := noid_init in
  each_dependency (externals [] []) (compiler "/out") 5 root root
    [Dependency.mk "D"] (mkDepState {[ "." := root ]} [] (dag.Add root dag.empty)) st
  = Panic (set_world [("/deps/D", "")] (set_trace [EvDepGet "D"] st)).
Proof.
  intros root st.
  apply (C10_nil_file_panics (externals [] []) (compiler "/out")
           5 root root (Dependency.mk "D") [] _ st st noid_root "D" "/deps/D"
           [("/deps/D", "")]); reflexivity.
Defined.

(** C5, at the import cycles A-B and C-D under a root that imports A, C
    and D.  The last query for cycles of this run returns both cycles;
    the error returned names the first of them three times, once per
    query that found a cycle, and the cycle of C and D not at all. *)
Theorem C5_only_first_cycle_reported :
  ∃ st',
    cycles_run = Done (Some (MultiError [Errorf "Cycle found: A, B";
                                         Errorf "Cycle found: A, B";
                                         Errorf "Cycle found: A, B"])) st' ∧
    dag.Cycles (graph st') = [["A"; "B"]; ["C"; "D"]].
Proof.
  exists (final cycles_run no_state). split; vm_compute; reflexivity.
Qed.

(** C6, at the shared-project scenario.  X, with a project on "aws",
    is in the cache when the root, whose project is on "gcp", is
    compiled with its dependency D, which imports X and has no project
    of its own.  What [Merge] is handed for D is the cached struct of X
    with [ID] and [Path] cleared; it points to the same [Project] as the
    cached file, so it is no deep copy.  The struct of the cached file
    is the same when the compile is over, and yet the cached entry does
    not read as before: its project is on "gcp" now, written by line 490
    through the pointer that D took over. *)
Theorem C6_cache_entry_poisoned :
  ∃ cached cached',
    importCache shared_st1 !! "X" = Some 2 ∧
    is_Some (returned shared_run2) ∧
    importCache shared_st2 !! "X" = Some 2 ∧
    files shared_st1 !! 2 = Some cached ∧ files shared_st2 !! 2 = Some cached ∧
    EvMerge 4 "X" (File.set_Path "" (File.set_ID "" cached)) ∈ trace shared_st2 ∧
    ¬ deep_copy_of cached (File.set_Path "" (File.set_ID "" cached)) ∧
    deep_view shared_st1 2
      = Some (mkFileData cached (Some (Project.mk "px" "aws"))) ∧
    deep_view shared_st2 2 = Some cached' ∧
    cached' = mkFileData cached (Some (Project.mk "px" "gcp")).
Proof.
  exists (File.mk "/deps/X/Appfile" "X" "" (Application.mk "X" []) [] [] (Some 1)).
  eexists. split; [by vm_compute|].
  split; [vm_compute; by eexists|].
  split; [by vm_compute|]. split; [by vm_compute|]. split; [by vm_compute|].
  split. { apply list_elem_of_lookup. exists 10. by vm_compute. }
  split. { intros Hdeep. by apply (Hdeep 1). }
  split; [by vm_compute|]. split; [by vm_compute|]. done.
Qed.

(** C1, at the drifting project.  The root has the infrastructure
    "cloud" and a project on "gcp", and depends on D1 and D2; the merge
    works in place.  Dependency compilation returns without error and D1
    is among the vertices it added.  The file of D1 has the
    infrastructure of the root file, and a project, but that project is
    on "azure" in the end, not on "gcp" as the project of the root is.
    Line 490 had set it to "gcp"; D1 shares the [Project] struct with the
    cached import X, and so does W, into which the import Z was merged
    afterwards. *)
Theorem C1_dependency_project_drifts :
  ∃ g st' rootv fv rx x,
    drift_run = Done (None, g) st' ∧
    (CompiledGraphVertex.mk 1 "/deps/D1" "D1" ∈ dag.vertices g) ∧
    (CompiledGraphVertex.mk 1 "/deps/D1" "D1" ∉ dag.vertices drift_graph) ∧
    files st' !! 0 = Some rootv ∧ files st' !! 1 = Some fv ∧
    File.Infrastructure rootv = ["cloud"] ∧ File.Infrastructure fv = ["cloud"] ∧
    File.Project rootv = Some 0 ∧ projects st' !! 0 = Some rx ∧
    File.Project fv = Some 1 ∧ projects st' !! 1 = Some x ∧
    Project.Infrastructure rx = "gcp" ∧ Project.Infrastructure x = "azure".
Proof.
  exists (match returned drift_run with Some (_, g) => g | None => dag.empty end),
    (final drift_run no_state),
    drift_root,
    (File.mk "/deps/D1/Appfile" "" "D1" (Application.mk "D1" []) [Import_.mk "X"]
       ["cloud"] (Some 1)),
    (Project.mk "proot" "gcp"), (Project.mk "pz" "azure").
  split; [by vm_compute|].
  split. { apply list_elem_of_lookup. exists 1. by vm_compute. }
  split. { intros Hin. apply list_elem_of_singleton in Hin. discriminate Hin. }
  repeat (split; [by vm_compute|]). by vm_compute.
Qed.


(** C9 as stated fails.  Starting from the empty cache, the import
    storage is asked for Z twice in one run: the first resolution of Z
    failed, so nothing was cached for it. *)
Lemma C9_counterexample :
  ∃ r st',
    diamond_run = Done r st' ∧
    importCache (init [diamond_root] [] []) = ∅ ∧
    ¬ fetches "Z" (trace st') ≤ 1.
Proof.
  eexists _, _. split; [by vm_compute|]. split; [done|].
  vm_compute. lia.
Qed.

End Closed.

(** * The further statements at concrete inputs *)

Section ClosedMore.
Import TestWorld Scenario MoreScenario.

Lemma shared_cache_sep_root : cache_sep (Some 1) shared_st1.
Proof.
  intros k p Hk. rewrite shared_cache in Hk.
  apply lookup_singleton_Some in Hk as [_ <-]. split; [by vm_compute; lia | done].
Qed.

Lemma shared_cache_ids : cache_ids shared_st1.
Proof.
  intros k p Hk. rewrite shared_cache in Hk.
  apply lookup_singleton_Some in Hk as [<- <-].
  eexists. split; [by vm_compute | done].
Qed.

Lemma empty_cache_ids fs ps order : cache_ids (init fs ps order).
Proof.
  intros k p Hk.
  change (importCache (init fs ps order)) with (∅ : gmap string nat) in Hk.
  by rewrite lookup_empty in Hk.
Qed.

Lemma compileImports_nil_acyclic_witness :
  dag.Cycles (graph (final diamond_ok_imports no_state)) = [].
Proof.
  apply (compileImports_nil_acyclic (externals diamond_ok_repo []) (compiler "/out")
           10 0 (init [diamond_root] [] []) (final diamond_ok_imports no_state)
           diamond_root).
  - reflexivity.
  - discriminate.
  - by vm_compute.
Defined.

Lemma compileImports_caches_imports_witness :
  let E := externals diamond_ok_repo [] in
  let st' := final diamond_ok_imports no_state in
  ∃ keys,
    import_keys E (filepath_Dir E "/app/Appfile")
      [Import_.mk "X"; Import_.mk "Y"] keys ∧
    ∀ k, k ∈ keys → ∃ p, importCache st' !! k = Some p ∧ p < len st'.
Proof.
  intros E st'.
  apply (compileImports_caches_imports E (compiler "/out") 10 0
           (init [diamond_root] [] []) st' diamond_root (empty_cache_sep _ _ _ _)).
  - reflexivity.
  - by vm_compute.
Defined.

Lemma compileImports_warm_cache_offline_witness :
  let st' := final shared_again no_state in
  world st' = world shared_st1 ∧ importCache st' = importCache shared_st1 ∧
  ∃ Δ, trace st' = trace shared_st1 ++ Δ ∧ Forall (merge_into 0) Δ.
Proof.
  intros st'.
  apply (compileImports_warm_cache_offline shared_E (compiler "/out") 10 0
           shared_st1 st' None (default shared_first (files shared_st1 !! 0))).
  - by vm_compute.
  - intros i k Hi Hdet. vm_compute in Hi.
    apply list_elem_of_singleton in Hi as ->. injection Hdet as <-.
    rewrite shared_cache. by eexists.
  - by vm_compute.
Defined.

Lemma compileImports_keeps_cache_invariant_witness :
  let st' := final diamond_ok_imports no_state in
  cache_sep (Some 0) st' ∧ cache_ids st'.
Proof.
  intros st'.
  apply (compileImports_keeps_cache_invariant (externals diamond_ok_repo [])
           (compiler "/out") 10 0 (init [diamond_root] [] []) st' None
           (test_Merge_keeps_ID _ _) (empty_cache_sep _ _ _ _)
           (empty_cache_ids _ _ _)).
  by vm_compute.
Defined.

Lemma compileDependencies_fetches_once_witness :
  let st' := final deps_run no_state in
  ∃ Δ, trace st' = trace shared_init ++ Δ ∧ NoDup (dep_gets Δ) ∧
       ∀ rootv rootkey,
         files shared_init !! 1 = Some rootv →
         getter_Detect shared_E "." (filepath_Dir shared_E (File.Path rootv))
           = Ok rootkey →
         rootkey ∉ dep_gets Δ.
Proof.
  intros st'.
  apply (compileDependencies_fetches_once shared_E (compiler "/out") 10
           deps_root deps_graph shared_init st' (None, deps_graph')
           (empty_cache_sep _ _ _ _)).
  by vm_compute.
Defined.

Lemma compileDependencies_extends_graph_witness :
  (∀ v, v ∈ dag.vertices deps_graph → v ∈ dag.vertices deps_graph') ∧
  (∀ e, e ∈ dag.edges deps_graph → e ∈ dag.edges deps_graph') ∧
  (∀ a b, (a, b) ∈ dag.edges deps_graph' → (a, b) ∉ dag.edges deps_graph →
     (a = deps_root ∨ a ∈ dag.vertices deps_graph') ∧
     (b = deps_root ∨ b ∈ dag.vertices deps_graph')) ∧
  (∀ v, v ∈ dag.vertices deps_graph' → v ∉ dag.vertices deps_graph →
     ∃ a, (a, v) ∈ dag.edges deps_graph').
Proof.
  apply (compileDependencies_extends_graph shared_E (compiler "/out") 10
           deps_root deps_graph deps_graph' shared_init (final deps_run no_state)
           (empty_cache_sep _ _ _ _)).
  by vm_compute.
Defined.


Lemma compileDependencies_connects_dependencies_witness :
  let st' := final deps_run no_state in
  ∃ fv, files st' !! CompiledGraphVertex.File deps_root = Some fv ∧
    ∀ dep, dep ∈ Application.Dependencies (File.Application fv) →
      ∃ k w,
        getter_Detect shared_E (Dependency.Source dep)
          (filepath_Dir shared_E (File.Path fv)) = Ok k ∧
        (deps_root, w) ∈ dag.edges deps_graph' ∧
        (w = deps_root ∨
         (w ∈ dag.vertices deps_graph' ∧
          ∃ fw, files st' !! CompiledGraphVertex.File w = Some fw ∧
                File.Source fw = k)).
Proof.
  intros st'.
  apply (compileDependencies_connects_dependencies shared_E (compiler "/out") 10
           deps_root deps_graph deps_graph' shared_init st'
           (empty_cache_sep _ _ _ _)) with (v := deps_root).
  - by vm_compute.
  - by left.
Defined.

Lemma Validate_nil_iff_valid_witness :
  shared_init = shared_init ∧
  ((None : option error) = None ↔
   dag.Cycles deps_graph = [] ∧
   ∀ v, v ∈ dag.vertices deps_graph →
     ∃ d, read_data (CompiledGraphVertex.File v) shared_init = Done d shared_init ∧
          File_Validate shared_E d = None).
Proof.
  apply (Validate_nil_iff_valid shared_E (Compiled.mk 1 deps_graph)
           shared_init shared_init None).
  by vm_compute.
Defined.

Lemma MinCompile_single_vertex_witness :
  compileImports shared_E (compiler "/out") 10 0 shared_init = Done None shared_st1 ∧
  ∃ fv, files shared_st1 !! 0 = Some fv ∧
    let vertex := CompiledGraphVertex.mk 0 "" (Application.Name (File.Application fv)) in
    first_compiled = Compiled.mk 0 (dag.mkGraph [vertex] []) ∧
    dag.Root (Compiled.Graph first_compiled) = Ok vertex.
Proof.
  apply (MinCompile_single_vertex shared_E (compiler "/out") 10 0 shared_init
           shared_st1 first_compiled).
  by vm_compute.
Defined.

Lemma Compile_stops_at_version_failure_witness :
  let c := compiler "/out" in
  let s1 := final (compileVersion readonly_E "/out" noid_init) no_state in
  Compile readonly_E c 10 0 noid_init
    = Done (ReturnErr (Errorf ("Error writing compiled Appfile version: "
                                 +:+ "read-only file system"))) s1 ∧
  (∃ Δ, trace s1 = trace noid_init ++ Δ ∧ version_events (Dir (opts c)) Δ) ∧
  files s1 = files noid_init ∧ projects s1 = projects noid_init ∧
  importCache s1 = importCache noid_init.
Proof.
  intros c s1.
  apply (Compile_stops_at_version_failure readonly_E c 10 0 noid_init s1
           "read-only file system").
  by vm_compute.
Defined.

Lemma Compile_result_is_valid_witness :
  Compiled.File shared_compiled = 1 ∧
  (∃ name, CompiledGraphVertex.mk 1 "" name
             ∈ dag.vertices (Compiled.Graph shared_compiled)) ∧
  dag.Cycles (Compiled.Graph shared_compiled) = [] ∧
  ∀ v, v ∈ dag.vertices (Compiled.Graph shared_compiled) →
    ∃ d, read_data (CompiledGraphVertex.File v) shared_st2 = Done d shared_st2 ∧
         File_Validate shared_E d = None.
Proof.
  apply (Compile_result_is_valid shared_E (compiler "/out") 10 1 shared_st1
           shared_st2 shared_compiled shared_cache_sep_root).
  by vm_compute.
Defined.

Lemma Compile_writes_its_result_witness :
  let c := compiler "/out" in
  ∃ T data,
    trace shared_st2
      = T ++ [EvCreate (filepath_Join (Dir (opts c)) CompileFilename);
              EvWrite (filepath_Join (Dir (opts c)) CompileFilename) data] ∧
    json_MarshalIndent shared_E shared_compiled (files shared_st2)
      (projects shared_st2) = Ok data.
Proof.
  intros c.
  apply (Compile_writes_its_result shared_E c 10 1 shared_st1 shared_st2
           shared_compiled).
  by vm_compute.
Defined.

Lemma Compile_keeps_loaded_ID_witness :
  ∃ id w fv', File_loadID shared_E shared_root w = Ok id ∧
              files shared_st2 !! 1 = Some fv' ∧ File.ID fv' = id.
Proof.
  apply (Compile_keeps_loaded_ID shared_E (compiler "/out") 10 1 shared_st1
           shared_st2 shared_compiled shared_root
           (test_Merge_keeps_ID _ _) shared_cache_sep_root shared_cache_ids).
  - by vm_compute.
  - discriminate.
  - by vm_compute.
Defined.


Lemma Compile_announces_every_fetch_witness :
  let st' := final logged_run no_state in
  ∃ Δ, trace st' = trace shared_init ++ Δ ∧
       match Callback (opts logging_compiler) with
       | Some _ =>
           fetched Δ ⊆+ announced Δ ∧
           (∀ compiled,
              default (ReturnErr (Errorf "")) (returned logged_run) = Return compiled →
              announced Δ ≡ₚ fetched Δ)
       | None => announced Δ = []
       end.
Proof.
  intros st'.
  apply (Compile_announces_every_fetch shared_E logging_compiler 10 1 shared_init st'
           (default (ReturnErr (Errorf "")) (returned logged_run))).
  by vm_compute.
Defined.

Lemma Compile_leaf_offline_witness :
  let c := compiler "/out" in
  let st := init [leaf] [] [] in
  let st' := final leaf_run no_state in
  importCache st' = importCache st ∧
  ∃ Δ, trace st' = trace st ++ Δ ∧
       Forall (leaf_call (Dir (opts c)) (File.Path leaf)) Δ ∧
       (File.Path leaf = "" → Forall (output_write (Dir (opts c))) Δ).
Proof.
  intros c st st'.
  apply (Compile_leaf_offline (externals [] []) c 10 0 st st'
           (default (ReturnErr (Errorf "")) (returned leaf_run)) leaf).
  - reflexivity.
  - reflexivity.
  - reflexivity.
  - by vm_compute.
Defined.

Lemma NewCompiler_fresh_witness :
  let o := {| Dir := "/out"; Loader := None; Callback := None |} in
  let st' := final new_run no_state in
  match returned new_run with
  | Some (Return c) =>
      mkdir (Dir o) (world no_state) = (None, world st') ∧
      opts c = o ∧
      depStorage c = storage ∧
      importStorage c = depStorage c ∧
      importCache st' = ∅ ∧ (∀ h, cache_sep h st') ∧ cache_ids st'
  | Some (ReturnErr e) =>
      ∃ msg, e = External msg ∧
             mkdir (Dir o) (world no_state) = (Some msg, world st') ∧
             importCache st' = importCache no_state
  | None => True
  end.
Proof.
  intros o st'.
  apply (NewCompiler_fresh mkdir (λ _, storage) o no_state st'
           (default (ReturnErr (Errorf "")) (returned new_run))).
  by vm_compute.
Defined.

Lemma process_sets_shared_folder_witness :
  let o' := opts_of process_detected in
  ∃ tpl cmd q p,
    config "" "run_command" = goapp.VString tpl ∧
    render (goapp.Context_ no_opts) tpl = Ok cmd ∧
    config "" "go_import_path" = goapp.VString q ∧
    (q ≠ "" → p = q ∧ goapp.ui o' = goapp.ui no_opts) ∧
    (q = "" →
     detect (Ok "github.com/a/b")
       (header "Detecting application import path for GOPATH..." (goapp.ui no_opts))
     = (Ok p, goapp.ui o')) ∧
    goapp.Context_ o' !! "import_path" = Some (goapp.VString p) ∧
    goapp.Context_ o' !! "shared_folder_path"
      = Some (goapp.VString (if decide (p = "") then "/vagrant"
                             else "/opt/gopath/src/" +:+ p)) ∧
    goapp.Context_ o' !! "dep_run_command" = Some (goapp.VString cmd) ∧
    goapp.Context_ o' !! "dev_go_version" = Some (config "" "go_version") ∧
    (∀ k, k ∉ ["dep_run_command"; "dev_go_version"; "import_path";
               "shared_folder_path"] →
          goapp.Context_ o' !! k = goapp.Context_ no_opts !! k).
Proof.
  intros o'.
  apply (process_sets_shared_folder render header (detect (Ok "github.com/a/b"))
           (config "") no_opts o').
  by vm_compute.
Defined.

Lemma process_error_leaves_paths_witness :
  let o' := opts_of process_undetected in
  goapp.Context_ o' !! "import_path" = goapp.Context_ no_opts !! "import_path" ∧
  goapp.Context_ o' !! "shared_folder_path"
    = goapp.Context_ no_opts !! "shared_folder_path" ∧
  ∃ tpl, config "" "run_command" = goapp.VString tpl ∧
    ((∃ msg, render (goapp.Context_ no_opts) tpl = Fail msg ∧
             External "no GOPATH"
               = Errorf ("Error processing 'run_command': " +:+ msg) ∧
             o' = no_opts) ∨
     (∃ msg cmd,
        render (goapp.Context_ no_opts) tpl = Ok cmd ∧
        config "" "go_import_path" = goapp.VString "" ∧
        detect (Fail "no GOPATH")
          (header "Detecting application import path for GOPATH..."
             (goapp.ui no_opts))
        = (Fail msg, goapp.ui o') ∧
        External "no GOPATH" = External msg ∧
        goapp.Context_ o' !! "dep_run_command" = Some (goapp.VString cmd) ∧
        goapp.Context_ o' !! "dev_go_version" = Some (config "" "go_version") ∧
        (∀ k, k ∉ ["dep_run_command"; "dev_go_version"] →
              goapp.Context_ o' !! k = goapp.Context_ no_opts !! k))).
Proof.
  intros o'.
  apply (process_error_leaves_paths render header (detect (Fail "no GOPATH"))
           (config "") no_opts o' (External "no GOPATH")).
  by vm_compute.
Defined.


End ClosedMore.
